(** * stconflict: a shallow embedding of the Syncthing conflict resolver

    The development follows [src/stconflict/__init__.py] class by class.
    Python values are embedded as follows:

    - [str] is [string]; the raw content of a file is [list Byte.byte];
    - [int] and the whole-second [float] returned by [total_seconds] are [Z];
    - an exception is a constructor of [exn], and a call that may raise
      returns a [result];
    - module level state ([Timestamp.NOW], the file system, the objects that
      [set_parent] mutates, standard output) lives in one record [World],
      threaded through the state-and-exception monad [M];
    - a [dict] is an association list kept in insertion order, as Python 3.7
      guarantees for [dict.items()].

    What lies outside the program is kept small: the file system is a flat
    map from paths to files and directories, [os.path.realpath] a function
    on paths, the wall clock a sequence of readings, the codec of the locale
    a predicate that tells which contents it fails on, and the directory
    walk of [Cli.scan_for_conflicts] a list of the files it yields.  The
    interactive prompt is not modelled. *)

From Stdlib Require Import ZArith Ascii String List Lia Bool.
From Stdlib Require Import Numbers.DecimalString Numbers.DecimalN Numbers.DecimalZ.
From stdpp Require Import base option gmap strings list fin_maps.

Local Open Scope string_scope.
Local Open Scope Z_scope.

(** ** Exceptions and results *)

Inductive exn : Type :=
| AssertionError
| KeyError
| IndexError
| ValueError
| TypeError
| ReferenceError
| FileNotFoundError
| FileExistsError
| IsADirectoryError
| UnicodeDecodeError.

Inductive result (A : Type) : Type :=
| Ok (a : A)
| Raise (e : exn).
Arguments Ok {A} a.
Arguments Raise {A} e.

#[global] Instance result_ret : MRet result := fun A a => Ok a.
#[global] Instance result_bind : MBind result := fun A B f r =>
  match r with
  | Ok a => f a
  | Raise e => Raise e
  end.
#[global] Instance result_fmap : FMap result := fun A B f r =>
  match r with
  | Ok a => Ok (f a)
  | Raise e => Raise e
  end.

Definition is_Ok {A} (r : result A) : bool :=
  match r with Ok _ => true | Raise _ => false end.

Definition of_option {A} (e : exn) (o : option A) : result A :=
  match o with Some a => Ok a | None => Raise e end.

(** [assert c] *)
Definition assert (c : bool) : result unit :=
  if c then Ok tt else Raise AssertionError.

(** ** Strings *)

Module Str.

Definition eqb (a b : string) : bool := bool_decide (a = b).

Fixpoint repeat (c : ascii) (n : nat) : string :=
  match n with
  | O => ""
  | S n' => String c (repeat c n')
  end.

(** [str(n)] for an [int]. *)
Definition of_int (z : Z) : string := NilZero.string_of_int (Z.to_int z).

(** [int(s)] for a string of decimal digits; [ValueError] otherwise. *)
Definition to_int (s : string) : result Z :=
  match NilZero.uint_of_string s with
  | Some u => Ok (Z.of_uint u)
  | None => Raise ValueError
  end.

(** ['{:>0w}'.format(n)]: the decimal text of [n], filled with ['0'] on
    the left up to width [w]. *)
Definition zfill (w : nat) (z : Z) : string :=
  let s := of_int z in
  repeat "0"%char (w - String.length s) +:+ s.

Fixpoint concat (l : list string) : string :=
  match l with
  | [] => ""
  | s :: l' => s +:+ concat l'
  end.

(** [s.rfind(c)]: index of the last occurrence, or [-1]. *)
Fixpoint rfind_from (c : ascii) (i : Z) (s : string) (found : Z) : Z :=
  match s with
  | "" => found
  | String d s' => rfind_from c (i + 1) s' (if Ascii.eqb c d then i else found)
  end.
Definition rfind (c : ascii) (s : string) : Z := rfind_from c 0 s (-1).

(** [s[i:j]] and friends, for indices within bounds. *)
Fixpoint take (n : nat) (s : string) : string :=
  match n, s with
  | S n', String c s' => String c (take n' s')
  | _, _ => ""
  end.
Fixpoint drop (n : nat) (s : string) : string :=
  match n, s with
  | S n', String _ s' => drop n' s'
  | _, _ => s
  end.
Definition get (n : nat) (s : string) : option ascii := String.get n s.

End Str.

(** ** [os.path] (posixpath) *)

Module os_path.

(** [posixpath.join(a, b)] for two components. *)
Definition join (a b : string) : string :=
  match b with
  | String "/"%char _ => b
  | _ =>
      match a with
      | "" => b
      | _ =>
          if Str.eqb (Str.drop (String.length a - 1) a) "/"
          then a +:+ b
          else a +:+ "/" +:+ b
      end
  end.

(** The loop of [genericpath._splitext] that skips leading dots: is there
    a character other than ['.'] in [p[filenameIndex:dotIndex]]? *)
Fixpoint has_non_dot (s : string) : bool :=
  match s with
  | "" => false
  | String c s' => if Ascii.eqb c "."%char then has_non_dot s' else true
  end.

(** [posixpath.splitext(p)] *)
Definition splitext (p : string) : string * string :=
  let sepIndex := Str.rfind "/"%char p in
  let dotIndex := Str.rfind "."%char p in
  if (sepIndex <? dotIndex)
     && has_non_dot (Str.take (Z.to_nat (dotIndex - (sepIndex + 1)))
                              (Str.drop (Z.to_nat (sepIndex + 1)) p))
  then (Str.take (Z.to_nat dotIndex) p, Str.drop (Z.to_nat dotIndex) p)
  else (p, "").

End os_path.

(** ** [datetime.datetime], restricted to whole seconds *)

Module datetime.

Record t : Type := mk
  { year : Z; month : Z; day : Z; hour : Z; minute : Z; second : Z }.

Definition is_leap (y : Z) : bool :=
  (y mod 4 =? 0) && (negb (y mod 100 =? 0) || (y mod 400 =? 0)).

Definition days_in_month (y m : Z) : Z :=
  if m =? 2 then (if is_leap y then 29 else 28)
  else if (m =? 4) || (m =? 6) || (m =? 9) || (m =? 11) then 30
  else 31.

Definition days_before_year (y : Z) : Z :=
  let p := y - 1 in p * 365 + p / 4 - p / 100 + p / 400.

Fixpoint days_before_month_go (y : Z) (n : nat) : Z :=
  match n with
  | O => 0
  | S n' => days_before_month_go y n' + days_in_month y (Z.of_nat n)
  end.
Definition days_before_month (y m : Z) : Z :=
  days_before_month_go y (Z.to_nat (m - 1)).

Definition toordinal (d : t) : Z :=
  days_before_year (year d) + days_before_month (year d) (month d) + day d.

Definition valid (y m d H M S : Z) : bool :=
  (1 <=? y) && (y <=? 9999) && (1 <=? m) && (m <=? 12)
  && (1 <=? d) && (d <=? days_in_month y m)
  && (0 <=? H) && (H <=? 23) && (0 <=? M) && (M <=? 59)
  && (0 <=? S) && (S <=? 59).

(** [datetime.datetime(y, m, d, H, M, S)] *)
Definition new (y m d H M S : Z) : result t :=
  if valid y m d H M S then Ok (mk y m d H M S) else Raise ValueError.

Definition seconds_of_day (d : t) : Z :=
  hour d * 3600 + minute d * 60 + second d.

(** [(a - b).total_seconds()] *)
Definition sub_total_seconds (a b : t) : Z :=
  (toordinal a - toordinal b) * 86400 + (seconds_of_day a - seconds_of_day b).

End datetime.

(** ** class Date *)

Record Date : Type := mkDate { date_yy : Z; date_mm : Z; date_dd : Z }.

Definition Date_init (yy mm dd : Z) : Date := mkDate yy mm dd.

(** [Date(yy, mm, dd)] on the three digit groups of a match: [int] is
    applied to each. *)
Definition Date_init_str (yy mm dd : string) : result Date :=
  y ← Str.to_int yy; m ← Str.to_int mm; d ← Str.to_int dd;
  Ok (Date_init y m d).

Definition Date_repr (d : Date) : string :=
  Str.zfill 4 (date_yy d) +:+ Str.zfill 2 (date_mm d) +:+ Str.zfill 2 (date_dd d).

(** [self.yy * 356 * + self.mm * 30 + self.dd]: the unary plus binds to
    [self.mm]. *)
Definition Date_order (d : Date) : Z :=
  date_yy d * 356 * date_mm d * 30 + date_dd d.

(** ** class Time *)

Record Time : Type := mkTime { time_hh : Z; time_mm : Z; time_ss : Z }.

Definition Time_init (hh mm ss : Z) : Time := mkTime hh mm ss.

Definition Time_init_str (hh mm ss : string) : result Time :=
  h ← Str.to_int hh; m ← Str.to_int mm; s ← Str.to_int ss;
  Ok (Time_init h m s).

Definition Time_repr (t : Time) : string :=
  Str.zfill 2 (time_hh t) +:+ Str.zfill 2 (time_mm t) +:+ Str.zfill 2 (time_ss t).

Definition Time_order (t : Time) : Z :=
  time_hh t * (60 * 60) + time_mm t * 60 + time_ss t.

(** ** class Timestamp (the part without module state) *)

Record Timestamp : Type := mkTimestamp
  { ts_date : Date; ts_time : Time; ts_dt : datetime.t }.

Definition Timestamp_init (date : Date) (time : Time) : result Timestamp :=
  dt ← datetime.new (date_yy date) (date_mm date) (date_dd date)
                    (time_hh time) (time_mm time) (time_ss time);
  Ok (mkTimestamp date time dt).

Definition Timestamp_repr (t : Timestamp) : string :=
  Date_repr (ts_date t) +:+ Time_repr (ts_time t).

Definition Timestamp_from_dt (dt : datetime.t) : result Timestamp :=
  let date := Date_init (datetime.year dt) (datetime.month dt) (datetime.day dt) in
  let time := Time_init (datetime.hour dt) (datetime.minute dt) (datetime.second dt) in
  Timestamp_init date time.

Definition Timestamp_order (t : Timestamp) : result Z :=
  Str.to_int (Timestamp_repr t).

Definition Timestamp_delta (self other : Timestamp) : Z :=
  datetime.sub_total_seconds (ts_dt self) (ts_dt other).

(** ** class Conflict *)

Record Conflict : Type := mkConflict
  { c_date : Date; c_time : Time; c_uid : string; c_timestamp : Timestamp }.

(** The named groups of one match of [Conflict.REGEX]. *)
Record groups : Type := mkGroups
  { g_dy : string; g_dm : string; g_dd : string;
    g_th : string; g_tm : string; g_ts : string; g_uid : string }.

Definition is_digit (c : ascii) : bool :=
  let n := nat_of_ascii c in (48 <=? n)%nat && (n <=? 57)%nat.

Definition is_upper (c : ascii) : bool :=
  let n := nat_of_ascii c in (65 <=? n)%nat && (n <=? 90)%nat.

(** [[0-9A-Z]] *)
Definition is_uid_char (c : ascii) : bool := is_digit c || is_upper c.

(** A literal piece of the pattern: strips [lit] from the front of [s]. *)
Fixpoint expect (lit s : string) : option string :=
  match lit with
  | "" => Some s
  | String c lit' =>
      match s with
      | String d s' => if Ascii.eqb c d then expect lit' s' else None
      | "" => None
      end
  end.

(** [[class]{n}]: exactly [n] characters of the class. *)
Fixpoint take_class (p : ascii → bool) (n : nat) (s : string)
  : option (string * string) :=
  match n with
  | O => Some ("", s)
  | S n' =>
      match s with
      | String c s' =>
          if p c then '(g, r) ← take_class p n' s'; Some (String c g, r)
          else None
      | "" => None
      end
  end.

(** [Conflict.REGEX.match(s)]: the groups and the text after the match. *)
Definition Conflict_REGEX_match (s : string) : option (groups * string) :=
  s ← expect ".sync-conflict-" s;
  '(dy, s) ← take_class is_digit 4 s;
  '(dm, s) ← take_class is_digit 2 s;
  '(dd, s) ← take_class is_digit 2 s;
  s ← expect "-" s;
  '(th, s) ← take_class is_digit 2 s;
  '(tm, s) ← take_class is_digit 2 s;
  '(ts, s) ← take_class is_digit 2 s;
  s ← expect "-" s;
  '(uid, s) ← take_class is_uid_char 7 s;
  Some (mkGroups dy dm dd th tm ts uid, s).

(** A left-to-right scan for the non-overlapping matches, as [finditer] and
    [sub] perform it.  Every match is 38 characters long: after a match
    the scan resumes behind it ([skip] counts the characters of the match
    still to pass). *)
Inductive token : Type :=
| Lit (c : ascii)
| Match (g : groups).

Fixpoint tokens_from (skip : nat) (s : string) : list token :=
  match s with
  | "" => []
  | String c s' =>
      match skip with
      | S k => tokens_from k s'
      | O =>
          match Conflict_REGEX_match s with
          | Some (g, _) => Match g :: tokens_from 37 s'
          | None => Lit c :: tokens_from 0 s'
          end
      end
  end.

Definition tokens (s : string) : list token := tokens_from 0 s.

(** [Conflict.REGEX.finditer(path)] *)
Definition Conflict_REGEX_finditer (path : string) : list groups :=
  omap (λ t, match t with Match g => Some g | Lit _ => None end) (tokens path).

(** [Conflict.REGEX.sub('', name)] *)
Fixpoint string_of_lits (l : list token) : string :=
  match l with
  | [] => ""
  | Lit c :: l' => String c (string_of_lits l')
  | Match _ :: l' => string_of_lits l'
  end.
Definition Conflict_REGEX_sub_empty (name : string) : string :=
  string_of_lits (tokens name).

Definition Conflict_init (date : string * string * string)
    (time : string * string * string) (uid : string) : result Conflict :=
  let '(dy, dm, dd) := date in
  let '(th, tm, ts) := time in
  d ← Date_init_str dy dm dd;
  t ← Time_init_str th tm ts;
  stamp ← Timestamp_init d t;
  Ok (mkConflict d t uid stamp).

Definition Conflict_repr (c : Conflict) : string :=
  ".sync-conflict-" +:+ Date_repr (c_date c) +:+ "-" +:+ Time_repr (c_time c)
    +:+ "-" +:+ c_uid c.

Definition Conflict_order (c : Conflict) : result Z :=
  Timestamp_order (c_timestamp c).

(** [Conflict.format(conflicts)] *)
Definition Conflict_format (conflicts : list Conflict) : string :=
  fold_left (λ s c, s +:+ Conflict_repr c) conflicts "".

(** [Conflict.parse(path)]: the loop over [finditer]; the first marker whose
    digits are no calendar date or clock time raises [ValueError]. *)
Fixpoint Conflict_parse_matches (ms : list groups) : result (list Conflict) :=
  match ms with
  | [] => Ok []
  | g :: ms' =>
      c ← Conflict_init (g_dy g, g_dm g, g_dd g) (g_th g, g_tm g, g_ts g) (g_uid g);
      cs ← Conflict_parse_matches ms';
      Ok (c :: cs)
  end.

Definition Conflict_parse (path : string) : result (list Conflict) :=
  Conflict_parse_matches (Conflict_REGEX_finditer path).

(** ** class ConflictFile: the object and its constructor *)

(** Objects that are mutated after construction ([parent], [children]) are
    addressed by reference: a [ref] is an index into the heap of the
    [World]. *)
Abbreviation ref := nat (only parsing).

Record ConflictFile : Type := mkConflictFile
  { cf_path : string;
    cf_base : string;
    cf_name : string;
    cf_conflicts : list Conflict;
    cf_selected : string;
    cf_ext : string;
    cf_original : string;
    cf_root : bool;
    cf_parent : option ref;
    cf_children : list ref }.

(** [self.format(name=None, conflicts=None, ext=None)]: an argument left at
    [None] is taken from the object. *)
Definition ConflictFile_format (self : ConflictFile)
    (name : option string) (conflicts : option (list Conflict))
    (ext : option string) : string :=
  let conflicts := default (cf_conflicts self) conflicts in
  let ext := default (cf_ext self) ext in
  let name := default (cf_selected self) name in
  name +:+ Conflict_format conflicts +:+ ext.

Definition ConflictFile_repr (self : ConflictFile) : string :=
  ConflictFile_format self None None None.

(** [conflicts[:-1]] *)
Definition but_last {A} (l : list A) : list A := removelast l.

(** [ConflictFile(path, base, name, conflicts)].  The attributes are set in
    the order of the source; [format] is called when [selected], [ext] and
    [conflicts] are set. *)
Definition ConflictFile_init (path base name : string)
    (conflicts : list Conflict) : result ConflictFile :=
  let '(selected, ext) := os_path.splitext (Conflict_REGEX_sub_empty name) in
  let original := selected +:+ Conflict_format (but_last conflicts) +:+ "" in
  let root := Str.eqb original selected in
  let self :=
    mkConflictFile path base name conflicts selected ext original root None [] in
  _ ← assert (Str.eqb name (ConflictFile_repr self));
  Ok self.

(** [self.conflicts[-1]] *)
Definition ConflictFile_top (self : ConflictFile) : result Conflict :=
  of_option IndexError (last (cf_conflicts self)).

Definition ConflictFile_order (self : ConflictFile) : result Z :=
  c ← ConflictFile_top self; Conflict_order c.

Definition ConflictFile_timestamp (self : ConflictFile) : result Timestamp :=
  c ← ConflictFile_top self; Ok (c_timestamp c).

(** The body of the innermost loop of [Cli.scan_for_conflicts]: a name
    without marker is skipped, any other becomes a [ConflictFile]. *)
Definition scan_file (path base name : string) : result (option ConflictFile) :=
  conflicts ← Conflict_parse name;
  match conflicts with
  | [] => Ok None
  | _ :: _ => cf ← ConflictFile_init path base name conflicts; Ok (Some cf)
  end.

(** ** The world: file system, clock, module state, objects, output *)

Inductive node : Type :=
| File (content : list Byte.byte)
| Dir.

(** The command line: [argparse]'s namespace. *)
Record Args : Type := mkArgs
  { backup_dir : string; version_dir : string; commit : bool; PATH : list string }.

Record World : Type := mkWorld
  { fs : gmap string node;             (* what a path resolves to *)
    realpath : string → string;        (* os.path.realpath *)
    clock : nat → datetime.t;          (* successive datetime.now() readings *)
    ticks : nat;                       (* readings taken so far *)
    NOW : option Timestamp;            (* the class attribute Timestamp.NOW *)
    heap : list ConflictFile;          (* the ConflictFile objects *)
    stdout : list string;              (* lines printed *)
    undecodable : list Byte.byte → bool }.
      (* does the locale codec fail on this content, read as text? *)

Definition set_fs (f : gmap string node) (w : World) : World :=
  mkWorld f (realpath w) (clock w) (ticks w) (NOW w) (heap w) (stdout w)
    (undecodable w).
Definition set_ticks (n : nat) (w : World) : World :=
  mkWorld (fs w) (realpath w) (clock w) n (NOW w) (heap w) (stdout w)
    (undecodable w).
Definition set_NOW (t : option Timestamp) (w : World) : World :=
  mkWorld (fs w) (realpath w) (clock w) (ticks w) t (heap w) (stdout w)
    (undecodable w).
Definition set_heap (h : list ConflictFile) (w : World) : World :=
  mkWorld (fs w) (realpath w) (clock w) (ticks w) (NOW w) h (stdout w)
    (undecodable w).
Definition set_stdout (o : list string) (w : World) : World :=
  mkWorld (fs w) (realpath w) (clock w) (ticks w) (NOW w) (heap w) o
    (undecodable w).

(** State and exceptions: a raised exception keeps the state reached. *)
Definition M (A : Type) : Type := World → result A * World.

#[global] Instance M_ret : MRet M := λ A a w, (Ok a, w).
#[global] Instance M_bind : MBind M := λ A B f m w,
  match m w with
  | (Ok a, w') => f a w'
  | (Raise e, w') => (Raise e, w')
  end.

Definition lift {A} (r : result A) : M A := λ w, (r, w).
Definition raise {A} (e : exn) : M A := lift (Raise e).
Definition gets {A} (f : World → A) : M A := λ w, (Ok (f w), w).
Definition modify (f : World → World) : M unit := λ w, (Ok tt, f w).

(** [print(line)] *)
Definition print (line : string) : M unit :=
  modify (λ w, set_stdout (stdout w ++ [line])%list w).

(** [datetime.datetime.now()], microseconds dropped. *)
Definition datetime_now : M datetime.t :=
  λ w, (Ok (clock w (ticks w)), set_ticks (S (ticks w)) w).

(** Reading and writing an object. *)
Definition deref (r : ref) : M ConflictFile :=
  λ w, (of_option ReferenceError (heap w !! r), w).
Definition store (r : ref) (cf : ConflictFile) : M unit :=
  modify (λ w, set_heap (<[r := cf]> (heap w)) w).
Definition alloc (cf : ConflictFile) : M ref :=
  λ w, (Ok (length (heap w)), set_heap (heap w ++ [cf])%list w).

(** *** File system calls *)

Definition os_path_isfile (p : string) : M bool :=
  gets (λ w, match fs w !! p with Some (File _) => true | _ => false end).

Definition os_path_isdir (p : string) : M bool :=
  gets (λ w, match fs w !! p with Some Dir => true | _ => false end).

(** [os.remove(p)] *)
Definition os_remove (p : string) : M unit :=
  λ w, match fs w !! p with
       | Some (File _) => (Ok tt, set_fs (delete p (fs w)) w)
       | Some Dir => (Raise IsADirectoryError, w)
       | None => (Raise FileNotFoundError, w)
       end.

(** [os.mkdir(p)]; the flat name space does not record parents. *)
Definition os_mkdir (p : string) : M unit :=
  λ w, match fs w !! p with
       | Some _ => (Raise FileExistsError, w)
       | None => (Ok tt, set_fs (<[p := Dir]> (fs w)) w)
       end.

(** [os.rename(src, dst)] for a regular file [src]: the program renames
    files that the walk has listed.  A directory [src], which [os.rename]
    would move with what is in it, is not in the model and is answered by
    an exception. *)
Definition os_rename (src dst : string) : M unit :=
  λ w, match fs w !! src, fs w !! dst with
       | None, _ => (Raise FileNotFoundError, w)
       | Some Dir, _ => (Raise IsADirectoryError, w)
       | Some (File _), Some Dir => (Raise IsADirectoryError, w)
       | Some (File c), _ => (Ok tt, set_fs (<[dst := File c]> (delete src (fs w))) w)
       end.

(** [open(p, "r")]: the handle is the content to be read. *)
Definition open_r (p : string) : M (list Byte.byte) :=
  λ w, match fs w !! p with
       | Some (File c) => (Ok c, w)
       | Some Dir => (Raise IsADirectoryError, w)
       | None => (Raise FileNotFoundError, w)
       end.

(** Iterating a file opened in text mode yields [str] lines, with universal
    newlines: a line ends behind ["\n"], ["\r\n"] or ["\r"], each read as
    ["\n"].  The bytes are decoded by the codec of the locale.  Content in
    ASCII decodes one to one in every such codec.  On other content the
    decoder may raise [UnicodeDecodeError] before a first line is
    delivered: whether it does depends on the codec and on the chunks in
    which the file is read, and is asked of the world ([undecodable]).
    When it does not, a first line is delivered; of the lines of such
    content the model keeps that there is one, not what they hold. *)
Definition NL : ascii := "010"%char.
Definition CR : ascii := "013"%char.

Fixpoint text_lines_from (cur : string) (bs : list Byte.byte) : list string :=
  match bs with
  | [] => match cur with "" => [] | _ => [cur] end
  | b :: bs' =>
      let c := ascii_of_byte b in
      if Ascii.eqb c NL then (cur +:+ String NL "") :: text_lines_from "" bs'
      else if Ascii.eqb c CR then
        match bs' with
        | b' :: bs'' =>
            if Ascii.eqb (ascii_of_byte b') NL
            then (cur +:+ String NL "") :: text_lines_from "" bs''
            else (cur +:+ String NL "") :: text_lines_from "" bs'
        | [] => [cur +:+ String NL ""]
        end
      else text_lines_from (cur +:+ String c "") bs'
  end.
Definition text_lines (bs : list Byte.byte) : list string := text_lines_from "" bs.

Definition is_ascii (bs : list Byte.byte) : bool :=
  forallb (λ b, (Byte.to_nat b <? 128)%nat) bs.

(** Does content of a file come through the decoder? *)
Definition decodes (w : World) (content : list Byte.byte) : bool :=
  is_ascii content || negb (undecodable w content).

(** The lines that [for line in f] runs through. *)
Definition read_lines (content : list Byte.byte) : M (list string) :=
  λ w, (if decodes w content then Ok (text_lines content)
        else Raise UnicodeDecodeError, w).

(** *** [hashlib.sha256]

    A hash object is modelled by the bytes it has absorbed, and two digests
    are compared by comparing these (an ideal, collision free SHA-256).
    [update] takes a bytes-like object: given a [str] it raises
    [TypeError]. *)
Inductive pyval : Type :=
| PyStr (s : string)
| PyBytes (b : list Byte.byte).

#[global] Instance byte_eq_dec : EqDecision Byte.byte := Byte.byte_eq_dec.

Abbreviation sha256 := (list Byte.byte).
Definition sha256_new : sha256 := [].
Definition sha256_update (h : sha256) (v : pyval) : result sha256 :=
  match v with
  | PyBytes b => Ok (h ++ b)%list
  | PyStr _ => Raise TypeError
  end.
Definition sha256_digest_eqb (a b : sha256) : bool := bool_decide (a = b).

(** [for line in f: digest.update(line)] *)
Fixpoint update_lines (h : sha256) (lines : list string) {struct lines}
  : result sha256 :=
  match lines with
  | [] => Ok h
  | line :: rest => h' ← sha256_update h (PyStr line); update_lines h' rest
  end.

(** ** class Timestamp: the memoized clock *)

(** [Timestamp.now()]: an instance of [Timestamp] is truthy, so [NOW] is
    assigned on the first call only. *)
Definition Timestamp_now : M Timestamp :=
  now ← gets NOW;
  match now with
  | Some t => mret t
  | None =>
      dt ← datetime_now;
      t ← lift (Timestamp_from_dt dt);
      _ ← modify (set_NOW (Some t));
      mret t
  end.

(** [Timestamp.file_age(conflict_file)] *)
Definition Timestamp_file_age (conflict_file : ConflictFile) : M Z :=
  now ← Timestamp_now;
  top ← lift (ConflictFile_top conflict_file);
  mret (Timestamp_delta now (c_timestamp top)).

(** ** class ConflictFile: the methods *)

Definition ConflictFile_age_in_seconds (self : ConflictFile) : M Z :=
  Timestamp_file_age self.

Definition ConflictFile_canonical_name (self : ConflictFile) : M string :=
  rp ← gets realpath;
  mret (os_path.join (rp (cf_base self)) (cf_name self)).

Definition ConflictFile_canonical_selected (self : ConflictFile) : M string :=
  rp ← gets realpath;
  mret (os_path.join (rp (cf_base self))
          (ConflictFile_format self (Some (cf_selected self)) (Some []) None)).

Definition ConflictFile_canonical_original (self : ConflictFile) : M string :=
  rp ← gets realpath;
  mret (os_path.join (rp (cf_base self))
          (ConflictFile_format self (Some (cf_original self)) (Some []) None)).

Definition ConflictFile_backup_directory (self : ConflictFile) (args : Args) : string :=
  os_path.join (cf_path self) (backup_dir args).

Definition ConflictFile_canonical_backup (self : ConflictFile) (args : Args) : string :=
  os_path.join (ConflictFile_backup_directory self args) (cf_name self).

Definition ConflictFile_delete (self : ConflictFile) (args : Args) : M unit :=
  if commit args then
    p ← ConflictFile_canonical_name self;
    os_remove p
  else
    print ("delete: " +:+ cf_name self).

Definition ConflictFile_backup (self : ConflictFile) (args : Args) : M unit :=
  if commit args then
    d ← os_path_isdir (ConflictFile_backup_directory self args);
    _ ← (if negb d then os_mkdir (ConflictFile_backup_directory self args)
         else mret tt);
    p ← ConflictFile_canonical_name self;
    os_rename p (ConflictFile_canonical_backup self args)
  else
    print ("backup: " +:+ cf_name self).

(** [self.set_parent(parent)] on the objects [self] and [parent]; [in] on a
    list of objects without [__eq__] compares identities. *)
Definition ConflictFile_set_parent (self parent : ref) : M unit :=
  me ← deref self;
  _ ← lift (assert (bool_decide (cf_parent me = None)));
  _ ← store self
        (mkConflictFile (cf_path me) (cf_base me) (cf_name me) (cf_conflicts me)
           (cf_selected me) (cf_ext me) (cf_original me) (cf_root me)
           (Some parent) (cf_children me));
  p ← deref parent;
  _ ← lift (assert (negb (bool_decide (self ∈ cf_children p))));
  store parent
    (mkConflictFile (cf_path p) (cf_base p) (cf_name p) (cf_conflicts p)
       (cf_selected p) (cf_ext p) (cf_original p) (cf_root p)
       (cf_parent p) (cf_children p ++ [self])%list).

(** ** class Heuristic *)

Definition Heuristic_NONE : Z := 0.
Definition Heuristic_OLD : Z := 1.
Definition Heuristic_SAME : Z := 2.
Definition Heuristic_NESTED : Z := 3.
Definition Heuristic_ORPHANED : Z := 4.
Definition Heuristic_OBSOLETE : Z := 5.
Definition Heuristic_YOUNG : Z := 6.

Definition Heuristic_is_old (conflict_file : ConflictFile) (_args : Args) : M bool :=
  let days_threshold := 30 in
  age ← ConflictFile_age_in_seconds conflict_file;
  mret (days_threshold * 60 * 60 * 24 <? age).

Definition Heuristic_is_young (conflict_file : ConflictFile) (_args : Args) : M bool :=
  let days_threshold := 5 in
  age ← ConflictFile_age_in_seconds conflict_file;
  mret (age <? days_threshold * 60 * 60 * 24).

(** The [return False] behind the [with] blocks is not reachable: the
    blocks end in a [return]. *)
Definition Heuristic_is_same (conflict_file : ConflictFile) (_args : Args) : M bool :=
  selected ← ConflictFile_canonical_selected conflict_file;
  original ← ConflictFile_canonical_original conflict_file;
  fselected ← open_r selected;
  foriginal ← open_r original;
  let selected_digest := sha256_new in
  let original_digest := sha256_new in
  selected_digest ← (lines ← read_lines fselected;
                     lift (update_lines selected_digest lines));
  original_digest ← (lines ← read_lines foriginal;
                     lift (update_lines original_digest lines));
  mret (sha256_digest_eqb selected_digest original_digest).

Definition Heuristic_is_nested (conflict_file : ConflictFile) (_args : Args) : M bool :=
  mret (negb (bool_decide (cf_parent conflict_file = None))).

Definition Heuristic_is_orphan (conflict_file : ConflictFile) (_args : Args) : M bool :=
  p ← ConflictFile_canonical_original conflict_file;
  b ← os_path_isfile p;
  mret (negb b).

Definition Heuristic_is_obsolete (conflict_file : ConflictFile) (_args : Args) : M bool :=
  p ← ConflictFile_canonical_selected conflict_file;
  b ← os_path_isfile p;
  mret (negb b).

(** The [mapping] of [Heuristic.check], in the order of its literal. *)
Definition Heuristic_check_mapping : list (Z * (ConflictFile → Args → M bool)) :=
  [ (Heuristic_OLD, Heuristic_is_old);
    (Heuristic_OBSOLETE, Heuristic_is_obsolete);
    (Heuristic_SAME, Heuristic_is_same);
    (Heuristic_ORPHANED, Heuristic_is_orphan);
    (Heuristic_NESTED, Heuristic_is_nested);
    (Heuristic_YOUNG, Heuristic_is_young) ].

(** [for i, heuristic in mapping.items(): ...] followed by [return NONE]. *)
Fixpoint Heuristic_check_loop (items : list (Z * (ConflictFile → Args → M bool)))
    (conflict_file : ConflictFile) (args : Args) : M Z :=
  match items with
  | [] => mret Heuristic_NONE
  | (i, heuristic) :: rest =>
      b ← heuristic conflict_file args;
      if b : bool then mret i else Heuristic_check_loop rest conflict_file args
  end.

Definition Heuristic_check (conflict_file : ConflictFile) (args : Args) : M Z :=
  Heuristic_check_loop Heuristic_check_mapping conflict_file args.

(** ** class Action *)

Definition Action_DELETE : Z := 0.
Definition Action_BACKUP : Z := 1.
Definition Action_PROMPT : Z := 2.

(** Dictionaries with [int] keys, in insertion order. *)
Fixpoint zdict_get {V} (d : list (Z * V)) (k : Z) : result V :=
  match d with
  | [] => Raise KeyError
  | (k', v) :: d' => if k =? k' then Ok v else zdict_get d' k
  end.

Definition Action_mapping_dict : list (Z * Z) :=
  [ (Heuristic_OLD, Action_DELETE);
    (Heuristic_SAME, Action_DELETE);
    (Heuristic_NESTED, Action_DELETE);
    (Heuristic_OBSOLETE, Action_DELETE);
    (Heuristic_ORPHANED, Action_DELETE);
    (Heuristic_YOUNG, Action_PROMPT);
    (Heuristic_NONE, Action_BACKUP) ].

(** [Action.mapping(heuristic)]: [mapping[heuristic]]. *)
Definition Action_mapping (heuristic : Z) : result Z :=
  zdict_get Action_mapping_dict heuristic.

Definition Action_delete (conflict_file : ConflictFile) (args : Args) : M unit :=
  ConflictFile_delete conflict_file args.

Definition Action_backup (conflict_file : ConflictFile) (args : Args) : M unit :=
  ConflictFile_backup conflict_file args.

(** ** class Cli *)

(** Dictionaries with [str] keys, in insertion order: assigning to a key
    that is present replaces its value in place. *)
Fixpoint dict_set {V} (d : list (string * V)) (k : string) (v : V) : list (string * V) :=
  match d with
  | [] => [(k, v)]
  | (k', v') :: d' =>
      if Str.eqb k k' then (k', v) :: d' else (k', v') :: dict_set d' k v
  end.

Fixpoint dict_get {V} (d : list (string * V)) (k : string) : result V :=
  match d with
  | [] => Raise KeyError
  | (k', v) :: d' => if Str.eqb k k' then Ok v else dict_get d' k
  end.

(** The loops of [Cli.scan_for_conflicts] over the files that [os.walk]
    lists: one entry per file, as (path, base, name). *)
Fixpoint Cli_scan_files (files : list (string * string * string)) : M (list ref) :=
  match files with
  | [] => mret []
  | (path, base, name) :: rest =>
      o ← lift (scan_file path base name);
      match o with
      | None => Cli_scan_files rest
      | Some cf => r ← alloc cf; scan ← Cli_scan_files rest; mret (r :: scan)
      end
  end.

Fixpoint Cli_conflict_map_loop (scan : list ref) (conflict_map : list (string * ref))
  : M (list (string * ref)) :=
  match scan with
  | [] => mret conflict_map
  | r :: rest =>
      conflict_file ← deref r;
      k ← ConflictFile_canonical_name conflict_file;
      Cli_conflict_map_loop rest (dict_set conflict_map k r)
  end.

Definition Cli_conflict_map (scan : list ref) : M (list (string * ref)) :=
  Cli_conflict_map_loop scan [].

Fixpoint Cli_conflict_tree_loop (conflict_map items : list (string * ref))
    (conflict_tree : list ref) : M (list ref) :=
  match items with
  | [] => mret conflict_tree
  | (_, r) :: rest =>
      conflict_file ← deref r;
      if cf_root conflict_file then
        _ ← lift (assert (negb (bool_decide (r ∈ conflict_tree))));
        Cli_conflict_tree_loop conflict_map rest (conflict_tree ++ [r])%list
      else
        k ← ConflictFile_canonical_original conflict_file;
        original ← lift (dict_get conflict_map k);
        _ ← ConflictFile_set_parent r original;
        Cli_conflict_tree_loop conflict_map rest conflict_tree
  end.

Definition Cli_conflict_tree (conflict_map : list (string * ref)) : M (list ref) :=
  Cli_conflict_tree_loop conflict_map conflict_map [].

(** [actions[action].append(conflict_file)]; an index outside the three
    lists raises [IndexError]. *)
Definition actions_append (actions : list (list ref)) (action : Z) (r : ref)
  : result (list (list ref)) :=
  if (0 <=? action) && (action <? Z.of_nat (length actions)) then
    Ok (alter (λ l, l ++ [r])%list (Z.to_nat action) actions)
  else Raise IndexError.

Fixpoint Cli_actions_loop (args : Args) (items : list (string * ref))
    (actions : list (list ref)) : M (list (list ref)) :=
  match items with
  | [] => mret actions
  | (_, r) :: rest =>
      conflict_file ← deref r;
      h ← Heuristic_check conflict_file args;
      action ← lift (Action_mapping h);
      actions ← lift (actions_append actions action r);
      Cli_actions_loop args rest actions
  end.

Definition Cli_actions (args : Args) (conflict_map : list (string * ref))
  : M (list (list ref)) :=
  Cli_actions_loop args conflict_map [[]; []; []].

(** * Vocabulary of the statements, and scenarios *)

(** ** The monad *)

Ltac msimpl :=
  repeat (unfold mbind, mret, M_bind, M_ret, result_bind, result_ret,
            lift, raise, gets, modify in *; cbn beta iota in *).

(** ** Action.mapping *)

Definition classifications : list Z :=
  [ Heuristic_OLD; Heuristic_SAME; Heuristic_NESTED; Heuristic_ORPHANED;
    Heuristic_OBSOLETE; Heuristic_YOUNG; Heuristic_NONE ].

(** ** Dry run *)

(** What an action may change when nothing is committed: the lines printed,
    and nothing else. *)
Definition only_printed (line : string) (w w' : World) : Prop :=
  fs w' = fs w ∧ realpath w' = realpath w ∧ heap w' = heap w
  ∧ NOW w' = NOW w ∧ ticks w' = ticks w ∧ clock w' = clock w
  ∧ stdout w' = (stdout w ++ [line])%list
  ∧ undecodable w' = undecodable w.

(** ** Paths of a record and the predicates that only read *)

Definition path_selected (w : World) (self : ConflictFile) : string :=
  os_path.join (realpath w (cf_base self))
    (ConflictFile_format self (Some (cf_selected self)) (Some []) None).

Definition path_original (w : World) (self : ConflictFile) : string :=
  os_path.join (realpath w (cf_base self))
    (ConflictFile_format self (Some (cf_original self)) (Some []) None).

Definition is_file (w : World) (p : string) : bool :=
  match fs w !! p with Some (File _) => true | _ => false end.

(** ** SAME: what [Heuristic.is_same] computes *)

(** What reading a file with a byte in it ends in: the decoder fails, or
    the first line reaches [update]. *)
Definition text_error (w : World) (content : list Byte.byte) : exn :=
  if decodes w content then TypeError else UnicodeDecodeError.

(** [is_same] in closed form: it opens the live file and then the derived
    ancestor, and answers [True] when both are empty; a byte in either
    makes it raise, the live file being read first. *)
Definition is_same_result (w : World) (self : ConflictFile) : result bool :=
  match fs w !! path_selected w self with
  | None => Raise FileNotFoundError
  | Some Dir => Raise IsADirectoryError
  | Some (File s) =>
      match fs w !! path_original w self with
      | None => Raise FileNotFoundError
      | Some Dir => Raise IsADirectoryError
      | Some (File o) =>
          match s, o with
          | [], [] => Ok true
          | [], _ :: _ => Raise (text_error w o)
          | _ :: _, _ => Raise (text_error w s)
          end
      end
  end.

(** ** The chain of [Heuristic.check] *)

(** [check] in closed form.  The predicates behind SAME are never
    consulted: [is_same] answers [True] or raises. *)
Definition check_result (w : World) (self : ConflictFile) (age : result Z) : result Z :=
  age ← age;
  if 30 * 60 * 60 * 24 <? age then Ok Heuristic_OLD
  else if negb (is_file w (path_selected w self)) then Ok Heuristic_OBSOLETE
  else _ ← is_same_result w self; Ok Heuristic_SAME.

(** ** Scenarios *)

Definition bytes_of (s : string) : list Byte.byte := list_byte_of_string s.

(** A world with the given files, no symbolic links, a clock that stands
    at [now], and a codec that decodes ASCII and nothing else. *)
Definition world_at (files : list (string * node)) (now : datetime.t) : World :=
  mkWorld (list_to_map files) (λ p, p) (λ _, now) 0 None [] [] (λ _, true).

Definition dry_args : Args := mkArgs ".stbackups" ".stversions" false ["/data"].

Definition stamp (y m d H M S : Z) : Timestamp :=
  mkTimestamp (mkDate y m d) (mkTime H M S) (datetime.mk y m d H M S).

Definition marker_1 : Conflict :=
  mkConflict (mkDate 2023 1 1) (mkTime 12 0 0) "ABC1234" (stamp 2023 1 1 12 0 0).
Definition marker_2 : Conflict :=
  mkConflict (mkDate 2023 1 5) (mkTime 9 0 0) "XYZ9876" (stamp 2023 1 5 9 0 0).

Definition name_1 : string := "report.sync-conflict-20230101-120000-ABC1234.txt".
Definition name_2 : string :=
  "report.sync-conflict-20230101-120000-ABC1234.sync-conflict-20230105-090000-XYZ9876.txt".

(** The records that the scan builds for [name_1] and [name_2]. *)
Definition record_1 : ConflictFile :=
  mkConflictFile "/data" "/data" name_1 [marker_1]
    "report" ".txt" "report" true None [].
Definition record_2 : ConflictFile :=
  mkConflictFile "/data" "/data" name_2 [marker_1; marker_2]
    "report" ".txt" "report.sync-conflict-20230101-120000-ABC1234" false None [].

(** Single marker, ten days old, the live file and the conflict file both
    on disk with different content. *)
Definition world_D : World :=
  world_at [ ("/data/report.txt", File (bytes_of "live"));
             ("/data/" +:+ name_1, File (bytes_of "conflict")) ]
           (datetime.mk 2023 1 11 12 0 0).

(** The conflict [name_1] and the conflict [name_2] of that conflict, both
    on disk beside the live file, all three with different content;
    [name_2] is two days old. *)
Definition world_B : World :=
  world_at [ ("/data/report.txt", File (bytes_of "live"));
             ("/data/" +:+ name_1, File (bytes_of "older"));
             ("/data/" +:+ name_2, File (bytes_of "newest")) ]
           (datetime.mk 2023 1 7 9 0 0).

(** The first three statements of [Cli.run], up to the forest, over the
    files that the walk lists. *)
Definition Cli_run_forest (files : list (string * string * string))
  : M (list (string * ref)) :=
  scan ← Cli_scan_files files;
  conflict_map ← Cli_conflict_map scan;
  _ ← Cli_conflict_tree conflict_map;
  mret conflict_map.

(** [record_2] once [conflict_tree] has linked it to the object of
    [name_1], which the scan allocated first. *)
Definition record_2_linked : ConflictFile :=
  mkConflictFile "/data" "/data" name_2 [marker_1; marker_2]
    "report" ".txt" "report.sync-conflict-20230101-120000-ABC1234" false
    (Some 0%nat) [].

(** Single marker, two days old, the live file gone. *)
Definition world_C : World :=
  world_at [ ("/data/" +:+ name_1, File (bytes_of "conflict")) ]
           (datetime.mk 2023 1 3 12 0 0).

(** Two markers, two days old; the live file and the derived ancestor hold
    the same five bytes. *)
Definition world_S : World :=
  world_at [ ("/data/report.txt", File (bytes_of "same" ++ [Byte.x0a])%list);
             ("/data/" +:+ name_1, File (bytes_of "same" ++ [Byte.x0a])%list);
             ("/data/" +:+ name_2, File (bytes_of "other")) ]
           (datetime.mk 2023 1 7 9 0 0).

(** ** The path index *)


(** Two objects with different canonical paths. *)
Definition world_12 : World := set_heap [record_1; record_2] world_D.

(** ** The ancestry forest *)

(** [set_parent] assigns [parent] and [children] and nothing else. *)
Definition unlinked (cf : ConflictFile) : ConflictFile :=
  mkConflictFile (cf_path cf) (cf_base cf) (cf_name cf) (cf_conflicts cf)
    (cf_selected cf) (cf_ext cf) (cf_original cf) (cf_root cf) None [].

(** A scan that finds the conflict of a conflict, [name_2], and not the
    conflict it descends from. *)
Definition world_N : World :=
  world_at [ ("/data/report.txt", File (bytes_of "live"));
             ("/data/" +:+ name_2, File (bytes_of "conflict")) ]
           (datetime.mk 2023 1 7 9 0 0).

(** ** Markers and their text *)

Fixpoint all_chars (p : ascii → bool) (s : string) : bool :=
  match s with
  | "" => true
  | String c s' => p c && all_chars p s'
  end.

(** The text that [Conflict.REGEX] matched, from its groups. *)
Definition groups_text (g : groups) : string :=
  ".sync-conflict-" +:+ (g_dy g +:+ g_dm g +:+ g_dd g) +:+ "-"
    +:+ (g_th g +:+ g_tm g +:+ g_ts g) +:+ "-" +:+ g_uid g.

Definition groups_wf (g : groups) : Prop :=
  (String.length (g_dy g) = 4 ∧ all_chars is_digit (g_dy g) = true)%nat
  ∧ (String.length (g_dm g) = 2 ∧ all_chars is_digit (g_dm g) = true)%nat
  ∧ (String.length (g_dd g) = 2 ∧ all_chars is_digit (g_dd g) = true)%nat
  ∧ (String.length (g_th g) = 2 ∧ all_chars is_digit (g_th g) = true)%nat
  ∧ (String.length (g_tm g) = 2 ∧ all_chars is_digit (g_tm g) = true)%nat
  ∧ (String.length (g_ts g) = 2 ∧ all_chars is_digit (g_ts g) = true)%nat
  ∧ (String.length (g_uid g) = 7 ∧ all_chars is_uid_char (g_uid g) = true)%nat.

(** *** The scan splits a name into literal characters and matches *)

Definition token_text (t : token) : string :=
  match t with
  | Lit c => String c ""
  | Match g => groups_text g
  end.

Definition token_wf (t : token) : Prop :=
  match t with
  | Lit _ => True
  | Match g => groups_wf g
  end.

(** ** Round trip *)

Fixpoint lits (s : string) : list token :=
  match s with
  | "" => []
  | String c s' => Lit c :: lits s'
  end.

(** The conflict of a file whose name begins with a dot, as the
    synchronizer names it: the marker, then the name. *)
Definition name_dot : string := ".sync-conflict-20230101-120000-ABC1234.bashrc".

(** A name whose marker carries the 31st of February. *)
Definition name_feb31 : string := "report.sync-conflict-20230231-120000-ABC1234.txt".

(** ** A later state *)

(** A later moment of the run of [world_D]: the clock has been read seven
    times and shows another year; [NOW] holds the first reading. *)
Definition world_later : World :=
  mkWorld (fs world_D) (realpath world_D) (λ _, datetime.mk 2024 6 1 0 0 0) 7
    (Some (stamp 2023 1 11 12 0 0)) [record_1] ["delete: x"] (undecodable world_D).

(** * The rest of the program *)

(** ** [Cli.scan_for_conflicts], [Cli.report], [Action.run], [Cli.run] *)

(** The files of one [os.walk(path)], as (path, base, name): [dirs] is what
    the walk yields, the backup directory pruned, as pairs of a directory
    and its files. *)
Definition walk_files (path : string) (dirs : list (string * list string))
  : list (string * string * string) :=
  dirs ≫= (λ '(base, names), (λ name, (path, base, name)) <$> names).

(** [Cli.scan_for_conflicts]: every path is to hold the marker directory
    [.stfolder]; [walk] gives the walk of each path. *)
Fixpoint Cli_scan_for_conflicts_loop (walk : string → list (string * list string))
    (paths : list string) : M (list ref) :=
  match paths with
  | [] => mret []
  | path :: rest =>
      d ← os_path_isdir (os_path.join path ".stfolder");
      _ ← lift (assert d);
      scan ← Cli_scan_files (walk_files path (walk path));
      scan' ← Cli_scan_for_conflicts_loop walk rest;
      mret (scan ++ scan')%list
  end.

Definition Cli_scan_for_conflicts (args : Args)
    (walk : string → list (string * list string)) : M (list ref) :=
  Cli_scan_for_conflicts_loop walk (PATH args).

Definition Action_NAMES : list (Z * string) :=
  [ (Action_DELETE, "DELETE"); (Action_BACKUP, "BACKUP"); (Action_PROMPT, "PROMPT") ].

(** [actions[action]] *)
Definition actions_get (actions : list (list ref)) (action : Z) : result (list ref) :=
  if (0 <=? action) && (action <? Z.of_nat (length actions)) then
    of_option IndexError (actions !! Z.to_nat action)
  else Raise IndexError.

(** [for f in files: print(f)] *)
Fixpoint print_files (files : list ref) : M unit :=
  match files with
  | [] => mret tt
  | f :: rest =>
      cf ← deref f;
      _ ← print (ConflictFile_repr cf);
      print_files rest
  end.

(** The loop of [Cli.report] over [enumerate(ORDER)]. *)
Fixpoint Cli_report_loop (index : nat) (order : list Z) (actions : list (list ref))
  : M unit :=
  match order with
  | [] => mret tt
  | action :: rest =>
      _ ← (if (0 <? index)%nat then print "" else mret tt);
      name ← lift (zdict_get Action_NAMES action);
      files ← lift (actions_get actions action);
      _ ← print ("[" +:+ name +:+ "] " +:+ Str.of_int (Z.of_nat (length files))
                 +:+ " files total");
      _ ← print_files files;
      Cli_report_loop (S index) rest actions
  end.

Definition Cli_report (actions : list (list ref)) : M unit :=
  Cli_report_loop 0 [Action_DELETE; Action_BACKUP; Action_PROMPT] actions.

Section Run.

(** [ConflictFile.prompt] talks to the terminal and to [diff]; the run is
    stated for whatever it does. *)
Variable prompt : ConflictFile → Args → M unit.

Definition Action_prompt (conflict_file : ConflictFile) (args : Args) : M unit :=
  prompt conflict_file args.

Definition ACTION_MAP : list (Z * (ConflictFile → Args → M unit)) :=
  [ (Action_DELETE, Action_delete);
    (Action_BACKUP, Action_backup);
    (Action_PROMPT, Action_prompt) ].

Definition Action_run (conflict_file : ConflictFile) (action : Z) (args : Args)
  : M unit :=
  call ← lift (zdict_get ACTION_MAP action);
  call conflict_file args.

(** [for f in actions[Action.PROMPT]: f.prompt(self.args)] *)
Fixpoint prompt_files (files : list ref) (args : Args) : M unit :=
  match files with
  | [] => mret tt
  | f :: rest =>
      cf ← deref f;
      _ ← prompt cf args;
      prompt_files rest args
  end.

Definition Cli_run (args : Args) (walk : string → list (string * list string))
  : M unit :=
  scan ← Cli_scan_for_conflicts args walk;
  conflict_map ← Cli_conflict_map scan;
  _conflict_tree ← Cli_conflict_tree conflict_map;
  actions ← Cli_actions args conflict_map;
  _ ← Cli_report actions;
  files ← lift (actions_get actions Action_PROMPT);
  prompt_files files args.

End Run.

(** ** Vocabulary and scenarios for the rest *)

Definition commit_args : Args := mkArgs ".stbackups" ".stversions" true ["/data"].

(** The object [cf] with its two mutable attributes replaced. *)
Definition with_links (parent : option ref) (children : list ref) (cf : ConflictFile)
  : ConflictFile :=
  mkConflictFile (cf_path cf) (cf_base cf) (cf_name cf) (cf_conflicts cf)
    (cf_selected cf) (cf_ext cf) (cf_original cf) (cf_root cf) parent children.

(** A year and a half after [marker_1]: [record_1] is old. *)
Definition world_O : World :=
  set_heap [record_1]
    (world_at [ ("/data/.stfolder", Dir);
                ("/data/report.txt", File (bytes_of "live"));
                ("/data/" +:+ name_1, File (bytes_of "conflict")) ]
              (datetime.mk 2024 6 1 0 0 0)).

Definition walk_O (path : string) : list (string * list string) :=
  [ (path, ["report.txt"; name_1]) ].

(** ** What the forest is to look like *)

(** The parent that [Cli.conflict_tree] gives a record: none for a root,
    else the object that the index holds under the record's canonical
    original path. *)
Definition parent_in (w : World) (m : list (string * ref)) (cf : ConflictFile)
  : option ref :=
  if cf_root cf then None
  else match dict_get m (path_original w cf) with
       | Ok o => Some o
       | Raise _ => None
       end.

Definition parent_of_ref (w : World) (m : list (string * ref)) (r : ref) : option ref :=
  cf ← heap w !! r; parent_in w m cf.

Definition is_root_ref (w : World) (r : ref) : bool :=
  match heap w !! r with Some cf => cf_root cf | None => false end.

(** The object [cf] behind [x] once the records [done] have been visited:
    its parent is set if it is one of them, and its children are those of
    them whose parent it is, in the order of the visit. *)
Definition linked (w : World) (m : list (string * ref)) (done : list ref)
    (x : ref) (cf : ConflictFile) : ConflictFile :=
  with_links (if bool_decide (x ∈ done) then parent_in w m cf else None)
             (filter (λ r, parent_of_ref w m r = Some x) done) cf.

(** An index over fresh objects: no reference twice, every reference
    valid, no object linked yet. *)
Definition index_fresh (w : World) (m : list (string * ref)) : Prop :=
  NoDup m.*2
  ∧ (∀ x cf, heap w !! x = Some cf → cf_parent cf = None ∧ cf_children cf = [])
  ∧ (∀ r, r ∈ m.*2 → is_Some (heap w !! r)).

(** Is the record behind [r] a root, or is its canonical original path a
    key of the index? *)
Definition finds_original (w : World) (m : list (string * ref)) (r : ref) : bool :=
  match heap w !! r with
  | Some cf => cf_root cf || is_Ok (dict_get m (path_original w cf))
  | None => false
  end.

(** The records in front of the first that does not find its original. *)
Fixpoint linkable_prefix (w : World) (m : list (string * ref)) (l : list ref)
  : list ref :=
  match l with
  | [] => []
  | r :: l' => if finds_original w m r then r :: linkable_prefix w m l' else []
  end.

(** The scan of [name_1] and [name_2], indexed. *)
Definition index_12 : list (string * ref) :=
  [ ("/data/" +:+ name_1, 0%nat); ("/data/" +:+ name_2, 1%nat) ].

(** ** Committed actions *)

(** The canonical path of a record: the file it stands for. *)
Definition path_name (w : World) (self : ConflictFile) : string :=
  os_path.join (realpath w (cf_base self)) (cf_name self).

(** The file system with the directory [d] made, unless it is one. *)
Definition with_dir (d : string) (f : gmap string node) : gmap string node :=
  match f !! d with Some Dir => f | _ => <[d := Dir]> f end.

(** Everything of the state but the file system. *)
Definition same_but_fs (w w' : World) : Prop :=
  realpath w' = realpath w ∧ heap w' = heap w ∧ NOW w' = NOW w
  ∧ ticks w' = ticks w ∧ clock w' = clock w ∧ stdout w' = stdout w
  ∧ undecodable w' = undecodable w.

(** Two conflicts with one name, in two directories of one folder. *)
Definition record_a : ConflictFile :=
  mkConflictFile "/data" "/data/a" name_1 [marker_1] "report" ".txt" "report" true None [].
Definition record_b : ConflictFile :=
  mkConflictFile "/data" "/data/b" name_1 [marker_1] "report" ".txt" "report" true None [].

Definition world_ab : World :=
  world_at [ ("/data/.stfolder", Dir);
             ("/data/a/" +:+ name_1, File (bytes_of "from a"));
             ("/data/b/" +:+ name_1, File (bytes_of "from b")) ]
           (datetime.mk 2023 1 7 9 0 0).

(** ** Computations that leave a part of the state alone *)

Definition keeps {A B} (proj : World → B) (m : M A) : Prop :=
  ∀ w, proj (m w).2 = proj w.

Definition is_dir (w : World) (p : string) : bool :=
  match fs w !! p with Some Dir => true | _ => false end.

(** ** Vocabulary of the scan and of the run *)

(** Does the pattern match somewhere in the name? *)
Definition has_marker (name : string) : bool :=
  match Conflict_REGEX_finditer name with [] => false | _ :: _ => true end.

(** The arguments a record was constructed from. *)
Definition origin (cf : ConflictFile) : string * string * string :=
  (cf_path cf, cf_base cf, cf_name cf).

(** [Cli.run] up to and including the report. *)
Definition Cli_run_report (args : Args) (walk : string → list (string * list string))
  : M (list (list ref)) :=
  scan ← Cli_scan_for_conflicts args walk;
  conflict_map ← Cli_conflict_map scan;
  _conflict_tree ← Cli_conflict_tree conflict_map;
  actions ← Cli_actions args conflict_map;
  _ ← Cli_report actions;
  mret actions.

(** The files of all walks, in the order of the scan. *)
Definition all_files (walk : string → list (string * list string)) (paths : list string)
  : list (string * string * string) :=
  paths ≫= (λ path, walk_files path (walk path)).

(** The record is what the scan builds from the arguments it was
    constructed from. *)
Definition scanned (cf : ConflictFile) : Prop :=
  scan_file (cf_path cf) (cf_base cf) (cf_name cf) = Ok (Some cf).

(** ** The number a string of digits stands for *)

Definition digit_of (c : ascii) : Z := Z.of_nat (nat_of_ascii c) - 48.

Fixpoint digits_value (acc : Z) (s : string) : Z :=
  match s with
  | "" => acc
  | String c s' => digits_value (10 * acc + digit_of c) s'
  end.

(** The fields of a timestamp read as one decimal number,
    [yyyymmddHHMMSS]. *)
Definition stamp_number (t : Timestamp) : Z :=
  ((((date_yy (ts_date t) * 100 + date_mm (ts_date t)) * 100 + date_dd (ts_date t)) * 100
    + time_hh (ts_time t)) * 100 + time_mm (ts_time t)) * 100 + time_ss (ts_time t).

(** ** The report *)

(** The line that [print(f)] writes for the object behind [r]. *)
Definition text_of (w : World) (r : ref) (line : string) : Prop :=
  ∃ cf, heap w !! r = Some cf ∧ line = ConflictFile_repr cf.

(** The line that opens a block of the report. *)
Definition report_header (name : string) (files : list ref) : string :=
  "[" +:+ name +:+ "] " +:+ Str.of_int (Z.of_nat (length files)) +:+ " files total".

(** * Properties *)

(** ** The Python runtime *)

Example splitext_txt : os_path.splitext "report.txt" = ("report", ".txt").
Proof. reflexivity. Qed.
Example splitext_dotfile : os_path.splitext ".bashrc" = (".bashrc", "").
Proof. reflexivity. Qed.
Example splitext_two : os_path.splitext "a/b.c/archive.tar.gz" = ("a/b.c/archive.tar", ".gz").
Proof. reflexivity. Qed.
Example splitext_none : os_path.splitext "a.b/Makefile" = ("a.b/Makefile", "").
Proof. reflexivity. Qed.
Example toordinal_2023 : datetime.toordinal (datetime.mk 2023 1 1 0 0 0) = 738521.
Proof. reflexivity. Qed.
Example february_2024 : datetime.days_in_month 2024 2 = 29.
Proof. reflexivity. Qed.
Example february_1900 : datetime.days_in_month 1900 2 = 28.
Proof. reflexivity. Qed.
Example join_plain : os_path.join "/data/docs" "a.txt" = "/data/docs/a.txt".
Proof. reflexivity. Qed.
Example zfill_2 : Str.zfill 2 7 = "07".
Proof. reflexivity. Qed.
Example to_int_0101 : Str.to_int "0101" = Ok 101.
Proof. reflexivity. Qed.

(** ** The monad *)

Lemma bind_Ok {A B} (m : M A) (f : A → M B) (w w' : World) (a : A) :
  m w = (Ok a, w') → (m ≫= f) w = f a w'.
Proof. intros H. unfold mbind, M_bind. now rewrite H. Qed.

Lemma bind_Raise {A B} (m : M A) (f : A → M B) (w w' : World) (e : exn) :
  m w = (Raise e, w') → (m ≫= f) w = (Raise e, w').
Proof. intros H. unfold mbind, M_bind. now rewrite H. Qed.

(** ** Action.mapping *)

Lemma classifications_NoDup : NoDup classifications.
Proof. compute_done. Qed.

Lemma Action_mapping_Ok_inv (h a : Z) :
  Action_mapping h = Ok a →
  (h, a) ∈ Action_mapping_dict.
Proof.
  unfold Action_mapping. generalize Action_mapping_dict as d.
  induction d as [|[k v] d IH]; cbn [zdict_get]; [discriminate|].
  destruct (Z.eqb_spec h k) as [->|Hne].
  - intros [= ->]. apply list_elem_of_here.
  - intros H. apply list_elem_of_further, IH, H.
Qed.

Lemma Action_mapping_dict_inv (h a : Z) :
  (h, a) ∈ Action_mapping_dict →
  (h ∈ classifications ∧ h ≠ Heuristic_YOUNG ∧ h ≠ Heuristic_NONE ∧ a = Action_DELETE)
  ∨ (h = Heuristic_YOUNG ∧ a = Action_PROMPT)
  ∨ (h = Heuristic_NONE ∧ a = Action_BACKUP).
Proof.
  unfold Action_mapping_dict, classifications.
  rewrite !elem_of_cons, elem_of_nil.
  intros [E|[E|[E|[E|[E|[E|[E|[]]]]]]]]; inversion E; subst; clear E;
    try (right; left; split; reflexivity);
    try (right; right; split; reflexivity);
    left; (split; [tauto|]); repeat split; discriminate.
Qed.

(** C6: the mapping from classification to action is defined on each of
    the seven classification values, and on no other key; OLD, SAME_CONTENT,
    NESTED, ORPHANED and OBSOLETE_BASE map to DELETE, YOUNG maps to PROMPT
    and NONE to BACKUP; YOUNG is the only key mapped to PROMPT, and NONE the
    only key mapped to BACKUP. *)
Theorem Action_mapping_total :
  (∀ h, h ∈ classifications ↔ is_Ok (Action_mapping h) = true)
  ∧ Action_mapping Heuristic_OLD = Ok Action_DELETE
  ∧ Action_mapping Heuristic_SAME = Ok Action_DELETE
  ∧ Action_mapping Heuristic_NESTED = Ok Action_DELETE
  ∧ Action_mapping Heuristic_ORPHANED = Ok Action_DELETE
  ∧ Action_mapping Heuristic_OBSOLETE = Ok Action_DELETE
  ∧ Action_mapping Heuristic_YOUNG = Ok Action_PROMPT
  ∧ Action_mapping Heuristic_NONE = Ok Action_BACKUP
  ∧ (∀ h, Action_mapping h = Ok Action_PROMPT ↔ h = Heuristic_YOUNG)
  ∧ (∀ h, Action_mapping h = Ok Action_BACKUP ↔ h = Heuristic_NONE).
Proof.
  assert (Hinv : ∀ h a, Action_mapping h = Ok a →
            (h ∈ classifications ∧ h ≠ Heuristic_YOUNG ∧ h ≠ Heuristic_NONE
             ∧ a = Action_DELETE)
            ∨ (h = Heuristic_YOUNG ∧ a = Action_PROMPT)
            ∨ (h = Heuristic_NONE ∧ a = Action_BACKUP))
    by (intros h a E; apply Action_mapping_dict_inv, Action_mapping_Ok_inv, E).
  split; [|repeat split; try reflexivity].
  - intros h. split.
    + unfold classifications. rewrite !elem_of_cons, elem_of_nil.
      intros [->|[->|[->|[->|[->|[->|[->|[]]]]]]]]; reflexivity.
    + destruct (Action_mapping h) as [a|e] eqn:E; [intros _|discriminate].
      apply Hinv in E. unfold classifications in *.
      destruct E as [[H _]|[[-> _]|[-> _]]]; [exact H| |];
        rewrite !elem_of_cons; tauto.
  - intros E. apply Hinv in E.
    destruct E as [(_ & _ & _ & E)|[[-> _]|[_ E]]];
      [discriminate|reflexivity|discriminate].
  - intros ->. reflexivity.
  - intros E. apply Hinv in E.
    destruct E as [(_ & _ & _ & E)|[[_ E]|[-> _]]];
      [discriminate|discriminate|reflexivity].
  - intros ->. reflexivity.
Qed.

(** ** Dry run *)

Lemma print_only_printed (line : string) (w : World) :
  ∃ w', print line w = (Ok tt, w') ∧ only_printed line w w'.
Proof.
  eexists. split; [reflexivity|]. unfold only_printed. cbn. tauto.
Qed.

(** C9: without [--commit], the DELETE and the BACKUP action return
    normally, print one line naming the file, and leave the file system
    (no file removed or moved, no directory created) and every
    [ConflictFile] object as they were. *)
Theorem dry_run_no_mutation (conflict_file : ConflictFile) (args : Args) (w : World) :
  commit args = false →
  (∃ w', Action_delete conflict_file args w = (Ok tt, w')
         ∧ only_printed ("delete: " +:+ cf_name conflict_file) w w')
  ∧ (∃ w', Action_backup conflict_file args w = (Ok tt, w')
           ∧ only_printed ("backup: " +:+ cf_name conflict_file) w w').
Proof.
  intros Hc. unfold Action_delete, Action_backup, ConflictFile_delete,
    ConflictFile_backup. rewrite Hc. split; apply print_only_printed.
Qed.

(** ** The memoized clock *)

Lemma Timestamp_now_memo (t : Timestamp) (w : World) :
  NOW w = Some t → Timestamp_now w = (Ok t, w).
Proof. intros H. unfold Timestamp_now. msimpl. now rewrite H. Qed.

Lemma Timestamp_now_sets (t : Timestamp) (w w' : World) :
  Timestamp_now w = (Ok t, w') → NOW w' = Some t.
Proof.
  unfold Timestamp_now. msimpl. destruct (NOW w) as [t0|] eqn:E.
  - intros [= <- <-]. exact E.
  - unfold datetime_now. destruct (Timestamp_from_dt _) as [t1|e]; [|discriminate].
    intros [= <- <-]. reflexivity.
Qed.

(** The first call reads the clock once, and returns, the reading being a
    date and a time. *)
Lemma Timestamp_now_first (w : World) :
  NOW w = None →
  (let dt := clock w (ticks w) in
   datetime.valid (datetime.year dt) (datetime.month dt) (datetime.day dt)
     (datetime.hour dt) (datetime.minute dt) (datetime.second dt) = true) →
  ∃ t, Timestamp_now w = (Ok t, set_NOW (Some t) (set_ticks (S (ticks w)) w))
       ∧ ts_dt t = clock w (ticks w).
Proof.
  intros Hnone Hvalid. cbv zeta in Hvalid. unfold Timestamp_now. msimpl.
  rewrite Hnone. unfold datetime_now, Timestamp_from_dt, Timestamp_init,
    datetime.new. cbn [date_yy date_mm date_dd time_hh time_mm time_ss Date_init
    Time_init]. rewrite Hvalid. eexists. split; [reflexivity|].
  cbn. destruct (clock w (ticks w)). reflexivity.
Qed.

(** [Timestamp.now] touches the clock and [NOW] only. *)
Lemma Timestamp_now_frame (w w' : World) (t : result Timestamp) :
  Timestamp_now w = (t, w') →
  fs w' = fs w ∧ realpath w' = realpath w ∧ heap w' = heap w ∧ stdout w' = stdout w
  ∧ undecodable w' = undecodable w.
Proof.
  unfold Timestamp_now. msimpl. destruct (NOW w) as [t0|].
  - intros [= _ <-]. tauto.
  - unfold datetime_now. destruct (Timestamp_from_dt _) as [t1|e];
      intros [= _ <-]; cbn; tauto.
Qed.

Lemma file_age_memo (t : Timestamp) (conflict_file : ConflictFile) (w : World) :
  NOW w = Some t →
  ConflictFile_age_in_seconds conflict_file w =
    (c ← ConflictFile_top conflict_file; Ok (Timestamp_delta t (c_timestamp c)), w).
Proof.
  intros H. unfold ConflictFile_age_in_seconds, Timestamp_file_age.
  rewrite (bind_Ok _ _ _ _ _ (Timestamp_now_memo t w H)). msimpl.
  destruct (ConflictFile_top conflict_file); reflexivity.
Qed.

(** ** Paths of a record and the predicates that only read *)

Lemma canonical_selected_eq (self : ConflictFile) (w : World) :
  ConflictFile_canonical_selected self w = (Ok (path_selected w self), w).
Proof. reflexivity. Qed.

Lemma canonical_original_eq (self : ConflictFile) (w : World) :
  ConflictFile_canonical_original self w = (Ok (path_original w self), w).
Proof. reflexivity. Qed.

Lemma is_obsolete_eq (self : ConflictFile) (args : Args) (w : World) :
  Heuristic_is_obsolete self args w = (Ok (negb (is_file w (path_selected w self))), w).
Proof. reflexivity. Qed.

Lemma is_orphan_eq (self : ConflictFile) (args : Args) (w : World) :
  Heuristic_is_orphan self args w = (Ok (negb (is_file w (path_original w self))), w).
Proof. reflexivity. Qed.

Lemma is_nested_eq (self : ConflictFile) (args : Args) (w : World) :
  Heuristic_is_nested self args w = (Ok (negb (bool_decide (cf_parent self = None))), w).
Proof. reflexivity. Qed.

Lemma age_frame (self : ConflictFile) (w w' : World) (r : result Z) :
  ConflictFile_age_in_seconds self w = (r, w') →
  fs w' = fs w ∧ realpath w' = realpath w ∧ heap w' = heap w ∧ stdout w' = stdout w
  ∧ undecodable w' = undecodable w.
Proof.
  unfold ConflictFile_age_in_seconds, Timestamp_file_age.
  unfold mbind at 1, M_bind.
  destruct (Timestamp_now w) as [[t|e] w1] eqn:E;
    apply Timestamp_now_frame in E.
  - msimpl. destruct (ConflictFile_top self); intros [= _ <-]; exact E.
  - intros [= _ <-]. exact E.
Qed.

Lemma is_old_eq (self : ConflictFile) (args : Args) (w : World) :
  Heuristic_is_old self args w =
    let '(r, w') := ConflictFile_age_in_seconds self w in
    (age ← r; Ok (30 * 60 * 60 * 24 <? age), w').
Proof.
  unfold Heuristic_is_old. unfold mbind at 1, M_bind.
  destruct (ConflictFile_age_in_seconds self w) as [[age|e] w']; reflexivity.
Qed.

Lemma is_young_eq (self : ConflictFile) (args : Args) (w : World) :
  Heuristic_is_young self args w =
    let '(r, w') := ConflictFile_age_in_seconds self w in
    (age ← r; Ok (age <? 5 * 60 * 60 * 24), w').
Proof.
  unfold Heuristic_is_young. unfold mbind at 1, M_bind.
  destruct (ConflictFile_age_in_seconds self w) as [[age|e] w']; reflexivity.
Qed.

(** ** SAME: what [Heuristic.is_same] computes *)

Lemma text_lines_from_nil (cur : string) (bs : list Byte.byte) :
  text_lines_from cur bs = [] ↔ cur = "" ∧ bs = [].
Proof.
  revert cur. induction bs as [|b bs IH]; intros cur; cbn [text_lines_from].
  - destruct cur; split; try discriminate; try (intros [[=] _]); auto.
  - destruct (Ascii.eqb (ascii_of_byte b) NL);
      [split; [discriminate|intros [_ [=]]]|].
    destruct (Ascii.eqb (ascii_of_byte b) CR).
    + destruct bs as [|b' bs']; [split; [discriminate|intros [_ [=]]]|].
      destruct (Ascii.eqb (ascii_of_byte b') NL);
        split; try discriminate; intros [_ [=]].
    + rewrite IH. split; [intros [H _]; destruct cur; discriminate|intros [_ [=]]].
Qed.

Lemma text_lines_nil (bs : list Byte.byte) : text_lines bs = [] ↔ bs = [].
Proof. unfold text_lines. rewrite text_lines_from_nil. tauto. Qed.

(** No [str] line gets past [update]. *)
Lemma update_lines_Ok (h h' : sha256) (lines : list string) :
  update_lines h lines = Ok h' ↔ lines = [] ∧ h' = h.
Proof.
  destruct lines as [|l ls]; cbn.
  - split; [intros [= E]; subst; auto|intros [_ E]; subst; reflexivity].
  - split; [discriminate|intros [[=] _]].
Qed.

Lemma update_lines_text (h : sha256) (bs : list Byte.byte) :
  update_lines h (text_lines bs) =
    match bs with [] => Ok h | _ :: _ => Raise TypeError end.
Proof.
  destruct bs as [|b bs]; [reflexivity|].
  destruct (text_lines (b :: bs)) as [|l ls] eqn:E.
  - apply text_lines_nil in E. discriminate.
  - reflexivity.
Qed.

(** Reading a file and feeding its lines to [update]. *)
Lemma read_update (h : sha256) (content : list Byte.byte) (w : World) :
  (lines ← read_lines content; lift (update_lines h lines)) w
  = (match content with
     | [] => Ok h
     | _ :: _ => Raise (text_error w content)
     end, w).
Proof.
  unfold mbind, M_bind, read_lines, lift, text_error.
  destruct content as [|b bs]; [reflexivity|].
  destruct (decodes w (b :: bs)); [|reflexivity].
  now rewrite update_lines_text.
Qed.

Lemma is_same_eq (self : ConflictFile) (args : Args) (w : World) :
  Heuristic_is_same self args w = (is_same_result w self, w).
Proof.
  unfold Heuristic_is_same, is_same_result.
  rewrite (bind_Ok _ _ _ _ _ (canonical_selected_eq self w)).
  rewrite (bind_Ok _ _ _ _ _ (canonical_original_eq self w)).
  unfold mbind at 1, M_bind at 1, open_r.
  destruct (fs w !! path_selected w self) as [[s|]|]; [|reflexivity..].
  unfold mbind at 1, M_bind at 1.
  destruct (fs w !! path_original w self) as [[o|]|]; [|reflexivity..].
  unfold mbind at 1, M_bind at 1. rewrite read_update.
  destruct s as [|a s]; [|reflexivity].
  unfold mbind at 1, M_bind at 1. rewrite read_update.
  destruct o as [|b o]; reflexivity.
Qed.

Lemma is_same_true_iff (self : ConflictFile) (args : Args) (w : World) :
  fst (Heuristic_is_same self args w) = Ok true
  ↔ fs w !! path_selected w self = Some (File [])
    ∧ fs w !! path_original w self = Some (File []).
Proof.
  rewrite is_same_eq. cbn [fst]. unfold is_same_result.
  destruct (fs w !! path_selected w self) as [[[|a s]|]|];
    destruct (fs w !! path_original w self) as [[[|b o]|]|];
    split; try discriminate; try tauto; intros [[=] [=]].
Qed.

Lemma is_same_never_False (self : ConflictFile) (args : Args) (w : World) :
  fst (Heuristic_is_same self args w) ≠ Ok false.
Proof.
  rewrite is_same_eq. cbn [fst]. unfold is_same_result.
  destruct (fs w !! path_selected w self) as [[[|a s]|]|];
    destruct (fs w !! path_original w self) as [[[|b o]|]|]; discriminate.
Qed.

(** ** The chain of [Heuristic.check] *)

Lemma is_same_result_frame (w w' : World) (self : ConflictFile) :
  fs w' = fs w → realpath w' = realpath w → undecodable w' = undecodable w →
  is_same_result w' self = is_same_result w self.
Proof.
  intros Hfs Hrp Hun. unfold is_same_result, path_selected, path_original,
    text_error, decodes.
  now rewrite Hfs, Hrp, Hun.
Qed.

Lemma Heuristic_check_eq (self : ConflictFile) (args : Args) (w : World) :
  fst (Heuristic_check self args w)
  = check_result w self (fst (ConflictFile_age_in_seconds self w)).
Proof.
  unfold Heuristic_check, Heuristic_check_mapping. cbn [Heuristic_check_loop].
  unfold mbind at 1, M_bind. rewrite is_old_eq.
  destruct (ConflictFile_age_in_seconds self w) as [[age|e] w1] eqn:E;
    [|reflexivity].
  apply age_frame in E. destruct E as (Hfs & Hrp & _ & _ & Hun).
  cbn [fst]. unfold check_result. msimpl.
  destruct (30 * 60 * 60 * 24 <? age); [reflexivity|].
  rewrite is_obsolete_eq.
  assert (Hsel : is_file w1 (path_selected w1 self) = is_file w (path_selected w self)).
  { unfold is_file, path_selected. now rewrite Hfs, Hrp. }
  rewrite Hsel. destruct (is_file w (path_selected w self)); [|reflexivity].
  cbn [negb]. rewrite is_same_eq, (is_same_result_frame w w1) by assumption.
  pose proof (is_same_never_False self args w) as Hnf.
  rewrite is_same_eq in Hnf. cbn [fst] in Hnf.
  destruct (is_same_result w self) as [[|]|e]; [reflexivity|congruence|reflexivity].
Qed.

(** The loop of [check] over any list of predicates that answer without
    changing the state: the first that answers [True] gives the result,
    an exception in front of it is passed on, and NONE is the result when
    all answer [False]. *)
Lemma check_loop_first_True (pre post : list (Z * (ConflictFile → Args → M bool)))
    (i : Z) (h : ConflictFile → Args → M bool)
    (self : ConflictFile) (args : Args) (w : World) :
  Forall (λ item, item.2 self args w = (Ok false, w)) pre →
  fst (h self args w) = Ok true →
  fst (Heuristic_check_loop (pre ++ (i, h) :: post) self args w) = Ok i.
Proof.
  intros Hpre Hh. induction Hpre as [|[j g] pre Hg _ IH];
    cbn [app Heuristic_check_loop]; unfold mbind at 1, M_bind.
  - destruct (h self args w) as [[[|]|e] w']; cbn in Hh; try discriminate.
    reflexivity.
  - cbn [snd] in Hg. rewrite Hg. exact IH.
Qed.

Lemma check_loop_first_Raise (pre post : list (Z * (ConflictFile → Args → M bool)))
    (i : Z) (h : ConflictFile → Args → M bool) (e : exn)
    (self : ConflictFile) (args : Args) (w : World) :
  Forall (λ item, item.2 self args w = (Ok false, w)) pre →
  fst (h self args w) = Raise e →
  fst (Heuristic_check_loop (pre ++ (i, h) :: post) self args w) = Raise e.
Proof.
  intros Hpre Hh. induction Hpre as [|[j g] pre Hg _ IH];
    cbn [app Heuristic_check_loop]; unfold mbind at 1, M_bind.
  - destruct (h self args w) as [[[|]|e'] w']; cbn in Hh; try discriminate.
    injection Hh as ->. reflexivity.
  - cbn [snd] in Hg. rewrite Hg. exact IH.
Qed.

Lemma check_loop_all_False (items : list (Z * (ConflictFile → Args → M bool)))
    (self : ConflictFile) (args : Args) (w : World) :
  Forall (λ item, item.2 self args w = (Ok false, w)) items →
  Heuristic_check_loop items self args w = (Ok Heuristic_NONE, w).
Proof.
  intros Hall. induction Hall as [|[j g] items Hg _ IH];
    cbn [Heuristic_check_loop]; [reflexivity|].
  unfold mbind at 1, M_bind. cbn [snd] in Hg. rewrite Hg. exact IH.
Qed.

Example check_order :
  Heuristic_check_mapping.*1
  = [ Heuristic_OLD; Heuristic_OBSOLETE; Heuristic_SAME; Heuristic_ORPHANED;
      Heuristic_NESTED; Heuristic_YOUNG ].
Proof. reflexivity. Qed.

(** ** One clock for the whole batch *)

Lemma bind_keeps {A B} (m : M A) (f : A → M B) (w : World) :
  snd (m w) = w → (∀ a, snd (f a w) = w) → snd ((m ≫= f) w) = w.
Proof.
  intros Hm Hf. unfold mbind, M_bind. destruct (m w) as [[a|e] w']; cbn in Hm;
    subst w'; [apply Hf|reflexivity].
Qed.

Lemma age_keeps (t : Timestamp) (self : ConflictFile) (w : World) :
  NOW w = Some t → snd (ConflictFile_age_in_seconds self w) = w.
Proof. intros H. now rewrite (file_age_memo t). Qed.

(** Once [NOW] is set, no predicate of the chain changes the state. *)
Lemma Heuristic_check_keeps (t : Timestamp) (self : ConflictFile) (args : Args)
    (w : World) :
  NOW w = Some t → snd (Heuristic_check self args w) = w.
Proof.
  intros H. unfold Heuristic_check.
  assert (Hall : Forall (λ item, snd (item.2 self args w) = w) Heuristic_check_mapping).
  { unfold Heuristic_check_mapping. repeat constructor; cbn [snd].
    - unfold Heuristic_is_old. apply bind_keeps; [now apply (age_keeps t)|reflexivity].
    - rewrite is_same_eq. reflexivity.
    - unfold Heuristic_is_young. apply bind_keeps; [now apply (age_keeps t)|reflexivity]. }
  induction Hall as [|[i h] rest Hh _ IH]; [reflexivity|].
  cbn [Heuristic_check_loop]. apply bind_keeps; [exact Hh|].
  intros [|]; [reflexivity|exact IH].
Qed.

(** Nor does the loop of [Cli.actions] over the whole index. *)
Lemma Cli_actions_keeps (t : Timestamp) (args : Args) (items : list (string * ref))
    (actions : list (list ref)) (w : World) :
  NOW w = Some t → snd (Cli_actions_loop args items actions w) = w.
Proof.
  intros H. revert actions. induction items as [|[k r] items IH]; intros actions;
    cbn [Cli_actions_loop]; [reflexivity|].
  apply bind_keeps; [reflexivity|]. intros cf.
  apply bind_keeps; [now apply (Heuristic_check_keeps t)|]. intros h.
  apply bind_keeps; [reflexivity|]. intros a.
  apply bind_keeps; [reflexivity|]. intros acts. apply IH.
Qed.

(** C10: the clock is read at the first call of [Timestamp.now] and at no
    other.  The first call, [NOW] being unset, reads the clock once, the
    reading being a date and a time, returns it as [t] and assigns [NOW].
    Every later call, whatever the clock reads by then and however often it
    was read, returns the same [t] and leaves the state as it is; the age
    of every record is then the distance from that one [t] to the record's
    top marker; and neither [Heuristic.check] nor the loop of [Cli.actions]
    over a batch of records changes the state, so that [t] stays in place
    throughout. *)
Theorem Timestamp_now_fixed (w : World) :
  NOW w = None →
  (let dt := clock w (ticks w) in
   datetime.valid (datetime.year dt) (datetime.month dt) (datetime.day dt)
     (datetime.hour dt) (datetime.minute dt) (datetime.second dt) = true) →
  ∃ t w1,
    Timestamp_now w = (Ok t, w1)
    ∧ w1 = set_NOW (Some t) (set_ticks (S (ticks w)) w)
    ∧ ts_dt t = clock w (ticks w)
    ∧ NOW w1 = Some t
    ∧ (∀ w2, NOW w2 = NOW w1 → Timestamp_now w2 = (Ok t, w2))
    ∧ (∀ w2 conflict_file top,
         NOW w2 = NOW w1 →
         ConflictFile_top conflict_file = Ok top →
         ConflictFile_age_in_seconds conflict_file w2
         = (Ok (Timestamp_delta t (c_timestamp top)), w2))
    ∧ (∀ w2 conflict_file args,
         NOW w2 = NOW w1 → snd (Heuristic_check conflict_file args w2) = w2)
    ∧ (∀ w2 args conflict_map,
         NOW w2 = NOW w1 → snd (Cli_actions args conflict_map w2) = w2).
Proof.
  intros Hnone Hvalid.
  destruct (Timestamp_now_first w Hnone Hvalid) as (t & Hfirst & Hdt).
  exists t, (set_NOW (Some t) (set_ticks (S (ticks w)) w)).
  split; [exact Hfirst|]. split; [reflexivity|]. split; [exact Hdt|].
  pose proof (Timestamp_now_sets _ _ _ Hfirst) as H.
  split; [exact H|]. split; [|split; [|split]].
  - intros w2 E. apply Timestamp_now_memo. congruence.
  - intros w2 cf top E Htop. rewrite (file_age_memo t) by congruence.
    rewrite Htop. reflexivity.
  - intros w2 cf args E. apply (Heuristic_check_keeps t). congruence.
  - intros w2 args m E. apply (Cli_actions_keeps t). congruence.
Qed.

(** ** Strings and marker texts *)

Lemma str_app_cons (c : ascii) (a b : string) :
  String c a +:+ b = String c (a +:+ b).
Proof. reflexivity. Qed.

Lemma str_app_nil_l (b : string) : "" +:+ b = b.
Proof. reflexivity. Qed.

Lemma str_app_nil_r (s : string) : s +:+ "" = s.
Proof.
  induction s as [|c s IH]; [reflexivity|]. now rewrite str_app_cons, IH.
Qed.

Lemma str_app_assoc (a b c : string) : (a +:+ b) +:+ c = a +:+ (b +:+ c).
Proof.
  induction a as [|x a IH]; [reflexivity|]. now rewrite !str_app_cons, IH.
Qed.

Lemma str_app_length (a b : string) :
  String.length (a +:+ b) = (String.length a + String.length b)%nat.
Proof.
  induction a as [|x a IH]; [reflexivity|].
  rewrite str_app_cons. cbn [String.length]. now rewrite IH.
Qed.

Lemma str_app_id_r (a b : string) : a +:+ b = a → b = "".
Proof.
  intros H. apply (f_equal String.length) in H. rewrite str_app_length in H.
  destruct b; [reflexivity|cbn [String.length] in H; lia].
Qed.

Lemma Str_eqb_eq (a b : string) : Str.eqb a b = true ↔ a = b.
Proof. unfold Str.eqb. apply bool_decide_eq_true. Qed.

Lemma Conflict_format_from (acc : string) (conflicts : list Conflict) :
  fold_left (λ s c, s +:+ Conflict_repr c) conflicts acc
  = acc +:+ Str.concat (map Conflict_repr conflicts).
Proof.
  revert acc. induction conflicts as [|c cs IH]; intros acc;
    cbn [fold_left map Str.concat].
  - now rewrite str_app_nil_r.
  - rewrite IH, str_app_assoc. reflexivity.
Qed.

Lemma Conflict_format_concat (conflicts : list Conflict) :
  Conflict_format conflicts = Str.concat (map Conflict_repr conflicts).
Proof. unfold Conflict_format. now rewrite Conflict_format_from. Qed.

Lemma Conflict_format_nil_iff (conflicts : list Conflict) :
  Conflict_format conflicts = "" ↔ conflicts = [].
Proof.
  split; [|intros ->; reflexivity].
  destruct conflicts as [|c cs]; [reflexivity|].
  rewrite Conflict_format_concat. cbn [map Str.concat]. unfold Conflict_repr.
  rewrite !str_app_assoc. discriminate.
Qed.

(** ** Construction *)

Lemma ConflictFile_init_inv (path base name : string) (conflicts : list Conflict)
    (self : ConflictFile) :
  ConflictFile_init path base name conflicts = Ok self →
  cf_path self = path ∧ cf_base self = base ∧ cf_name self = name
  ∧ cf_conflicts self = conflicts
  ∧ (cf_selected self, cf_ext self) = os_path.splitext (Conflict_REGEX_sub_empty name)
  ∧ cf_original self = cf_selected self +:+ Conflict_format (but_last conflicts)
  ∧ cf_root self = Str.eqb (cf_original self) (cf_selected self)
  ∧ cf_parent self = None ∧ cf_children self = []
  ∧ name = cf_selected self +:+ Conflict_format conflicts +:+ cf_ext self.
Proof.
  unfold ConflictFile_init.
  destruct (os_path.splitext (Conflict_REGEX_sub_empty name)) as [selected ext].
  rewrite str_app_nil_r. unfold ConflictFile_repr, ConflictFile_format. cbn.
  destruct (Str.eqb name _) eqn:E; cbn; [|discriminate].
  intros [= <-]. cbn. apply Str_eqb_eq in E. tauto.
Qed.

(** A record is a root exactly when it was built from at most one marker. *)
Lemma root_iff_but_last (path base name : string) (conflicts : list Conflict)
    (self : ConflictFile) :
  ConflictFile_init path base name conflicts = Ok self →
  (cf_root self = true ↔ cf_original self = cf_selected self)
  ∧ (cf_original self = cf_selected self ↔ but_last conflicts = []).
Proof.
  intros H. apply ConflictFile_init_inv in H.
  destruct H as (_ & _ & _ & _ & _ & Ho & Hr & _). split.
  - rewrite Hr. apply Str_eqb_eq.
  - rewrite Ho. split.
    + intros E. apply str_app_id_r in E. now apply Conflict_format_nil_iff.
    + intros ->. cbn. apply str_app_nil_r.
Qed.

Lemma but_last_nil_iff {A} (l : list A) : but_last l = [] ↔ (length l ≤ 1)%nat.
Proof.
  destruct l as [|a [|b l]]; cbn; split; try reflexivity; try lia; try discriminate.
Qed.

(** ** Scenarios *)

Lemma scan_name_1 : scan_file "/data" "/data" name_1 = Ok (Some record_1).
Proof. vm_compute. reflexivity. Qed.

Lemma scan_name_2 : scan_file "/data" "/data" name_2 = Ok (Some record_2).
Proof. vm_compute. reflexivity. Qed.

(** C1, at the conflict of a conflict whose parent the forest has set: the
    predicates in front of NESTED that answer answer [False], [is_nested]
    answers [True], so the chain is to end in NESTED; [check] raises
    [TypeError] out of [is_same] instead, and so does the loop of
    [Cli.actions]. *)
Theorem check_raises_for_NESTED :
  ∃ w conflict_map,
    Cli_run_forest [("/data", "/data", name_1); ("/data", "/data", name_2)] world_B
    = (Ok conflict_map, w)
    ∧ heap w !! 1%nat = Some record_2_linked
    ∧ fst (ConflictFile_age_in_seconds record_2_linked w) = Ok (2 * 86400)
    ∧ fst (Heuristic_is_old record_2_linked dry_args w) = Ok false
    ∧ fst (Heuristic_is_obsolete record_2_linked dry_args w) = Ok false
    ∧ fst (Heuristic_is_same record_2_linked dry_args w) = Raise TypeError
    ∧ fst (Heuristic_is_orphan record_2_linked dry_args w) = Ok false
    ∧ fst (Heuristic_is_nested record_2_linked dry_args w) = Ok true
    ∧ fst (Heuristic_is_young record_2_linked dry_args w) = Ok true
    ∧ fst (Heuristic_check record_2_linked dry_args w) = Raise TypeError
    ∧ fst (Cli_actions dry_args conflict_map w) = Raise TypeError.
Proof.
  eexists. eexists. split; [vm_compute; reflexivity|].
  repeat split; vm_compute; reflexivity.
Qed.

(** The same at a single marker, ten days old: no predicate answers
    [True], and [check] does not return NONE. *)
Example check_raises_for_NONE :
  scan_file "/data" "/data" name_1 = Ok (Some record_1)
  ∧ fst (ConflictFile_age_in_seconds record_1 world_D) = Ok (10 * 86400)
  ∧ fst (Heuristic_is_old record_1 dry_args world_D) = Ok false
  ∧ fst (Heuristic_is_obsolete record_1 dry_args world_D) = Ok false
  ∧ fst (Heuristic_is_same record_1 dry_args world_D) = Raise TypeError
  ∧ fst (Heuristic_is_orphan record_1 dry_args world_D) = Ok false
  ∧ fst (Heuristic_is_nested record_1 dry_args world_D) = Ok false
  ∧ fst (Heuristic_is_young record_1 dry_args world_D) = Ok false
  ∧ fst (Heuristic_check record_1 dry_args world_D) = Raise TypeError.
Proof. repeat split; vm_compute; reflexivity. Qed.

(** The classifications [check] can return at all. *)
Lemma Heuristic_check_returns (self : ConflictFile) (args : Args) (w : World) (h : Z) :
  fst (Heuristic_check self args w) = Ok h →
  h = Heuristic_OLD ∨ h = Heuristic_OBSOLETE ∨ h = Heuristic_SAME.
Proof.
  rewrite Heuristic_check_eq. unfold check_result.
  destruct (fst (ConflictFile_age_in_seconds self w)) as [age|e]; cbn;
    [|discriminate].
  destruct (30 * 60 * 60 * 24 <? age); [intros [= <-]; tauto|].
  destruct (negb _); [intros [= <-]; tauto|].
  destruct (is_same_result w self); cbn; [intros [= <-]; tauto|discriminate].
Qed.

(** C3, at a live file and a derived ancestor that both exist and hold the
    same bytes, where SAME is to hold: [is_same] does not answer, it raises
    [TypeError]. *)
Theorem is_same_raises_on_equal_files :
  scan_file "/data" "/data" name_2 = Ok (Some record_2)
  ∧ (∃ content,
       content ≠ []
       ∧ fs world_S !! path_selected world_S record_2 = Some (File content)
       ∧ fs world_S !! path_original world_S record_2 = Some (File content))
  ∧ fst (Heuristic_is_same record_2 dry_args world_S) = Raise TypeError.
Proof.
  split; [vm_compute; reflexivity|]. split; [|vm_compute; reflexivity].
  exists (bytes_of "same" ++ [Byte.x0a])%list.
  split; [discriminate|]. split; vm_compute; reflexivity.
Qed.

(** ** A vanished ancestor *)

(** C2, as stated, at its own example: one marker, two days old, the
    derived ancestor not on disk.  [is_orphan] and [is_young] both answer
    [True], and [check] returns OBSOLETE, not ORPHANED. *)
Lemma orphaned_root_not_ORPHANED :
  scan_file "/data" "/data" name_1 = Ok (Some record_1)
  ∧ length (cf_conflicts record_1) = 1%nat
  ∧ fst (ConflictFile_age_in_seconds record_1 world_C) = Ok (2 * 86400)
  ∧ fst (Heuristic_is_orphan record_1 dry_args world_C) = Ok true
  ∧ fst (Heuristic_is_young record_1 dry_args world_C) = Ok true
  ∧ fst (Heuristic_check record_1 dry_args world_C) = Ok Heuristic_OBSOLETE
  ∧ fst (Heuristic_check record_1 dry_args world_C) ≠ Ok Heuristic_ORPHANED.
Proof. repeat split; try (vm_compute; reflexivity). vm_compute. discriminate. Qed.

(** C2, amended: when the derived ancestor of a record is not on disk,
    [check] does not return YOUNG; and for a record built from a single
    marker, whose derived ancestor is the live file, and which is at most 30
    days old, [check] returns OBSOLETE, which maps to DELETE. *)
Theorem absent_ancestor_not_YOUNG (self : ConflictFile) (args : Args) (w : World) :
  fst (Heuristic_is_orphan self args w) = Ok true →
  fst (Heuristic_check self args w) ≠ Ok Heuristic_YOUNG
  ∧ ∀ path base name marker age,
      ConflictFile_init path base name [marker] = Ok self →
      fst (ConflictFile_age_in_seconds self w) = Ok age →
      age ≤ 30 * 86400 →
      fst (Heuristic_check self args w) = Ok Heuristic_OBSOLETE
      ∧ (h ← fst (Heuristic_check self args w); Action_mapping h) = Ok Action_DELETE.
Proof.
  rewrite is_orphan_eq. cbn [fst]. intros [= Horph]. split.
  - intros E. apply Heuristic_check_returns in E.
    destruct E as [E|[E|E]]; discriminate.
  - intros path base name marker age Hinit Hage Hle.
    apply root_iff_but_last in Hinit. destruct Hinit as [_ Ho].
    assert (Hsel : path_selected w self = path_original w self).
    { unfold path_selected, path_original. f_equal.
      unfold ConflictFile_format. cbn [default].
      now rewrite (proj2 Ho eq_refl). }
    assert (fst (Heuristic_check self args w) = Ok Heuristic_OBSOLETE) as ->.
    { rewrite Heuristic_check_eq, Hage. unfold check_result. cbn.
      destruct (Z.ltb_spec (30 * 60 * 60 * 24) age); [lia|].
      now rewrite Hsel, Horph. }
    split; reflexivity.
Qed.

Lemma absent_ancestor_not_YOUNG_witness :
  fst (Heuristic_check record_1 dry_args world_C) ≠ Ok Heuristic_YOUNG
  ∧ fst (Heuristic_check record_1 dry_args world_C) = Ok Heuristic_OBSOLETE
  ∧ (h ← fst (Heuristic_check record_1 dry_args world_C); Action_mapping h)
    = Ok Action_DELETE.
Proof.
  destruct (absent_ancestor_not_YOUNG record_1 dry_args world_C) as [H1 H2];
    [vm_compute; reflexivity|].
  split; [exact H1|].
  apply (H2 "/data" "/data" name_1 marker_1 (2 * 86400));
    [vm_compute; reflexivity|vm_compute; reflexivity|lia].
Defined.

(** ** Roots *)

(** The constructor alone: with at least one marker, root means one
    marker. *)
Lemma root_iff_single_marker_init (path base name : string)
    (conflicts : list Conflict) (self : ConflictFile) :
  ConflictFile_init path base name conflicts = Ok self →
  conflicts ≠ [] →
  (cf_root self = true ↔ length (cf_conflicts self) = 1%nat)
  ∧ (cf_root self = true ↔ cf_original self = cf_selected self).
Proof.
  intros E Hne. pose proof (root_iff_but_last _ _ _ _ _ E) as [Hr Ho].
  apply ConflictFile_init_inv in E. destruct E as (_ & _ & _ & Hc & _).
  rewrite Hc. rewrite but_last_nil_iff in Ho.
  destruct conflicts as [|c cs]; [contradiction|]. cbn [length] in *.
  assert (Hl : (S (length cs) ≤ 1)%nat ↔ S (length cs) = 1%nat) by lia.
  tauto.
Qed.

(** The scan hands the constructor a list that is not empty; the
    constructor itself would make a root of no marker at all. *)
Example root_without_marker :
  ∃ self, ConflictFile_init "/data" "/data" "report.txt" [] = Ok self
          ∧ cf_root self = true ∧ length (cf_conflicts self) = 0%nat
          ∧ scan_file "/data" "/data" "report.txt" = Ok None.
Proof. eexists. repeat split; vm_compute; reflexivity. Qed.

(** C7: a record that the scan has built is a root exactly when it has one
    marker, and exactly when its original name is its selected name. *)
Theorem root_iff_single_marker (path base name : string) (self : ConflictFile) :
  scan_file path base name = Ok (Some self) →
  (cf_root self = true ↔ length (cf_conflicts self) = 1%nat)
  ∧ (cf_root self = true ↔ cf_original self = cf_selected self)
  ∧ (cf_original self = cf_selected self ↔ length (cf_conflicts self) = 1%nat).
Proof.
  unfold scan_file.
  destruct (Conflict_parse name) as [[|c cs]|e]; cbn; try discriminate.
  destruct (ConflictFile_init path base name (c :: cs)) as [cf|e] eqn:E; cbn;
    [|discriminate].
  intros [= ->].
  destruct (root_iff_single_marker_init _ _ _ _ _ E) as [H1 H2]; [discriminate|].
  tauto.
Qed.

Lemma root_iff_single_marker_witness :
  ((cf_root record_1 = true ↔ length (cf_conflicts record_1) = 1%nat)
   ∧ (cf_root record_1 = true ↔ cf_original record_1 = cf_selected record_1)
   ∧ (cf_original record_1 = cf_selected record_1
      ↔ length (cf_conflicts record_1) = 1%nat))
  ∧ cf_root record_1 = true
  ∧ ((cf_root record_2 = true ↔ length (cf_conflicts record_2) = 1%nat)
     ∧ (cf_root record_2 = true ↔ cf_original record_2 = cf_selected record_2)
     ∧ (cf_original record_2 = cf_selected record_2
        ↔ length (cf_conflicts record_2) = 1%nat))
  ∧ cf_root record_2 = false.
Proof.
  split; [apply (root_iff_single_marker "/data" "/data" name_1 record_1);
          vm_compute; reflexivity|].
  split; [reflexivity|].
  split; [apply (root_iff_single_marker "/data" "/data" name_2 record_2);
          vm_compute; reflexivity|].
  reflexivity.
Defined.

(** ** The path index *)







(** ** The ancestry forest *)

Lemma store_unlinked (r : ref) (old new : ConflictFile) (w : World) :
  heap w !! r = Some old → unlinked new = unlinked old →
  unlinked <$> <[r := new]> (heap w) = unlinked <$> heap w.
Proof.
  intros Hold Heq. rewrite list_fmap_insert, Heq. apply list_insert_id.
  rewrite list_lookup_fmap, Hold. reflexivity.
Qed.

Lemma set_parent_frame (self parent : ref) (w w' : World) (r : result unit) :
  ConflictFile_set_parent self parent w = (r, w') →
  unlinked <$> heap w' = unlinked <$> heap w
  ∧ realpath w' = realpath w ∧ fs w' = fs w.
Proof.
  unfold ConflictFile_set_parent. unfold mbind at 1, M_bind, deref.
  destruct (heap w !! self) as [me|] eqn:Hme; cbn [of_option];
    [|intros [= _ <-]; tauto].
  unfold mbind at 1, M_bind, lift, assert.
  destruct (bool_decide (cf_parent me = None)); [|intros [= _ <-]; tauto].
  unfold mbind at 1, M_bind, store, modify.
  set (w1 := set_heap _ w).
  assert (H1 : unlinked <$> heap w1 = unlinked <$> heap w)
    by (apply (store_unlinked self me); [exact Hme|reflexivity]).
  unfold mbind at 1, M_bind.
  destruct (heap w1 !! parent) as [p|] eqn:Hp; cbn [of_option];
    [|intros [= _ <-]; tauto].
  unfold mbind at 1, M_bind.
  destruct (negb _); [|intros [= _ <-]; tauto].
  intros [= _ <-]. split; [|split; reflexivity].
  etransitivity; [|exact H1].
  refine (store_unlinked parent p _ w1 Hp _). reflexivity.
Qed.

Lemma unlinked_lookup (w w0 : World) (r : ref) (cf : ConflictFile) :
  unlinked <$> heap w = unlinked <$> heap w0 →
  heap w0 !! r = Some cf →
  ∃ cf', heap w !! r = Some cf' ∧ unlinked cf' = unlinked cf.
Proof.
  intros Hinv Hcf.
  assert (H : (unlinked <$> heap w) !! r = Some (unlinked cf))
    by (rewrite Hinv, list_lookup_fmap, Hcf; reflexivity).
  rewrite list_lookup_fmap in H.
  destruct (heap w !! r) as [cf'|]; [|discriminate].
  exists cf'. split; [reflexivity|]. cbn in H. congruence.
Qed.

(** A record that is no root and whose original is no key of the index
    stops the loop: whatever happens before, the loop ends in an exception. *)
Lemma conflict_tree_loop_fails (w0 : World) (conflict_map : list (string * ref))
    (r : ref) (cf : ConflictFile) (items : list (string * ref)) :
  heap w0 !! r = Some cf → cf_root cf = false →
  dict_get conflict_map (path_original w0 cf) = Raise KeyError →
  r ∈ items.*2 →
  ∀ w tree,
    unlinked <$> heap w = unlinked <$> heap w0 → realpath w = realpath w0 →
    ∃ e w', Cli_conflict_tree_loop conflict_map items tree w = (Raise e, w').
Proof.
  intros Hcf Hroot Hmiss.
  induction items as [|[k0 r0] rest IH]; intros Hin w tree Hinv Hrp;
    [inversion Hin|].
  cbn [Cli_conflict_tree_loop]. unfold mbind at 1, M_bind, deref.
  destruct (heap w !! r0) as [cf0|] eqn:Hcf0; cbn [of_option]; [|eauto].
  assert (Hhead : r = r0 → cf_root cf0 = false
                            ∧ path_original w cf0 = path_original w0 cf).
  { intros ->. destruct (unlinked_lookup w w0 r0 cf Hinv Hcf) as (cf' & E & Hu).
    rewrite Hcf0 in E. injection E as <-.
    unfold path_original, ConflictFile_format. cbn [default]. rewrite Hrp.
    injection Hu as _ Hb _ _ _ He Ho Hr. now rewrite Hb, He, Ho, Hr. }
  assert (Htail : r ≠ r0 → r ∈ rest.*2).
  { intros Hne. cbn in Hin. apply elem_of_cons in Hin as [?|?]; [contradiction|assumption]. }
  destruct (cf_root cf0) eqn:Hr0.
  - unfold mbind at 1, M_bind, lift, assert.
    destruct (negb _); [|eauto].
    apply IH; [|assumption..]. apply Htail. intros E.
    destruct (Hhead E). discriminate.
  - rewrite (bind_Ok _ _ _ _ _ (canonical_original_eq cf0 w)).
    unfold mbind at 1, M_bind, lift.
    destruct (dict_get conflict_map (path_original w cf0)) as [original|e] eqn:Hget;
      [|eauto].
    unfold mbind at 1, M_bind.
    destruct (ConflictFile_set_parent r0 original w) as [[[]|e] w1] eqn:Hset; [|eauto].
    apply set_parent_frame in Hset. destruct Hset as (Hinv1 & Hrp1 & _).
    apply IH; [|congruence..]. apply Htail. intros E.
    destruct (Hhead E) as [_ Hp]. congruence.
Qed.

Lemma conflict_tree_fails (w : World) (conflict_map : list (string * ref))
    (r : ref) (cf : ConflictFile) :
  heap w !! r = Some cf → cf_root cf = false →
  dict_get conflict_map (path_original w cf) = Raise KeyError →
  r ∈ conflict_map.*2 →
  ∃ e w', Cli_conflict_tree conflict_map w = (Raise e, w').
Proof.
  intros Hcf Hroot Hmiss Hin. unfold Cli_conflict_tree.
  now apply (conflict_tree_loop_fails w conflict_map r cf).
Qed.

(** C4, at a record whose original is not in the index: the record is no
    root, its canonical original path is no key, and building the forest
    raises [KeyError]. *)
Theorem conflict_tree_raises_KeyError :
  ∃ w m,
    (scan ← Cli_scan_files [("/data", "/data", name_2)]; Cli_conflict_map scan) world_N
    = (Ok m, w)
    ∧ m = [("/data/" +:+ name_2, 0%nat)]
    ∧ heap w !! 0%nat = Some record_2
    ∧ cf_root record_2 = false
    ∧ dict_get m (path_original w record_2) = Raise KeyError
    ∧ fst (Cli_conflict_tree m w) = Raise KeyError
    ∧ fst (Cli_run_forest [("/data", "/data", name_2)] world_N) = Raise KeyError.
Proof.
  eexists. eexists. split; [vm_compute; reflexivity|].
  repeat split; vm_compute; reflexivity.
Qed.

(** ** Markers and their text *)

Lemma expect_spec (lit s rest : string) :
  expect lit s = Some rest → s = lit +:+ rest.
Proof.
  revert s. induction lit as [|c lit IH]; intros s; cbn [expect].
  - intros [= ->]. reflexivity.
  - destruct s as [|d s]; [discriminate|].
    destruct (Ascii.eqb_spec c d) as [->|]; [|discriminate].
    intros H. rewrite str_app_cons. f_equal. now apply IH.
Qed.

Lemma take_class_spec (p : ascii → bool) (n : nat) (s g rest : string) :
  take_class p n s = Some (g, rest) →
  s = g +:+ rest ∧ String.length g = n ∧ all_chars p g = true.
Proof.
  revert s g. induction n as [|n IH]; intros s g; cbn [take_class].
  - intros [= <- <-]. repeat split.
  - destruct s as [|c s]; [discriminate|].
    destruct (p c) eqn:Hp; [|discriminate].
    intros H. apply bind_Some in H as ([g' r'] & E & H); cbv beta iota in H.
    injection H as <- <-. destruct (IH _ _ E) as (-> & <- & Hall).
    rewrite str_app_cons. cbn [String.length all_chars]. rewrite Hp, Hall.
    repeat split.
Qed.

Lemma REGEX_match_spec (s rest : string) (g : groups) :
  Conflict_REGEX_match s = Some (g, rest) →
  s = groups_text g +:+ rest ∧ groups_wf g.
Proof.
  unfold Conflict_REGEX_match. intros H.
  apply bind_Some in H as (s1 & E1 & H).
  apply bind_Some in H as ([dy s2] & E2 & H); cbv beta iota in H.
  apply bind_Some in H as ([dm s3] & E3 & H); cbv beta iota in H.
  apply bind_Some in H as ([dd s4] & E4 & H); cbv beta iota in H.
  apply bind_Some in H as (s5 & E5 & H).
  apply bind_Some in H as ([th s6] & E6 & H); cbv beta iota in H.
  apply bind_Some in H as ([tm s7] & E7 & H); cbv beta iota in H.
  apply bind_Some in H as ([ts s8] & E8 & H); cbv beta iota in H.
  apply bind_Some in H as (s9 & E9 & H).
  apply bind_Some in H as ([uid s10] & E10 & H); cbv beta iota in H.
  injection H as <- <-.
  apply expect_spec in E1, E5, E9.
  apply take_class_spec in E2, E3, E4, E6, E7, E8, E10.
  destruct E2 as (-> & ? & ?), E3 as (-> & ? & ?), E4 as (-> & ? & ?),
    E6 as (-> & ? & ?), E7 as (-> & ? & ?), E8 as (-> & ? & ?),
    E10 as (-> & ? & ?).
  subst s4 s8 s. split; [|unfold groups_wf; cbn; tauto].
  unfold groups_text. cbn [g_dy g_dm g_dd g_th g_tm g_ts g_uid].
  rewrite !str_app_assoc. reflexivity.
Qed.

(** *** Digits: [int] and the zero-filled format are inverse *)

Lemma is_digit_char (c : ascii) (u : Decimal.uint) :
  is_digit c = true → ∃ u', uint_of_char c (Some u) = Some u'.
Proof.
  destruct c as [[] [] [] [] [] [] [] []]; intros H; vm_compute in H;
    try discriminate H; cbn; eexists; reflexivity.
Qed.

Lemma digits_uint (s : string) :
  all_chars is_digit s = true → ∃ u, NilEmpty.uint_of_string s = Some u.
Proof.
  induction s as [|c s IH]; cbn [all_chars NilEmpty.uint_of_string].
  - eexists. reflexivity.
  - intros H. apply andb_true_iff in H as [Hc Hs].
    destruct (IH Hs) as [u ->]. now apply is_digit_char.
Qed.

Lemma repeat_length (c : ascii) (n : nat) : String.length (Str.repeat c n) = n.
Proof. induction n as [|n IH]; cbn; [reflexivity|now rewrite IH]. Qed.

Lemma repeat_snoc (c : ascii) (n : nat) :
  Str.repeat c n +:+ String c "" = Str.repeat c (S n).
Proof.
  induction n as [|n IH]; [reflexivity|].
  cbn [Str.repeat] in *. now rewrite str_app_cons, IH.
Qed.

Lemma nzhead_text (u : Decimal.uint) :
  ∃ k, NilEmpty.string_of_uint u
       = Str.repeat "0" k +:+ NilEmpty.string_of_uint (Decimal.nzhead u).
Proof.
  induction u as [|u IH|u _|u _|u _|u _|u _|u _|u _|u _|u _];
    try (exists 0%nat; reflexivity).
  destruct IH as [k IH]. exists (S k).
  cbn [NilEmpty.string_of_uint Decimal.nzhead Str.repeat].
  now rewrite str_app_cons, <- IH.
Qed.

Lemma of_int_of_uint (u : Decimal.uint) :
  Str.of_int (Z.of_uint u) = NilZero.string_of_uint (Decimal.unorm u).
Proof.
  unfold Str.of_int. change (Z.of_uint u) with (Z.of_int (Decimal.Pos u)).
  rewrite DecimalZ.to_of. reflexivity.
Qed.

Lemma zfill_of_uint (u : Decimal.uint) :
  u ≠ Decimal.Nil →
  Str.zfill (String.length (NilEmpty.string_of_uint u)) (Z.of_uint u)
  = NilEmpty.string_of_uint u.
Proof.
  intros Hu. unfold Str.zfill. cbv zeta. rewrite of_int_of_uint.
  destruct (nzhead_text u) as [k Hk]. unfold Decimal.unorm.
  destruct (Decimal.nzhead u) eqn:E;
    try (rewrite Hk, str_app_length, repeat_length;
         cbn [NilZero.string_of_uint];
         replace (k + _ - _)%nat with k by lia; reflexivity).
  cbn [NilEmpty.string_of_uint] in Hk. rewrite str_app_nil_r in Hk.
  rewrite Hk, repeat_length. destruct k as [|k].
  - destruct u; try discriminate Hk. contradiction.
  - cbn [NilZero.string_of_uint NilEmpty.string_of_uint String.length].
    replace (S k - 1)%nat with k by lia. apply repeat_snoc.
Qed.

(** For a nonempty string of digits, [int] succeeds, and formatting the
    number with the width of the string gives the string back. *)
Lemma zfill_to_int (s : string) :
  s ≠ "" → all_chars is_digit s = true →
  ∃ z, Str.to_int s = Ok z ∧ Str.zfill (String.length s) z = s.
Proof.
  intros Hs Hd. destruct (digits_uint s Hd) as [u Hu].
  pose proof (NilEmpty.sus s u Hu) as Hsu.
  exists (Z.of_uint u). split.
  - unfold Str.to_int, NilZero.uint_of_string. destruct s; [contradiction|].
    now rewrite Hu.
  - rewrite <- Hsu. apply zfill_of_uint. intros ->. now subst s.
Qed.

(** *** A marker is printed as it was matched *)

Lemma Date_init_str_repr (yy mm dd : string) :
  (String.length yy = 4 ∧ all_chars is_digit yy = true)%nat →
  (String.length mm = 2 ∧ all_chars is_digit mm = true)%nat →
  (String.length dd = 2 ∧ all_chars is_digit dd = true)%nat →
  ∃ d, Date_init_str yy mm dd = Ok d ∧ Date_repr d = yy +:+ mm +:+ dd.
Proof.
  intros [Ly Dy] [Lm Dm] [Ld Dd].
  destruct (zfill_to_int yy) as (y & Ey & Hy); [intros ->; discriminate|assumption|].
  destruct (zfill_to_int mm) as (m & Em & Hm); [intros ->; discriminate|assumption|].
  destruct (zfill_to_int dd) as (d & Ed & Hd); [intros ->; discriminate|assumption|].
  exists (mkDate y m d). unfold Date_init_str. rewrite Ey, Em, Ed.
  split; [reflexivity|]. unfold Date_repr. cbn [date_yy date_mm date_dd].
  rewrite Ly in Hy. rewrite Lm in Hm. rewrite Ld in Hd. now rewrite Hy, Hm, Hd.
Qed.

Lemma Time_init_str_repr (hh mm ss : string) :
  (String.length hh = 2 ∧ all_chars is_digit hh = true)%nat →
  (String.length mm = 2 ∧ all_chars is_digit mm = true)%nat →
  (String.length ss = 2 ∧ all_chars is_digit ss = true)%nat →
  ∃ t, Time_init_str hh mm ss = Ok t ∧ Time_repr t = hh +:+ mm +:+ ss.
Proof.
  intros [Lh Dh] [Lm Dm] [Ls Ds].
  destruct (zfill_to_int hh) as (h & Eh & Hh); [intros ->; discriminate|assumption|].
  destruct (zfill_to_int mm) as (m & Em & Hm); [intros ->; discriminate|assumption|].
  destruct (zfill_to_int ss) as (s & Es & Hs); [intros ->; discriminate|assumption|].
  exists (mkTime h m s). unfold Time_init_str. rewrite Eh, Em, Es.
  split; [reflexivity|]. unfold Time_repr. cbn [time_hh time_mm time_ss].
  rewrite Lh in Hh. rewrite Lm in Hm. rewrite Ls in Hs. now rewrite Hh, Hm, Hs.
Qed.

Lemma Conflict_init_repr (g : groups) (c : Conflict) :
  groups_wf g →
  Conflict_init (g_dy g, g_dm g, g_dd g) (g_th g, g_tm g, g_ts g) (g_uid g) = Ok c →
  Conflict_repr c = groups_text g.
Proof.
  intros (Hy & Hm & Hd & Hh & Hmi & Hs & _). unfold Conflict_init.
  destruct (Date_init_str_repr _ _ _ Hy Hm Hd) as (d & -> & Hdr).
  destruct (Time_init_str_repr _ _ _ Hh Hmi Hs) as (t & -> & Htr).
  cbn [mbind result_bind]. destruct (Timestamp_init d t) as [stamp|e]; [|discriminate].
  intros [= <-]. unfold Conflict_repr, groups_text. cbn [c_date c_time c_uid].
  now rewrite Hdr, Htr.
Qed.

Lemma Conflict_parse_matches_text (ms : list groups) (cs : list Conflict) :
  Forall groups_wf ms →
  Conflict_parse_matches ms = Ok cs →
  Str.concat (map Conflict_repr cs) = Str.concat (map groups_text ms).
Proof.
  intros Hwf. revert cs. induction Hwf as [|g ms Hg _ IH]; intros cs;
    cbn [Conflict_parse_matches].
  - intros [= <-]. reflexivity.
  - destruct (Conflict_init _ _ _) as [c|e] eqn:E; [|discriminate].
    cbn [mbind result_bind].
    destruct (Conflict_parse_matches ms) as [cs'|e]; [|discriminate].
    intros [= <-]. cbn [map Str.concat].
    now rewrite (Conflict_init_repr g c Hg E), (IH cs' eq_refl).
Qed.

(** *** The scan splits a name into literal characters and matches *)

Lemma tokens_from_skip (a rest : string) :
  tokens_from (String.length a) (a +:+ rest) = tokens_from 0 rest.
Proof.
  induction a as [|c a IH]; [destruct rest; reflexivity|].
  rewrite str_app_cons. cbn [String.length tokens_from]. exact IH.
Qed.

Lemma groups_text_length (g : groups) :
  groups_wf g → ∃ tail, groups_text g = String "." tail ∧ String.length tail = 37%nat.
Proof.
  intros ([Ly _] & [Lm _] & [Ld _] & [Lh _] & [Lmi _] & [Ls _] & [Lu _]).
  eexists. split; [reflexivity|]. cbn [String.length].
  rewrite !str_app_length. cbn [String.length]. lia.
Qed.

Lemma tokens_text_bounded (n : nat) (s : string) :
  (String.length s ≤ n)%nat →
  Str.concat (map token_text (tokens_from 0 s)) = s
  ∧ Forall token_wf (tokens_from 0 s).
Proof.
  revert s. induction n as [|n IH]; intros s Hn.
  - destruct s; [split; [reflexivity|constructor]|cbn in Hn; lia].
  - destruct s as [|c s']; [split; [reflexivity|constructor]|].
    cbn [tokens_from].
    destruct (Conflict_REGEX_match (String c s')) as [[g rest]|] eqn:E.
    + apply REGEX_match_spec in E as [Hs Hg].
      destruct (groups_text_length g Hg) as (tail & Htext & Hlen).
      rewrite Htext, str_app_cons in Hs. injection Hs as -> ->.
      rewrite <- Hlen, tokens_from_skip.
      cbn [String.length] in Hn. rewrite str_app_length, Hlen in Hn.
      destruct (IH rest) as [Ht Hw]; [lia|].
      split; [|constructor; assumption].
      cbn [map Str.concat token_text]. rewrite Ht, Htext, str_app_cons.
      reflexivity.
    + cbn [String.length] in Hn. destruct (IH s') as [Ht Hw]; [lia|].
      split; [|constructor; [exact I|assumption]].
      cbn [map Str.concat token_text]. now rewrite Ht.
Qed.

(** Putting every match back where it was found gives the name. *)
Lemma tokens_text (s : string) :
  Str.concat (map token_text (tokens s)) = s ∧ Forall token_wf (tokens s).
Proof. apply (tokens_text_bounded (String.length s)). lia. Qed.

(** ** Round trip *)

(** Construction succeeds exactly when printing the record gives the name
    back, and it fails by the assertion only. *)
Lemma ConflictFile_init_cases (path base name : string) (conflicts : list Conflict) :
  let '(selected, ext) := os_path.splitext (Conflict_REGEX_sub_empty name) in
  if Str.eqb name (selected +:+ Conflict_format conflicts +:+ ext)
  then ∃ self, ConflictFile_init path base name conflicts = Ok self
               ∧ ConflictFile_repr self = name
  else ConflictFile_init path base name conflicts = Raise AssertionError.
Proof.
  unfold ConflictFile_init.
  destruct (os_path.splitext (Conflict_REGEX_sub_empty name)) as [selected ext].
  unfold ConflictFile_repr at 1, ConflictFile_format at 1.
  cbn [default cf_conflicts cf_ext cf_selected].
  destruct (Str.eqb name _) eqn:E; [|reflexivity].
  eexists. split; [reflexivity|].
  apply Str_eqb_eq in E. symmetry. exact E.
Qed.

Lemma string_of_lits_app (a b : list token) :
  string_of_lits (a ++ b) = string_of_lits a +:+ string_of_lits b.
Proof.
  induction a as [|[c|g] a IH]; cbn [app string_of_lits]; [reflexivity| |exact IH].
  now rewrite str_app_cons, IH.
Qed.

Lemma string_of_lits_lits (s : string) : string_of_lits (lits s) = s.
Proof. induction s as [|c s IH]; cbn; [reflexivity|now rewrite IH]. Qed.

Lemma string_of_lits_matches (ms : list groups) : string_of_lits (map Match ms) = "".
Proof. induction ms as [|g ms IH]; [reflexivity|exact IH]. Qed.

Lemma concat_app (a b : list string) :
  Str.concat (a ++ b) = Str.concat a +:+ Str.concat b.
Proof.
  induction a as [|x a IH]; cbn [app Str.concat]; [reflexivity|].
  now rewrite IH, str_app_assoc.
Qed.

Lemma concat_text_lits (s : string) : Str.concat (map token_text (lits s)) = s.
Proof.
  induction s as [|c s IH]; [reflexivity|].
  cbn [lits map Str.concat token_text]. now rewrite IH.
Qed.

Lemma matches_of_tokens (stem ext : string) (ms : list groups) :
  omap (λ t, match t with Match g => Some g | Lit _ => None end)
    (lits stem ++ map Match ms ++ lits ext)%list = ms.
Proof.
  induction stem as [|c stem IH]; [|exact IH]. cbn [lits app].
  induction ms as [|g ms IH]; cbn [map app].
  - induction ext as [|c ext IH]; [reflexivity|exact IH].
  - cbn [omap list_omap]. now rewrite IH.
Qed.

Lemma Conflict_parse_matches_length (ms : list groups) (cs : list Conflict) :
  Conflict_parse_matches ms = Ok cs → length cs = length ms.
Proof.
  revert cs. induction ms as [|g ms IH]; intros cs; cbn [Conflict_parse_matches].
  - intros [= <-]. reflexivity.
  - destruct (Conflict_init _ _ _); [|discriminate]. cbn [mbind result_bind].
    destruct (Conflict_parse_matches ms) as [cs'|]; [|discriminate].
    intros [= <-]. cbn. now rewrite (IH cs').
Qed.

(** The names for which the round trip holds: the scan finds a stem, then
    one or more markers in a row, then an extension, where [splitext] splits
    stem and extension just there, and every marker carries a calendar date
    and a clock time.  For such a name the record is built, and printing it
    gives the name back. *)
Lemma canonical_round_trip (path base name stem ext : string)
    (ms : list groups) (cs : list Conflict) :
  tokens name = (lits stem ++ map Match ms ++ lits ext)%list →
  ms ≠ [] →
  os_path.splitext (stem +:+ ext) = (stem, ext) →
  Conflict_parse name = Ok cs →
  ∃ self, scan_file path base name = Ok (Some self)
          ∧ cf_selected self = stem ∧ cf_ext self = ext
          ∧ cf_conflicts self = cs
          ∧ ConflictFile_repr self = name.
Proof.
  intros Htok Hne Hsplit Hparse.
  destruct (tokens_text name) as [Htext Hwf]. rewrite Htok in Htext, Hwf.
  assert (Hms : Forall groups_wf ms).
  { apply Forall_app in Hwf as [_ Hwf]. apply Forall_app in Hwf as [Hwf _].
    clear -Hwf. induction ms as [|g ms IH]; [constructor|].
    inversion Hwf; subst. constructor; [assumption|now apply IH]. }
  unfold Conflict_parse, Conflict_REGEX_finditer in Hparse.
  rewrite Htok, matches_of_tokens in Hparse.
  assert (Hfmt : Conflict_format cs = Str.concat (map groups_text ms)).
  { rewrite Conflict_format_concat. now apply Conflict_parse_matches_text. }
  assert (Hname : name = stem +:+ Conflict_format cs +:+ ext).
  { rewrite <- Htext at 1. rewrite !map_app, !concat_app, !concat_text_lits.
    rewrite Hfmt. f_equal. f_equal. clear. induction ms as [|g ms IH];
      [reflexivity|]. cbn [map Str.concat token_text]. now rewrite IH. }
  assert (Hsub : Conflict_REGEX_sub_empty name = stem +:+ ext).
  { unfold Conflict_REGEX_sub_empty. rewrite Htok, !string_of_lits_app.
    now rewrite !string_of_lits_lits, string_of_lits_matches. }
  pose proof (ConflictFile_init_cases path base name cs) as Hinit.
  rewrite Hsub, Hsplit in Hinit.
  assert (Str.eqb name (stem +:+ Conflict_format cs +:+ ext) = true) as Heq
    by now apply Str_eqb_eq.
  rewrite Heq in Hinit. destruct Hinit as (self & Hself & Hrepr).
  exists self. unfold scan_file, Conflict_parse, Conflict_REGEX_finditer.
  rewrite Htok, matches_of_tokens, Hparse. cbn [mbind result_bind].
  destruct cs as [|c cs].
  { apply Conflict_parse_matches_length in Hparse. destruct ms; [contradiction|].
    discriminate. }
  rewrite Hself. cbn [mbind result_bind].
  apply ConflictFile_init_inv in Hself.
  destruct Hself as (_ & _ & _ & Hc & Hse & _).
  rewrite Hsub, Hsplit in Hse. injection Hse as -> ->. tauto.
Qed.

(** C5, at the conflict of a dot file: its one marker sits in front of the
    extension [".bashrc"], the scan parses it, and the constructor fails its
    own assertion, because [splitext] takes [".bashrc"] for a stem.  At a
    marker with a date that is none, the scan raises [ValueError] before
    any record is built. *)
Theorem dot_file_conflict_not_round_trip :
  Conflict_parse name_dot = Ok [marker_1]
  ∧ name_dot = "" +:+ Conflict_format [marker_1] +:+ ".bashrc"
  ∧ os_path.splitext (Conflict_REGEX_sub_empty name_dot) = (".bashrc", "")
  ∧ ConflictFile_init "/data" "/data" name_dot [marker_1] = Raise AssertionError
  ∧ scan_file "/data" "/data" name_dot = Raise AssertionError
  ∧ Conflict_REGEX_finditer name_feb31
    = [mkGroups "2023" "02" "31" "12" "00" "00" "ABC1234"]
  ∧ scan_file "/data" "/data" name_feb31 = Raise ValueError.
Proof. repeat split; vm_compute; reflexivity. Qed.

Example canonical_round_trip_name_2 :
  ∃ self, scan_file "/data" "/data" name_2 = Ok (Some self)
          ∧ cf_selected self = "report" ∧ cf_ext self = ".txt"
          ∧ cf_conflicts self = [marker_1; marker_2]
          ∧ ConflictFile_repr self = name_2.
Proof.
  apply (canonical_round_trip "/data" "/data" name_2 "report" ".txt"
           [ mkGroups "2023" "01" "01" "12" "00" "00" "ABC1234";
             mkGroups "2023" "01" "05" "09" "00" "00" "XYZ9876" ]);
    [vm_compute; reflexivity|discriminate|reflexivity|vm_compute; reflexivity].
Qed.

(** ** Witnesses *)

Lemma dry_run_no_mutation_witness :
  (∃ w', Action_delete record_1 dry_args world_D = (Ok tt, w')
         ∧ only_printed ("delete: " +:+ name_1) world_D w')
  ∧ (∃ w', Action_backup record_1 dry_args world_D = (Ok tt, w')
           ∧ only_printed ("backup: " +:+ name_1) world_D w').
Proof. apply (dry_run_no_mutation record_1 dry_args world_D). reflexivity. Defined.

Lemma Timestamp_now_fixed_witness :
  Timestamp_now world_D
  = (Ok (stamp 2023 1 11 12 0 0),
     set_NOW (Some (stamp 2023 1 11 12 0 0)) (set_ticks 1 world_D))
  ∧ ts_dt (stamp 2023 1 11 12 0 0) = clock world_D (ticks world_D)
  ∧ Timestamp_now world_later = (Ok (stamp 2023 1 11 12 0 0), world_later)
  ∧ ConflictFile_age_in_seconds record_1 world_later
    = (Ok (Timestamp_delta (stamp 2023 1 11 12 0 0) (c_timestamp marker_1)),
       world_later).
Proof.
  destruct (Timestamp_now_fixed world_D) as (t & w1 & Hfirst & Hw1 & Hdt & Hset & Hnow & Hage & _);
    [reflexivity|reflexivity|].
  assert (Ht : t = stamp 2023 1 11 12 0 0).
  { assert (E : Timestamp_now world_D
                = (Ok (stamp 2023 1 11 12 0 0),
                   set_NOW (Some (stamp 2023 1 11 12 0 0)) (set_ticks 1 world_D)))
      by reflexivity.
    rewrite E in Hfirst. now injection Hfirst as <- _. }
  subst t. split; [rewrite Hfirst, Hw1; reflexivity|]. split; [exact Hdt|].
  split; [apply Hnow; rewrite Hset; reflexivity|].
  apply Hage; [rewrite Hset; reflexivity|reflexivity].
Defined.

(** * Further properties of the program *)

(** ** The predicates *)

(** X1: [Heuristic.is_same] only reads: it leaves the state as it is.  It
    never answers [False]; it answers [True] exactly when the live file and
    the derived ancestor are both regular files without a byte; in every
    other case it raises: [FileNotFoundError] when the live file is absent;
    and when the live file holds a byte and the derived ancestor is a
    regular file, [TypeError] if the content of the live file comes through
    the decoder, as content in ASCII always does, and [UnicodeDecodeError]
    if it does not. *)
Theorem is_same_behaviour (self : ConflictFile) (args : Args) (w : World) :
  snd (Heuristic_is_same self args w) = w
  ∧ fst (Heuristic_is_same self args w) ≠ Ok false
  ∧ (fst (Heuristic_is_same self args w) = Ok true
     ↔ fs w !! path_selected w self = Some (File [])
       ∧ fs w !! path_original w self = Some (File []))
  ∧ (fs w !! path_selected w self = None
     → fst (Heuristic_is_same self args w) = Raise FileNotFoundError)
  ∧ (∀ b bs o, fs w !! path_selected w self = Some (File (b :: bs))
               → fs w !! path_original w self = Some (File o)
               → fst (Heuristic_is_same self args w)
                 = Raise (if decodes w (b :: bs) then TypeError
                          else UnicodeDecodeError))
  ∧ (∀ b bs o, fs w !! path_selected w self = Some (File (b :: bs))
               → fs w !! path_original w self = Some (File o)
               → is_ascii (b :: bs) = true
               → fst (Heuristic_is_same self args w) = Raise TypeError).
Proof.
  split; [now rewrite is_same_eq|]. split; [apply is_same_never_False|].
  split; [apply is_same_true_iff|]. rewrite is_same_eq. cbn [fst].
  unfold is_same_result. split; [|split].
  - now intros ->.
  - intros b bs o -> ->. reflexivity.
  - intros b bs o -> -> Hascii. unfold text_error, decodes. now rewrite Hascii.
Qed.

(** X2: [Heuristic.check] returns a classification in three cases only:
    OLD when the age is above 30 days; else OBSOLETE when the live file is
    no regular file; else SAME when live file and derived ancestor are both
    empty files.  ORPHANED, NESTED, YOUNG and NONE are never returned. *)
Theorem check_closed_form (self : ConflictFile) (args : Args) (w : World) (h : Z) :
  fst (Heuristic_check self args w) = Ok h
  ↔ ∃ age,
      fst (ConflictFile_age_in_seconds self w) = Ok age
      ∧ ((30 * 86400 < age ∧ h = Heuristic_OLD)
         ∨ (age ≤ 30 * 86400 ∧ is_file w (path_selected w self) = false
            ∧ h = Heuristic_OBSOLETE)
         ∨ (age ≤ 30 * 86400
            ∧ fs w !! path_selected w self = Some (File [])
            ∧ fs w !! path_original w self = Some (File [])
            ∧ h = Heuristic_SAME)).
Proof.
  rewrite Heuristic_check_eq. unfold check_result.
  destruct (fst (ConflictFile_age_in_seconds self w)) as [age|e]; unfold mbind, result_bind; cbn beta iota;
    [|split; [intros H; discriminate H|intros (a & [=] & _)]].
  pose proof (is_same_true_iff self args w) as Hsame.
  rewrite is_same_eq in Hsame. cbn [fst] in Hsame.
  pose proof (is_same_never_False self args w) as Hnf.
  rewrite is_same_eq in Hnf. cbn [fst] in Hnf.
  destruct (Z.ltb_spec (30 * 60 * 60 * 24) age) as [Hlt|Hle].
  - split.
    + intros [= <-]. exists age. split; [reflexivity|]. left. split; [lia|reflexivity].
    + intros (a & [= <-] & [[_ ->]|[(? & _)|(? & _)]]); [reflexivity|lia|lia].
  - destruct (is_file w (path_selected w self)) eqn:Hf; cbn [negb].
    + destruct (is_same_result w self) as [[|]|e] eqn:Hs; unfold mbind, result_bind; cbn beta iota.
      * split.
        -- intros [= <-]. exists age. split; [reflexivity|]. right. right.
           destruct (proj1 Hsame eq_refl). split; [lia|]. tauto.
        -- intros (a & [= <-] & [[? _]|[(_ & [=] & _)|(_ & _ & _ & ->)]]);
             [lia|reflexivity].
      * congruence.
      * split; [intros H; discriminate H|].
        intros (a & [= <-] & [[? _]|[(_ & [=] & _)|(_ & H1 & H2 & _)]]); [lia|].
        assert (Raise e = Ok true) by (apply Hsame; tauto). discriminate.
    + split.
      * intros [= <-]. exists age. split; [reflexivity|]. right. left.
        split; [lia|]. split; reflexivity.
      * intros (a & [= <-] & [[? _]|[(_ & _ & ->)|(_ & H1 & _)]]);
          [lia|reflexivity|].
        unfold is_file in Hf. rewrite H1 in Hf. discriminate.
Qed.

Lemma age_Ok_inv (self : ConflictFile) (w w' : World) (age : Z) :
  ConflictFile_age_in_seconds self w = (Ok age, w') →
  ∃ t top, NOW w' = Some t ∧ ConflictFile_top self = Ok top
           ∧ age = Timestamp_delta t (c_timestamp top).
Proof.
  unfold ConflictFile_age_in_seconds, Timestamp_file_age.
  unfold mbind at 1, M_bind.
  destruct (Timestamp_now w) as [[t|e] w1] eqn:Hnow; [|intros H; discriminate H].
  apply Timestamp_now_sets in Hnow. unfold mbind at 1, M_bind, lift.
  destruct (ConflictFile_top self) as [top|e]; [|intros H; discriminate H].
  intros [= <- <-]. eauto.
Qed.

(** X4: [is_old] and [is_young], called one after the other on one record,
    never both answer [True], although the wall clock moves between the
    calls: the second call measures against the memoized instant and leaves
    the state as it is; and when both answer [False], the age lies between
    5 and 30 days. *)
Theorem old_and_young_exclude (self : ConflictFile) (args : Args)
    (w w1 w2 : World) (b1 b2 : bool) :
  Heuristic_is_old self args w = (Ok b1, w1) →
  Heuristic_is_young self args w1 = (Ok b2, w2) →
  w2 = w1 ∧ b1 && b2 = false
  ∧ ∃ age, fst (ConflictFile_age_in_seconds self w) = Ok age
           ∧ b1 = (30 * 86400 <? age) ∧ b2 = (age <? 5 * 86400)
           ∧ (b1 = false → b2 = false → 5 * 86400 ≤ age ≤ 30 * 86400).
Proof.
  rewrite is_old_eq, is_young_eq.
  destruct (ConflictFile_age_in_seconds self w) as [[age|e] w'] eqn:Hage;
    [|intros H; discriminate H].
  destruct (age_Ok_inv _ _ _ _ Hage) as (t & top & Hnow & Htop & ->).
  unfold mbind, result_bind. intros [= <- <-].
  rewrite (file_age_memo t) by exact Hnow. rewrite Htop.
  unfold mbind, result_bind. intros [= <- <-].
  split; [reflexivity|]. split.
  - destruct (Z.ltb_spec (30 * 60 * 60 * 24) (Timestamp_delta t (c_timestamp top)));
      destruct (Z.ltb_spec (Timestamp_delta t (c_timestamp top)) (5 * 60 * 60 * 24));
      try reflexivity; lia.
  - eexists. split; [reflexivity|]. split; [reflexivity|]. split; [reflexivity|].
    intros H1 H2. apply Z.ltb_ge in H1, H2. lia.
Qed.

Lemma old_and_young_exclude_witness :
  ∃ w1, Heuristic_is_old record_1 dry_args world_D = (Ok false, w1)
        ∧ Heuristic_is_young record_1 dry_args w1 = (Ok false, w1)
        ∧ ∃ age, fst (ConflictFile_age_in_seconds record_1 world_D) = Ok age
                 ∧ 5 * 86400 ≤ age ≤ 30 * 86400.
Proof.
  exists (set_NOW (Some (stamp 2023 1 11 12 0 0)) (set_ticks 1 world_D)).
  split; [reflexivity|]. split; [reflexivity|].
  destruct (old_and_young_exclude record_1 dry_args world_D
              (set_NOW (Some (stamp 2023 1 11 12 0 0)) (set_ticks 1 world_D))
              (set_NOW (Some (stamp 2023 1 11 12 0 0)) (set_ticks 1 world_D))
              false false)
    as (_ & _ & age & Hage & _ & _ & Hbetween); [reflexivity|reflexivity|].
  exists age. split; [exact Hage|]. apply Hbetween; reflexivity.
Defined.

(** ** [Cli.actions] *)

Lemma Cli_actions_loop_DELETE (args : Args) (items : list (string * ref))
    (dels : list ref) (w w' : World) (acts : list (list ref)) :
  Cli_actions_loop args items [dels; []; []] w = (Ok acts, w') →
  acts = [(dels ++ items.*2)%list; []; []].
Proof.
  revert dels w. induction items as [|[k r] items IH]; intros dels w;
    cbn [Cli_actions_loop].
  - intros [= <- <-]. cbn. now rewrite app_nil_r.
  - unfold mbind at 1, M_bind.
    destruct (deref r w) as [[cf|e] w1]; [|intros H; discriminate H].
    unfold mbind at 1, M_bind.
    destruct (Heuristic_check cf args w1) as [[h|e] w2] eqn:Hcheck;
      [|intros H; discriminate H].
    assert (Hh : Action_mapping h = Ok Action_DELETE).
    { pose proof (Heuristic_check_returns cf args w1 h) as Hr.
      rewrite Hcheck in Hr. destruct (Hr eq_refl) as [->|[->| ->]]; reflexivity. }
    unfold mbind at 1, M_bind, lift. rewrite Hh.
    unfold mbind at 1, M_bind.
    change (actions_append [dels; []; []] Action_DELETE r)
      with (Ok [(dels ++ [r])%list; []; []] : result (list (list ref))).
    intros H. apply IH in H. rewrite H. cbn [fmap list_fmap snd].
    now rewrite <- app_assoc.
Qed.

(** X3: when [Cli.actions] returns, every record of the index stands in the
    DELETE list, in the order of the index, and the BACKUP list and the
    PROMPT list are empty. *)
Theorem actions_all_DELETE (args : Args) (conflict_map : list (string * ref))
    (w w' : World) (actions : list (list ref)) :
  Cli_actions args conflict_map w = (Ok actions, w') →
  actions = [conflict_map.*2; []; []].
Proof. intros H. now apply Cli_actions_loop_DELETE in H. Qed.

Lemma actions_all_DELETE_witness :
  ∃ actions w', Cli_actions dry_args [("/data/" +:+ name_1, 0%nat)] world_O
                = (Ok actions, w')
                ∧ actions = [[0%nat]; []; []].
Proof.
  eexists. eexists. split; [vm_compute; reflexivity|].
  apply (actions_all_DELETE dry_args [("/data/" +:+ name_1, 0%nat)] world_O
           (set_NOW (Some (stamp 2024 6 1 0 0 0)) (set_ticks 1 world_O))).
  vm_compute. reflexivity.
Defined.

(** ** [ConflictFile.set_parent] *)

(** The call in full: the child is written first, the parent is read after
    that, so that an object linked to itself is handled as well. *)
Lemma set_parent_Ok (self parent : ref) (w : World) (me p : ConflictFile) :
  heap w !! self = Some me → cf_parent me = None →
  <[self := with_links (Some parent) (cf_children me) me]> (heap w) !! parent = Some p →
  self ∉ cf_children p →
  ConflictFile_set_parent self parent w
  = (Ok tt,
     set_heap (<[parent := with_links (cf_parent p) (cf_children p ++ [self])%list p]>
                 (<[self := with_links (Some parent) (cf_children me) me]> (heap w))) w).
Proof.
  intros Hme Hnone Hp Hnotin. unfold ConflictFile_set_parent.
  unfold mbind at 1, M_bind, deref. rewrite Hme. cbn [of_option].
  unfold mbind at 1, M_bind, lift, assert.
  rewrite (bool_decide_eq_true_2 _ Hnone).
  unfold mbind at 1, M_bind, store, modify.
  unfold mbind at 1, M_bind. cbn [heap set_heap].
  change (mkConflictFile (cf_path me) (cf_base me) (cf_name me) (cf_conflicts me)
            (cf_selected me) (cf_ext me) (cf_original me) (cf_root me)
            (Some parent) (cf_children me))
    with (with_links (Some parent) (cf_children me) me).
  rewrite Hp. cbn [of_option].
  unfold mbind at 1, M_bind. rewrite (bool_decide_eq_false_2 _ Hnotin). cbn [negb].
  reflexivity.
Qed.

(** X5: [set_parent] on a child without parent and a parent, another
    object, that does not list the child yet: the call returns, the child's
    [parent] is the parent, the child is the last of the parent's
    [children], and no other object and nothing else in the state changes. *)
Theorem set_parent_links (self parent : ref) (w : World) (me p : ConflictFile) :
  heap w !! self = Some me → cf_parent me = None →
  heap w !! parent = Some p → self ∉ cf_children p → self ≠ parent →
  ∃ w', ConflictFile_set_parent self parent w = (Ok tt, w')
        ∧ heap w' !! self = Some (with_links (Some parent) (cf_children me) me)
        ∧ heap w' !! parent
          = Some (with_links (cf_parent p) (cf_children p ++ [self])%list p)
        ∧ (∀ r, r ≠ self → r ≠ parent → heap w' !! r = heap w !! r)
        ∧ length (heap w') = length (heap w)
        ∧ set_heap (heap w) w' = w.
Proof.
  intros Hme Hnone Hp Hnotin Hne.
  assert (Hp1 : <[self := with_links (Some parent) (cf_children me) me]> (heap w)
                !! parent = Some p) by now rewrite list_lookup_insert_ne.
  rewrite (set_parent_Ok self parent w me p Hme Hnone Hp1 Hnotin).
  eexists. split; [reflexivity|]. cbn [heap set_heap].
  pose proof (lookup_lt_Some _ _ _ Hme) as Hlt.
  pose proof (lookup_lt_Some _ _ _ Hp) as Hltp.
  split; [|split; [|split; [|split]]].
  - rewrite list_lookup_insert_ne by congruence.
    now apply list_lookup_insert_eq.
  - apply list_lookup_insert_eq. now rewrite length_insert.
  - intros r Hr1 Hr2. now rewrite !list_lookup_insert_ne by congruence.
  - now rewrite !length_insert.
  - destruct w. reflexivity.
Qed.

Lemma set_parent_links_witness :
  ∃ w', ConflictFile_set_parent 1%nat 0%nat world_12 = (Ok tt, w')
        ∧ heap w' !! 1%nat = Some record_2_linked
        ∧ heap w' !! 0%nat = Some (with_links None [1%nat] record_1).
Proof.
  destruct (set_parent_links 1%nat 0%nat world_12 record_2 record_1)
    as (w' & H & H1 & H0 & _); try reflexivity.
  - cbn. intros H. apply elem_of_nil in H. exact H.
  - discriminate.
  - exists w'. split; [exact H|]. split; [exact H1|exact H0].
Defined.

(** X6: [set_parent] on a child that has a parent raises [AssertionError]
    and changes nothing.  On a child without parent that the parent,
    another object, lists already, it raises [AssertionError] as well, but
    only after it has assigned the child's [parent]. *)
Theorem set_parent_again (self parent : ref) (w : World) (me : ConflictFile) :
  heap w !! self = Some me →
  (cf_parent me ≠ None →
   ConflictFile_set_parent self parent w = (Raise AssertionError, w))
  ∧ (∀ p, cf_parent me = None → heap w !! parent = Some p →
          self ∈ cf_children p → self ≠ parent →
          ConflictFile_set_parent self parent w
          = (Raise AssertionError,
             set_heap (<[self := with_links (Some parent) (cf_children me) me]> (heap w)) w)).
Proof.
  intros Hme. split.
  - intros Hsome. unfold ConflictFile_set_parent.
    unfold mbind at 1, M_bind, deref. rewrite Hme. cbn [of_option].
    unfold mbind at 1, M_bind, lift, assert.
    now rewrite (bool_decide_eq_false_2 _ Hsome).
  - intros p Hnone Hp Hin Hne. unfold ConflictFile_set_parent.
    unfold mbind at 1, M_bind, deref. rewrite Hme. cbn [of_option].
    unfold mbind at 1, M_bind, lift, assert.
    rewrite (bool_decide_eq_true_2 _ Hnone).
    unfold mbind at 1, M_bind, store, modify.
    unfold mbind at 1, M_bind. cbn [heap set_heap].
    rewrite list_lookup_insert_ne by congruence. rewrite Hp. cbn [of_option].
    unfold mbind at 1, M_bind. rewrite (bool_decide_eq_true_2 _ Hin). cbn [negb].
    reflexivity.
Qed.

Lemma set_parent_again_witness :
  ConflictFile_set_parent 1%nat 0%nat (set_heap [record_1; record_2_linked] world_D)
  = (Raise AssertionError, set_heap [record_1; record_2_linked] world_D)
  ∧ ConflictFile_set_parent 1%nat 0%nat
      (set_heap [with_links None [1%nat] record_1; record_2] world_D)
    = (Raise AssertionError,
       set_heap [with_links None [1%nat] record_1; record_2_linked] world_D).
Proof.
  split.
  - apply (set_parent_again 1%nat 0%nat
             (set_heap [record_1; record_2_linked] world_D) record_2_linked);
      [reflexivity|discriminate].
  - destruct (set_parent_again 1%nat 0%nat
                (set_heap [with_links None [1%nat] record_1; record_2] world_D)
                record_2 eq_refl) as [_ H].
    apply (H (with_links None [1%nat] record_1));
      [reflexivity|reflexivity| |discriminate].
    cbn. apply list_elem_of_here.
Defined.

(** ** [Cli.conflict_tree] *)

Lemma with_links_id (cf : ConflictFile) :
  cf_parent cf = None → cf_children cf = [] → with_links None [] cf = cf.
Proof. destruct cf. cbn. intros -> ->. reflexivity. Qed.

Lemma linked_snoc (w : World) (m : list (string * ref)) (done : list ref)
    (r x : ref) (cf : ConflictFile) :
  linked w m (done ++ [r])%list x cf
  = with_links
      (if bool_decide (x ∈ done) || bool_decide (x = r) then parent_in w m cf else None)
      (filter (λ r', parent_of_ref w m r' = Some x) done
       ++ (if bool_decide (parent_of_ref w m r = Some x) then [r] else []))%list
      cf.
Proof.
  unfold linked. f_equal.
  - rewrite <- bool_decide_or.
    rewrite (bool_decide_ext (x ∈ (done ++ [r])%list) (x ∈ done ∨ x = r));
      [reflexivity|].
    rewrite elem_of_app, list_elem_of_singleton. reflexivity.
  - rewrite filter_app, filter_cons, filter_nil.
    destruct (decide (parent_of_ref w m r = Some x)) as [H|H].
    + now rewrite (bool_decide_eq_true_2 _ H).
    + now rewrite (bool_decide_eq_false_2 _ H).
Qed.

Lemma dict_get_Raise {V} (d : list (string * V)) (k : string) (e : exn) :
  dict_get d k = Raise e → e = KeyError.
Proof.
  induction d as [|[k' v] d IH]; cbn [dict_get]; [now intros [= <-]|].
  destruct (Str.eqb k k'); [intros H; discriminate H|exact IH].
Qed.

Lemma dict_get_Ok_in {V} (d : list (string * V)) (k : string) (v : V) :
  dict_get d k = Ok v → v ∈ d.*2.
Proof.
  induction d as [|[k' v'] d IH]; cbn [dict_get]; [intros H; discriminate H|].
  destruct (Str.eqb k k').
  - intros [= ->]. apply list_elem_of_here.
  - intros H. apply list_elem_of_further, IH, H.
Qed.

Lemma linkable_prefix_cons_true (w : World) (m : list (string * ref))
    (r : ref) (l : list ref) :
  finds_original w m r = true →
  linkable_prefix w m (r :: l) = r :: linkable_prefix w m l.
Proof. intros H. cbn [linkable_prefix]. now rewrite H. Qed.

Lemma linkable_prefix_cons_false (w : World) (m : list (string * ref))
    (r : ref) (l : list ref) :
  finds_original w m r = false → linkable_prefix w m (r :: l) = [].
Proof. intros H. cbn [linkable_prefix]. now rewrite H. Qed.

Lemma conflict_tree_loop_links (w : World) (m : list (string * ref)) :
  index_fresh w m →
  ∀ items done h,
    m.*2 = (done ++ items.*2)%list →
    (∀ x, h !! x = linked w m done x <$> heap w !! x) →
    ∃ h', Cli_conflict_tree_loop m items
            (filter (λ r, is_root_ref w r = true) done) (set_heap h w)
          = (if bool_decide (linkable_prefix w m items.*2 = items.*2)
             then Ok (filter (λ r, is_root_ref w r = true) (done ++ items.*2)%list)
             else Raise KeyError,
             set_heap h' w)
          ∧ ∀ x, h' !! x
                 = linked w m (done ++ linkable_prefix w m items.*2)%list x
                   <$> heap w !! x.
Proof.
  intros (Hnd & Hfresh & Hvalid).
  induction items as [|[k r] rest IH]; intros done h Hsplit Hh.
  { exists h. cbn [fmap list_fmap linkable_prefix]. rewrite app_nil_r.
    split; [reflexivity|exact Hh]. }
  cbn [fmap list_fmap snd] in Hsplit.
  assert (Hr_in : r ∈ m.*2).
  { rewrite Hsplit. apply elem_of_app. right. apply list_elem_of_here. }
  assert (Hr_done : r ∉ done).
  { rewrite Hsplit in Hnd. apply NoDup_app in Hnd as (_ & Hdis & _).
    intros Hin. apply (Hdis r Hin). apply list_elem_of_here. }
  destruct (Hvalid r Hr_in) as [cf Hcf].
  assert (Hhr : h !! r = Some (with_links None
                 (filter (λ r', parent_of_ref w m r' = Some r) done) cf)).
  { rewrite Hh, Hcf. cbn. unfold linked.
    now rewrite (bool_decide_eq_false_2 _ Hr_done). }
  assert (Hsplit' : m.*2 = ((done ++ [r]) ++ rest.*2)%list)
    by now rewrite <- app_assoc.
  assert (Hnotin : ∀ x, r ∉ filter (λ r', parent_of_ref w m r' = Some x) done).
  { intros x Hin. apply list_elem_of_filter in Hin as [_ Hin]. contradiction. }
  assert (Hcons : ∀ pre : list ref,
            bool_decide (r :: pre = r :: rest.*2) = bool_decide (pre = rest.*2)).
  { intros pre. apply bool_decide_ext. split; [now intros [= ->]|now intros ->]. }
  cbn [Cli_conflict_tree_loop]. unfold mbind at 1, M_bind, deref.
  cbn [heap set_heap]. rewrite Hhr. cbn [of_option cf_root with_links].
  cbn [fmap list_fmap snd].
  assert (Hfinds : finds_original w m r
                   = cf_root cf || is_Ok (dict_get m (path_original w cf)))
    by (unfold finds_original; now rewrite Hcf).
  destruct (cf_root cf) eqn:Hroot.
  - (* a root *)
    rewrite linkable_prefix_cons_true by (rewrite Hfinds; reflexivity).
    rewrite Hcons.
    replace (done ++ r :: rest.*2)%list with ((done ++ [r]) ++ rest.*2)%list
      by now rewrite <- app_assoc.
    replace (done ++ r :: linkable_prefix w m rest.*2)%list
      with ((done ++ [r]) ++ linkable_prefix w m rest.*2)%list
      by now rewrite <- app_assoc.
    unfold mbind at 1, M_bind, lift, assert.
    rewrite bool_decide_eq_false_2;
      [|intros Hin; apply list_elem_of_filter in Hin as [_ Hin]; contradiction].
    cbn [negb].
    assert (Htree : (filter (λ r0, is_root_ref w r0 = true) done ++ [r])%list
                    = filter (λ r0, is_root_ref w r0 = true) (done ++ [r])%list).
    { rewrite filter_app, filter_cons, filter_nil.
      rewrite decide_True; [reflexivity|]. unfold is_root_ref. now rewrite Hcf. }
    rewrite Htree. apply (IH (done ++ [r])%list h Hsplit').
    intros x. rewrite Hh. destruct (heap w !! x) as [cx|] eqn:Hcx; [|reflexivity].
    cbn. f_equal. rewrite linked_snoc.
    assert (Hpr : parent_of_ref w m r = None).
    { unfold parent_of_ref. rewrite Hcf. cbn. unfold parent_in. now rewrite Hroot. }
    rewrite Hpr. rewrite (bool_decide_eq_false_2 (None = Some x)) by discriminate.
    rewrite app_nil_r. unfold linked. f_equal.
    destruct (decide (x = r)) as [->|Hne].
    + rewrite (bool_decide_eq_false_2 _ Hr_done).
      rewrite (bool_decide_eq_true_2 (r = r)) by reflexivity. cbn.
      rewrite Hcf in Hcx. injection Hcx as <-. unfold parent_in. now rewrite Hroot.
    + rewrite (bool_decide_eq_false_2 (x = r)) by assumption. now rewrite orb_false_r.
  - (* a conflict of a conflict *)
    set (me := with_links None (filter (λ r', parent_of_ref w m r' = Some r) done) cf).
    rewrite (bind_Ok _ _ _ _ _ (canonical_original_eq me (set_heap h w))).
    change (path_original (set_heap h w) me) with (path_original w cf).
    unfold mbind at 1, M_bind, lift.
    destruct (dict_get m (path_original w cf)) as [o|e] eqn:Hget;
      cbn [is_Ok orb] in Hfinds.
    2:{ (* its original is no key *)
        apply dict_get_Raise in Hget. subst e.
        rewrite linkable_prefix_cons_false by exact Hfinds.
        rewrite bool_decide_eq_false_2 by discriminate.
        exists h. rewrite app_nil_r. split; [reflexivity|exact Hh]. }
    rewrite linkable_prefix_cons_true by exact Hfinds.
    rewrite Hcons.
    replace (done ++ r :: rest.*2)%list with ((done ++ [r]) ++ rest.*2)%list
      by now rewrite <- app_assoc.
    replace (done ++ r :: linkable_prefix w m rest.*2)%list
      with ((done ++ [r]) ++ linkable_prefix w m rest.*2)%list
      by now rewrite <- app_assoc.
    destruct (Hvalid o (dict_get_Ok_in _ _ _ Hget)) as [co Hco].
    assert (Hpr : parent_of_ref w m r = Some o).
    { unfold parent_of_ref. rewrite Hcf. cbn. unfold parent_in.
      now rewrite Hroot, Hget. }
    unfold mbind at 1, M_bind.
    set (h1 := (<[r := with_links (Some o) (cf_children me) me]> h)).
    assert (Hlen : (r < length h)%nat) by (eapply lookup_lt_Some; exact Hhr).
    assert (Hp : ∃ p, h1 !! o = Some p ∧ (r ∉ cf_children p)
                      ∧ with_links (cf_parent p) (cf_children p ++ [r])%list p
                        = linked w m (done ++ [r])%list o co).
    { destruct (decide (o = r)) as [->|Hne].
      - exists (with_links (Some r) (cf_children me) me). split.
        + unfold h1. now apply list_lookup_insert_eq.
        + split; [apply Hnotin|]. rewrite linked_snoc, Hpr.
          rewrite (bool_decide_eq_true_2 (Some r = Some r)) by reflexivity.
          rewrite (bool_decide_eq_true_2 (r = r)) by reflexivity.
          rewrite orb_true_r. rewrite Hcf in Hco. injection Hco as <-.
          unfold parent_in. rewrite Hroot, Hget. reflexivity.
      - exists (linked w m done o co). split.
        + unfold h1. rewrite list_lookup_insert_ne by congruence.
          rewrite Hh, Hco. reflexivity.
        + split; [apply Hnotin|]. rewrite linked_snoc, Hpr.
          rewrite (bool_decide_eq_true_2 (Some o = Some o)) by reflexivity.
          rewrite (bool_decide_eq_false_2 (o = r)) by assumption.
          rewrite orb_false_r. reflexivity. }
    destruct Hp as (p & Hp & Hpnotin & Hplinked).
    rewrite (set_parent_Ok r o (set_heap h w) me p Hhr eq_refl Hp Hpnotin).
    cbn [heap set_heap].
    assert (Htree : filter (λ r0, is_root_ref w r0 = true) done
                    = filter (λ r0, is_root_ref w r0 = true) (done ++ [r])%list).
    { rewrite filter_app, filter_cons, filter_nil.
      rewrite decide_False; [now rewrite app_nil_r|].
      unfold is_root_ref. rewrite Hcf, Hroot. discriminate. }
    rewrite Htree.
    change (set_heap ?a (set_heap h w)) with (set_heap a w).
    apply (IH (done ++ [r])%list _ Hsplit').
    intros x. rewrite Hplinked.
    destruct (decide (x = o)) as [->|Hxo].
    + rewrite list_lookup_insert_eq, Hco; [reflexivity|].
      unfold h1. rewrite length_insert.
      destruct (decide (o = r)) as [->|Hne]; [assumption|].
      apply (lookup_lt_Some _ _ (linked w m done o co)). now rewrite Hh, Hco.
    + rewrite list_lookup_insert_ne by congruence. unfold h1.
      destruct (decide (x = r)) as [->|Hxr].
      * rewrite list_lookup_insert_eq by assumption. rewrite Hcf. cbn. f_equal.
        rewrite linked_snoc, Hpr.
        rewrite (bool_decide_eq_false_2 (Some o = Some r)) by congruence.
        rewrite (bool_decide_eq_true_2 (r = r)) by reflexivity.
        rewrite orb_true_r, app_nil_r. unfold parent_in. rewrite Hroot, Hget.
        reflexivity.
      * rewrite list_lookup_insert_ne by congruence. rewrite Hh.
        destruct (heap w !! x) as [cx|]; [|reflexivity]. cbn. f_equal.
        rewrite linked_snoc, Hpr.
        rewrite (bool_decide_eq_false_2 (Some o = Some x)) by congruence.
        rewrite (bool_decide_eq_false_2 (x = r)) by assumption.
        now rewrite orb_false_r, app_nil_r.
Qed.

Lemma linkable_prefix_all (w : World) (m : list (string * ref)) (l : list ref) :
  (∀ r, r ∈ l → finds_original w m r = true) → linkable_prefix w m l = l.
Proof.
  induction l as [|r l IH]; intros H; [reflexivity|].
  rewrite linkable_prefix_cons_true by (apply H, list_elem_of_here).
  f_equal. apply IH. intros x Hx. apply H. now apply list_elem_of_further.
Qed.

Lemma linkable_prefix_some (w : World) (m : list (string * ref)) (l : list ref) (r : ref) :
  r ∈ l → finds_original w m r = false → linkable_prefix w m l ≠ l.
Proof.
  induction l as [|x l IH]; intros Hin Hf; [inversion Hin|].
  destruct (finds_original w m x) eqn:Hx.
  - rewrite linkable_prefix_cons_true by exact Hx. intros [= E]. revert E.
    apply IH; [|exact Hf]. apply elem_of_cons in Hin as [->|Hin]; [congruence|exact Hin].
  - rewrite linkable_prefix_cons_false by exact Hx. discriminate.
Qed.

Lemma conflict_tree_run (w : World) (m : list (string * ref)) :
  index_fresh w m →
  ∃ h', Cli_conflict_tree m w
        = (if bool_decide (linkable_prefix w m m.*2 = m.*2)
           then Ok (filter (λ r, is_root_ref w r = true) m.*2)
           else Raise KeyError,
           set_heap h' w)
        ∧ ∀ x, h' !! x = linked w m (linkable_prefix w m m.*2) x <$> heap w !! x.
Proof.
  intros Hfresh. unfold Cli_conflict_tree.
  destruct (conflict_tree_loop_links w m Hfresh m [] (heap w)) as (h' & Hrun & Hh').
  - reflexivity.
  - intros x. destruct (heap w !! x) as [cf|] eqn:Hcf; [|reflexivity].
    cbn. f_equal. unfold linked. cbn.
    destruct Hfresh as (_ & Hf & _). destruct (Hf x cf Hcf).
    symmetry. now apply with_links_id.
  - exists h'. split; [|exact Hh'].
    replace w with (set_heap (heap w) w) at 1 by (destruct w; reflexivity).
    exact Hrun.
Qed.

(** X7: on an index over fresh objects in which every record is a root or
    finds its canonical original path among the keys, [Cli.conflict_tree]
    returns the roots in the order of the index; afterwards every record of
    the index that is no root has as parent the object under its canonical
    original path, a root has none, the children of an object are the
    records whose parent it is, in the order of the index, and nothing but
    these two attributes has changed. *)
Theorem conflict_tree_links (w : World) (m : list (string * ref)) :
  index_fresh w m →
  (∀ r, r ∈ m.*2 → finds_original w m r = true) →
  ∃ w', Cli_conflict_tree m w
        = (Ok (filter (λ r, is_root_ref w r = true) m.*2), w')
        ∧ (∀ x cf, heap w !! x = Some cf →
             heap w' !! x
             = Some (with_links
                       (if bool_decide (x ∈ m.*2) then parent_in w m cf else None)
                       (filter (λ r, parent_of_ref w m r = Some x) m.*2) cf))
        ∧ length (heap w') = length (heap w)
        ∧ set_heap (heap w) w' = w.
Proof.
  intros Hfresh Hall. destruct (conflict_tree_run w m Hfresh) as (h' & Hrun & Hh').
  rewrite (linkable_prefix_all w m _ Hall) in Hrun, Hh'.
  rewrite bool_decide_eq_true_2 in Hrun by reflexivity.
  exists (set_heap h' w). split; [exact Hrun|]. cbn [heap set_heap].
  split; [|split].
  - intros x cf Hcf. rewrite Hh', Hcf. reflexivity.
  - apply Nat.le_antisymm.
    + destruct (decide (length h' ≤ length (heap w))%nat) as [|Hgt]; [assumption|].
      assert (is_Some (h' !! length (heap w))) as [c Hc]
        by (apply lookup_lt_is_Some; lia).
      rewrite Hh' in Hc. rewrite (lookup_ge_None_2 (heap w)) in Hc by lia.
      discriminate.
    + destruct (decide (length (heap w) ≤ length h')%nat) as [|Hgt]; [assumption|].
      assert (is_Some (heap w !! length h')) as [c Hc]
        by (apply lookup_lt_is_Some; lia).
      pose proof (Hh' (length h')) as E. rewrite Hc in E.
      rewrite (lookup_ge_None_2 h') in E by lia. discriminate.
  - destruct w. reflexivity.
Qed.

(** X9: on an index over fresh objects in which some record that is no root
    does not find its canonical original path among the keys,
    [Cli.conflict_tree] raises [KeyError]; the records in front of the
    first such record have been linked by then, and stay linked. *)
Theorem conflict_tree_KeyError (w : World) (m : list (string * ref)) (r : ref) :
  index_fresh w m →
  r ∈ m.*2 → finds_original w m r = false →
  ∃ w', Cli_conflict_tree m w = (Raise KeyError, w')
        ∧ (∀ x cf, heap w !! x = Some cf →
             heap w' !! x = Some (linked w m (linkable_prefix w m m.*2) x cf))
        ∧ set_heap (heap w) w' = w.
Proof.
  intros Hfresh Hin Hf. destruct (conflict_tree_run w m Hfresh) as (h' & Hrun & Hh').
  rewrite bool_decide_eq_false_2 in Hrun
    by (apply (linkable_prefix_some w m _ r); assumption).
  exists (set_heap h' w). split; [exact Hrun|]. cbn [heap set_heap]. split.
  - intros x cf Hcf. rewrite Hh', Hcf. reflexivity.
  - destruct w. reflexivity.
Qed.

Lemma index_12_fresh : index_fresh world_12 index_12.
Proof.
  split; [|split].
  - cbn. apply NoDup_cons. split; [|apply NoDup_singleton].
    rewrite list_elem_of_singleton. discriminate.
  - intros [|[|x]] cf; cbn; intros [= <-]; split; reflexivity.
  - intros r Hr. cbn in Hr. rewrite !elem_of_cons, elem_of_nil in Hr.
    destruct Hr as [->|[->|[]]]; eexists; reflexivity.
Qed.

Lemma index_12_finds (r : ref) :
  r ∈ index_12.*2 → finds_original world_12 index_12 r = true.
Proof.
  intros Hr. cbn in Hr. rewrite !elem_of_cons, elem_of_nil in Hr.
  destruct Hr as [->|[->|[]]]; vm_compute; reflexivity.
Qed.

Lemma conflict_tree_links_witness :
  ∃ w', Cli_conflict_tree index_12 world_12 = (Ok [0%nat], w')
        ∧ heap w' !! 0%nat = Some (with_links None [1%nat] record_1)
        ∧ heap w' !! 1%nat = Some record_2_linked.
Proof.
  destruct (conflict_tree_links world_12 index_12 index_12_fresh index_12_finds)
    as (w' & Hrun & Hheap & _).
  exists w'. split; [exact Hrun|].
  split; [exact (Hheap 0%nat record_1 eq_refl)|exact (Hheap 1%nat record_2 eq_refl)].
Defined.

Lemma conflict_tree_KeyError_witness :
  ∃ w', Cli_conflict_tree [("/data/" +:+ name_2, 0%nat)] (set_heap [record_2] world_N)
        = (Raise KeyError, w')
        ∧ heap w' !! 0%nat = Some record_2.
Proof.
  destruct (conflict_tree_KeyError (set_heap [record_2] world_N)
              [("/data/" +:+ name_2, 0%nat)] 0%nat) as (w' & Hrun & Hheap & _).
  - split; [|split].
    + cbn. apply NoDup_singleton.
    + intros [|x] cf; cbn; intros [= <-]; split; reflexivity.
    + intros r Hr. cbn in Hr. apply list_elem_of_singleton in Hr as ->.
      eexists. reflexivity.
  - cbn. apply list_elem_of_here.
  - vm_compute. reflexivity.
  - exists w'. split; [exact Hrun|]. exact (Hheap 0%nat record_2 eq_refl).
Defined.

(** A second run over the linked objects. *)
Lemma set_parent_has_parent (self parent : ref) (w : World) (me : ConflictFile) :
  heap w !! self = Some me → cf_parent me ≠ None →
  ConflictFile_set_parent self parent w = (Raise AssertionError, w).
Proof.
  intros Hme Hsome. unfold ConflictFile_set_parent.
  unfold mbind at 1, M_bind, deref. rewrite Hme. cbn [of_option].
  unfold mbind at 1, M_bind, lift, assert.
  now rewrite (bool_decide_eq_false_2 _ Hsome).
Qed.

Lemma conflict_tree_loop_again (w : World) (m : list (string * ref))
    (h' : list ConflictFile) :
  index_fresh w m →
  (∀ r, r ∈ m.*2 → finds_original w m r = true) →
  (∀ x, h' !! x = linked w m m.*2 x <$> heap w !! x) →
  ∀ items done tree,
    m.*2 = (done ++ items.*2)%list →
    (∀ x, x ∈ tree → x ∈ done) →
    (∃ r, r ∈ items.*2 ∧ is_root_ref w r = false) →
    Cli_conflict_tree_loop m items tree (set_heap h' w)
    = (Raise AssertionError, set_heap h' w).
Proof.
  intros (Hnd & Hfresh & Hvalid) Hall Hh'.
  induction items as [|[k r] rest IH]; intros done tree Hsplit Htree (r0 & Hr0 & Hnr).
  { inversion Hr0. }
  cbn [fmap list_fmap snd] in Hsplit, Hr0.
  assert (Hr_in : r ∈ m.*2).
  { rewrite Hsplit. apply elem_of_app. right. apply list_elem_of_here. }
  assert (Hr_done : r ∉ done).
  { rewrite Hsplit in Hnd. apply NoDup_app in Hnd as (_ & Hdis & _).
    intros Hin. apply (Hdis r Hin). apply list_elem_of_here. }
  destruct (Hvalid r Hr_in) as [cf Hcf].
  assert (Hhr : h' !! r = Some (linked w m m.*2 r cf)) by now rewrite Hh', Hcf.
  cbn [Cli_conflict_tree_loop]. unfold mbind at 1, M_bind, deref.
  cbn [heap set_heap]. rewrite Hhr. cbn [of_option].
  change (cf_root (linked w m m.*2 r cf)) with (cf_root cf).
  pose proof (Hall r Hr_in) as Hfinds. unfold finds_original in Hfinds.
  rewrite Hcf in Hfinds.
  destruct (cf_root cf) eqn:Hroot.
  - unfold mbind at 1, M_bind, lift, assert.
    rewrite bool_decide_eq_false_2 by (intros Hin; apply Hr_done, Htree, Hin).
    cbn [negb]. apply (IH (done ++ [r])%list).
    + now rewrite <- app_assoc.
    + intros x Hx. apply elem_of_app in Hx as [Hx|Hx]; apply elem_of_app;
        [left; now apply Htree|now right].
    + exists r0. split; [|exact Hnr].
      apply elem_of_cons in Hr0 as [->|Hr0]; [|exact Hr0].
      unfold is_root_ref in Hnr. rewrite Hcf, Hroot in Hnr. discriminate.
  - cbn [orb] in Hfinds.
    rewrite (bind_Ok _ _ _ _ _
               (canonical_original_eq (linked w m m.*2 r cf) (set_heap h' w))).
    change (path_original (set_heap h' w) (linked w m m.*2 r cf))
      with (path_original w cf).
    unfold mbind at 1, M_bind, lift.
    destruct (dict_get m (path_original w cf)) as [o|e] eqn:Hget;
      [|discriminate Hfinds].
    unfold mbind at 1, M_bind.
    rewrite (set_parent_has_parent r o (set_heap h' w) (linked w m m.*2 r cf));
      [reflexivity|exact Hhr|].
    unfold linked. cbn [cf_parent with_links].
    rewrite (bool_decide_eq_true_2 _ Hr_in). unfold parent_in.
    rewrite Hroot, Hget. discriminate.
Qed.

(** X8: [Cli.conflict_tree] cannot be run twice: after a run that has
    linked the records of an index with at least one record that is no
    root, a second run over the same index raises [AssertionError], out of
    [set_parent], and leaves the objects as the first run has linked them. *)
Theorem conflict_tree_twice (w : World) (m : list (string * ref)) (r : ref) :
  index_fresh w m →
  (∀ r, r ∈ m.*2 → finds_original w m r = true) →
  r ∈ m.*2 → is_root_ref w r = false →
  ∃ tree w1, Cli_conflict_tree m w = (Ok tree, w1)
             ∧ Cli_conflict_tree m w1 = (Raise AssertionError, w1).
Proof.
  intros Hfresh Hall Hin Hnr.
  destruct (conflict_tree_run w m Hfresh) as (h' & Hrun & Hh').
  rewrite (linkable_prefix_all w m _ Hall) in Hrun, Hh'.
  rewrite bool_decide_eq_true_2 in Hrun by reflexivity.
  eexists. exists (set_heap h' w). split; [exact Hrun|].
  unfold Cli_conflict_tree.
  apply (conflict_tree_loop_again w m h' Hfresh Hall Hh' m [] []).
  - reflexivity.
  - intros x Hx. inversion Hx.
  - exists r. split; assumption.
Qed.

Lemma conflict_tree_twice_witness :
  ∃ tree w1, Cli_conflict_tree index_12 world_12 = (Ok tree, w1)
             ∧ Cli_conflict_tree index_12 w1 = (Raise AssertionError, w1).
Proof.
  apply (conflict_tree_twice world_12 index_12 1%nat index_12_fresh index_12_finds).
  - cbn. apply list_elem_of_further, list_elem_of_here.
  - reflexivity.
Defined.

(** ** The scan of a name *)

Lemma groups_text_38 (g : groups) : groups_wf g → String.length (groups_text g) = 38%nat.
Proof.
  intros Hg. destruct (groups_text_length g Hg) as (tail & -> & Hlen).
  cbn [String.length]. now rewrite Hlen.
Qed.

Lemma tokens_count (ts : list token) :
  Forall token_wf ts →
  String.length (Str.concat (map token_text ts))
  = (String.length (string_of_lits ts)
     + 38 * length (omap (λ t, match t with Match g => Some g | Lit _ => None end) ts))%nat.
Proof.
  induction 1 as [|[c|g] ts Hwf _ IH]; [reflexivity| |].
  - cbn [map Str.concat token_text string_of_lits omap list_omap].
    rewrite str_app_cons. cbn [String.length]. rewrite str_app_nil_l. lia.
  - cbn [map Str.concat token_text string_of_lits omap list_omap length].
    rewrite str_app_length, (groups_text_38 g Hwf). lia.
Qed.

Lemma no_match_lits (ts : list token) :
  omap (λ t, match t with Match g => Some g | Lit _ => None end) ts = [] →
  Str.concat (map token_text ts) = string_of_lits ts.
Proof.
  induction ts as [|[c|g] ts IH]; cbn [omap list_omap]; [reflexivity| |discriminate].
  intros H. cbn [map Str.concat token_text string_of_lits].
  now rewrite str_app_cons, str_app_nil_l, IH.
Qed.

(** X10: every match of [Conflict.REGEX] in a name takes 38 characters and
    has groups of 4, 2, 2, 2, 2, 2 digits and 7 characters of [0-9A-Z]:
    removing the matches shortens the name by 38 characters a match, and
    [finditer] finds nothing exactly when [sub] leaves the name as it is. *)
Theorem scan_of_a_name (name : string) :
  String.length name
  = (String.length (Conflict_REGEX_sub_empty name)
     + 38 * length (Conflict_REGEX_finditer name))%nat
  ∧ Forall groups_wf (Conflict_REGEX_finditer name)
  ∧ (Conflict_REGEX_finditer name = [] ↔ Conflict_REGEX_sub_empty name = name).
Proof.
  destruct (tokens_text name) as [Htext Hwf].
  pose proof (tokens_count (tokens name) Hwf) as Hcount. rewrite Htext in Hcount.
  unfold Conflict_REGEX_sub_empty, Conflict_REGEX_finditer.
  split; [exact Hcount|]. split.
  - clear Htext Hcount. induction Hwf as [|[c|g] ts Hg _ IH];
      cbn [omap list_omap]; [constructor|exact IH|].
    constructor; [exact Hg|exact IH].
  - split.
    + intros H. rewrite <- Htext at 2. symmetry. now apply no_match_lits.
    + intros H. rewrite H in Hcount.
      destruct (omap _ (tokens name)); [reflexivity|cbn [length] in Hcount; lia].
Qed.

(** ** Printing and parsing markers *)

Lemma expect_app (lit s : string) : expect lit (lit +:+ s) = Some s.
Proof.
  induction lit as [|c lit IH]; [reflexivity|].
  rewrite str_app_cons. cbn [expect]. now rewrite Ascii.eqb_refl.
Qed.

Lemma take_class_app (p : ascii → bool) (n : nat) (g s : string) :
  String.length g = n → all_chars p g = true →
  take_class p n (g +:+ s) = Some (g, s).
Proof.
  intros <-. induction g as [|c g IH]; [reflexivity|].
  cbn [all_chars String.length]. intros H. apply andb_true_iff in H as [Hc Hg].
  rewrite str_app_cons. cbn [take_class]. rewrite Hc, (IH Hg). reflexivity.
Qed.

Lemma REGEX_match_complete (g : groups) (rest : string) :
  groups_wf g → Conflict_REGEX_match (groups_text g +:+ rest) = Some (g, rest).
Proof.
  intros ([Ly Dy] & [Lm Dm] & [Ld Dd] & [Lh Dh] & [Lmi Dmi] & [Ls Ds] & [Lu Du]).
  unfold Conflict_REGEX_match, groups_text. rewrite !str_app_assoc.
  rewrite expect_app. cbn [mbind option_bind].
  rewrite (take_class_app _ _ _ _ Ly Dy). cbn [mbind option_bind].
  rewrite (take_class_app _ _ _ _ Lm Dm). cbn [mbind option_bind].
  rewrite (take_class_app _ _ _ _ Ld Dd). cbn [mbind option_bind].
  rewrite expect_app. cbn [mbind option_bind].
  rewrite (take_class_app _ _ _ _ Lh Dh). cbn [mbind option_bind].
  rewrite (take_class_app _ _ _ _ Lmi Dmi). cbn [mbind option_bind].
  rewrite (take_class_app _ _ _ _ Ls Ds). cbn [mbind option_bind].
  rewrite expect_app. cbn [mbind option_bind].
  rewrite (take_class_app _ _ _ _ Lu Du). cbn [mbind option_bind].
  destruct g. reflexivity.
Qed.

Lemma tokens_of_match (g : groups) (rest : string) :
  groups_wf g → tokens (groups_text g +:+ rest) = Match g :: tokens rest.
Proof.
  intros Hg. unfold tokens.
  pose proof (REGEX_match_complete g rest Hg) as Hm.
  destruct (groups_text_length g Hg) as (tail & Htext & Hlen).
  rewrite Htext, str_app_cons in *. cbn [tokens_from]. rewrite Hm.
  now rewrite <- Hlen, tokens_from_skip.
Qed.

Lemma finditer_of_texts (gs : list groups) :
  Forall groups_wf gs →
  tokens (Str.concat (map groups_text gs)) = map Match gs.
Proof.
  induction 1 as [|g gs Hg _ IH]; [reflexivity|].
  cbn [map Str.concat]. now rewrite (tokens_of_match g _ Hg), IH.
Qed.

Lemma finditer_wf (name : string) : Forall groups_wf (Conflict_REGEX_finditer name).
Proof.
  destruct (tokens_text name) as [_ Hwf]. unfold Conflict_REGEX_finditer.
  induction Hwf as [|[c|g] ts Hg _ IH]; cbn [omap list_omap];
    [constructor|exact IH|]. constructor; [exact Hg|exact IH].
Qed.

Lemma omap_matches (gs : list groups) :
  omap (λ t, match t with Match g => Some g | Lit _ => None end) (map Match gs) = gs.
Proof. induction gs as [|g gs IH]; [reflexivity|]. cbn. now rewrite IH. Qed.

Lemma finditer_of_wf (gs : list groups) :
  Forall groups_wf gs →
  Conflict_REGEX_finditer (Str.concat (map groups_text gs)) = gs.
Proof.
  intros Hwf. unfold Conflict_REGEX_finditer.
  rewrite (finditer_of_texts _ Hwf). apply omap_matches.
Qed.

Lemma sub_empty_of_wf (gs : list groups) :
  Forall groups_wf gs →
  Conflict_REGEX_sub_empty (Str.concat (map groups_text gs)) = "".
Proof.
  intros Hwf. unfold Conflict_REGEX_sub_empty.
  rewrite (finditer_of_texts _ Hwf). apply string_of_lits_matches.
Qed.

Lemma texts_length (gs : list groups) :
  Forall groups_wf gs →
  String.length (Str.concat (map groups_text gs)) = (38 * length gs)%nat.
Proof.
  induction 1 as [|g gs Hg _ IH]; [reflexivity|].
  cbn [map Str.concat length]. rewrite str_app_length, (groups_text_38 g Hg), IH. lia.
Qed.

(** X11: the markers that [Conflict.parse] returns for a name can be
    printed and parsed again: [Conflict.format] of them is their texts as
    found in the name, one after the other, 38 characters each, and
    [Conflict.parse] of that text returns the same markers; nothing of it
    is left when the matches are removed. *)
Theorem parse_format_round_trip (name : string) (conflicts : list Conflict) :
  Conflict_parse name = Ok conflicts →
  Conflict_format conflicts
  = Str.concat (map groups_text (Conflict_REGEX_finditer name))
  ∧ Conflict_parse (Conflict_format conflicts) = Ok conflicts
  ∧ Conflict_REGEX_sub_empty (Conflict_format conflicts) = ""
  ∧ String.length (Conflict_format conflicts) = (38 * length conflicts)%nat.
Proof.
  intros Hparse. pose proof (finditer_wf name) as Hwf. unfold Conflict_parse in Hparse.
  assert (Hfmt : Conflict_format conflicts
                 = Str.concat (map groups_text (Conflict_REGEX_finditer name))).
  { rewrite Conflict_format_concat. now apply Conflict_parse_matches_text. }
  split; [exact Hfmt|]. rewrite Hfmt.
  set (gs := Conflict_REGEX_finditer name) in *.
  unfold Conflict_parse. rewrite (finditer_of_wf _ Hwf), (sub_empty_of_wf _ Hwf).
  split; [exact Hparse|]. split; [reflexivity|].
  rewrite (texts_length _ Hwf). f_equal. symmetry.
  now apply Conflict_parse_matches_length.
Qed.

Lemma parse_format_round_trip_witness :
  Conflict_format [marker_1; marker_2]
  = Str.concat (map groups_text (Conflict_REGEX_finditer name_2))
  ∧ Conflict_parse (Conflict_format [marker_1; marker_2]) = Ok [marker_1; marker_2]
  ∧ Conflict_REGEX_sub_empty (Conflict_format [marker_1; marker_2]) = ""
  ∧ String.length (Conflict_format [marker_1; marker_2]) = (38 * 2)%nat.
Proof.
  apply (parse_format_round_trip name_2 [marker_1; marker_2]).
  vm_compute. reflexivity.
Defined.

(** ** The names a record stands for *)

Lemma Conflict_parse_matches_but_last (ms : list groups) (cs : list Conflict) :
  Conflict_parse_matches ms = Ok cs →
  Conflict_parse_matches (but_last ms) = Ok (but_last cs).
Proof.
  revert cs. induction ms as [|g ms IH]; intros cs; cbn [Conflict_parse_matches].
  - intros [= <-]. reflexivity.
  - destruct (Conflict_init _ _ _) as [c|e] eqn:E; [|intros H; discriminate H].
    unfold mbind at 1, result_bind at 1.
    destruct (Conflict_parse_matches ms) as [cs'|e] eqn:E'; [|intros H; discriminate H].
    unfold mbind, result_bind. intros [= <-].
    destruct ms as [|g' ms].
    + cbn in E'. injection E' as <-. reflexivity.
    + pose proof (Conflict_parse_matches_length _ _ E') as Hlen.
      destruct cs' as [|c' cs']; [discriminate Hlen|].
      change (but_last (g :: g' :: ms)) with (g :: but_last (g' :: ms)).
      change (but_last (c :: c' :: cs')) with (c :: but_last (c' :: cs')).
      cbn [Conflict_parse_matches]. rewrite E, (IH _ eq_refl). reflexivity.
Qed.

Lemma Forall_but_last {A} (P : A → Prop) (l : list A) :
  Forall P l → Forall P (but_last l).
Proof.
  induction 1 as [|a l Ha Hl IH]; [constructor|].
  destruct l as [|b l]; [constructor|].
  change (but_last (a :: b :: l)) with (a :: but_last (b :: l)).
  constructor; assumption.
Qed.

(** X12: for a name that the scan splits into a stem, one or more markers
    in a row and an extension, where [splitext] splits stem and extension
    there and every marker carries a date and a time, the record is built
    with: [selected] the stem, [ext] the extension, [original] the stem with
    all markers but the last, and root exactly when there is one marker.
    Its canonical selected path names the live file, stem and extension,
    and its canonical original path the file one conflict back, both in
    the real path of the record's directory. *)
Theorem derived_names (path base name stem ext : string)
    (ms : list groups) (cs : list Conflict) :
  tokens name = (lits stem ++ map Match ms ++ lits ext)%list →
  ms ≠ [] →
  os_path.splitext (stem +:+ ext) = (stem, ext) →
  Conflict_parse name = Ok cs →
  ∃ self, scan_file path base name = Ok (Some self)
          ∧ cf_selected self = stem ∧ cf_ext self = ext
          ∧ cf_original self = stem +:+ Str.concat (map groups_text (but_last ms))
          ∧ cf_root self = bool_decide (length ms = 1%nat)
          ∧ ∀ w, path_selected w self = os_path.join (realpath w base) (stem +:+ ext)
                 ∧ path_original w self
                   = os_path.join (realpath w base)
                       ((stem +:+ Str.concat (map groups_text (but_last ms))) +:+ ext).
Proof.
  intros Htok Hne Hsplit Hparse.
  destruct (canonical_round_trip path base name stem ext ms cs Htok Hne Hsplit Hparse)
    as (self & Hscan & Hsel & Hext & Hcs & _).
  exists self. split; [exact Hscan|]. split; [exact Hsel|]. split; [exact Hext|].
  unfold scan_file in Hscan. rewrite Hparse in Hscan.
  unfold mbind at 1, result_bind at 1 in Hscan.
  destruct cs as [|c cs'] eqn:Ecs; [discriminate Hscan|]. rewrite <- Ecs in *.
  destruct (ConflictFile_init path base name cs) as [cf|e] eqn:Hinit;
    [|discriminate Hscan].
  cbn in Hscan. injection Hscan as ->.
  pose proof (root_iff_but_last _ _ _ _ _ Hinit) as [Hr Ho].
  apply ConflictFile_init_inv in Hinit.
  destruct Hinit as (_ & Hbase & _ & _ & _ & Horig & _).
  assert (Hms : Forall groups_wf ms).
  { pose proof (finditer_wf name) as Hwf. unfold Conflict_REGEX_finditer in Hwf.
    now rewrite Htok, matches_of_tokens in Hwf. }
  unfold Conflict_parse, Conflict_REGEX_finditer in Hparse.
  rewrite Htok, matches_of_tokens in Hparse.
  assert (Hfmt : Conflict_format (but_last cs)
                 = Str.concat (map groups_text (but_last ms))).
  { rewrite Conflict_format_concat.
    apply Conflict_parse_matches_text; [now apply Forall_but_last|].
    now apply Conflict_parse_matches_but_last. }
  assert (Horig' : cf_original self
                   = stem +:+ Str.concat (map groups_text (but_last ms)))
    by now rewrite Horig, Hsel, Hfmt.
  split; [exact Horig'|]. split.
  - pose proof (Conflict_parse_matches_length _ _ Hparse) as Hlen.
    assert (Hpos : (1 ≤ length ms)%nat)
      by (destruct ms; [now destruct Hne|cbn; lia]).
    assert (Hiff : cf_root self = true ↔ length ms = 1%nat).
    { rewrite Hr, Ho, but_last_nil_iff. lia. }
    destruct (cf_root self); symmetry.
    + apply bool_decide_eq_true_2. now apply Hiff.
    + apply bool_decide_eq_false_2. intros H1. apply Hiff in H1. discriminate H1.
  - intros w. unfold path_selected, path_original, ConflictFile_format.
    cbn [default]. rewrite Hbase, Hsel, Hext, Horig'.
    change (Conflict_format []) with "". rewrite !str_app_nil_l. split; reflexivity.
Qed.

Lemma derived_names_witness :
  ∃ self, scan_file "/data" "/data" name_2 = Ok (Some self)
          ∧ cf_selected self = "report" ∧ cf_ext self = ".txt"
          ∧ cf_original self = "report.sync-conflict-20230101-120000-ABC1234"
          ∧ cf_root self = false
          ∧ path_selected world_B self = "/data/report.txt"
          ∧ path_original world_B self = "/data/" +:+ name_1.
Proof.
  destruct (derived_names "/data" "/data" name_2 "report" ".txt"
              [ mkGroups "2023" "01" "01" "12" "00" "00" "ABC1234";
                mkGroups "2023" "01" "05" "09" "00" "00" "XYZ9876" ]
              [marker_1; marker_2])
    as (self & Hscan & Hsel & Hext & Horig & Hroot & Hpaths);
    [vm_compute; reflexivity|discriminate|reflexivity|vm_compute; reflexivity|].
  exists self. split; [exact Hscan|]. split; [exact Hsel|]. split; [exact Hext|].
  split; [exact Horig|]. split; [exact Hroot|]. exact (Hpaths world_B).
Defined.

(** ** [ConflictFile.delete] and [ConflictFile.backup], committed *)

Lemma delete_commit_run (self : ConflictFile) (args : Args) (w : World) :
  commit args = true →
  ConflictFile_delete self args w = os_remove (path_name w self) w.
Proof. intros Hc. unfold ConflictFile_delete. rewrite Hc. reflexivity. Qed.

(** X13: with [commit], [delete] of a record whose canonical path is a
    regular file removes that path and no other: the path is absent
    afterwards, every other path resolves as before, and nothing is printed
    and no object changed. *)
Theorem delete_commit (self : ConflictFile) (args : Args) (w : World) :
  commit args = true →
  is_file w (path_name w self) = true →
  ∃ w', ConflictFile_delete self args w = (Ok tt, w')
        ∧ fs w' !! path_name w self = None
        ∧ (∀ p, p ≠ path_name w self → fs w' !! p = fs w !! p)
        ∧ same_but_fs w w'.
Proof.
  intros Hc Hf. rewrite (delete_commit_run _ _ _ Hc). unfold os_remove, is_file in *.
  destruct (fs w !! path_name w self) as [[c|]|]; try discriminate Hf.
  eexists. split; [reflexivity|]. cbn. split; [apply lookup_delete_eq|].
  split; [|repeat split]. intros p Hp. now apply lookup_delete_ne.
Qed.

Lemma delete_commit_witness :
  ∃ w', ConflictFile_delete record_1 commit_args world_D = (Ok tt, w')
        ∧ fs w' !! path_name world_D record_1 = None
        ∧ (∀ p, p ≠ path_name world_D record_1 → fs w' !! p = fs world_D !! p)
        ∧ same_but_fs world_D w'.
Proof. apply (delete_commit record_1 commit_args world_D); reflexivity. Defined.

(** X14: with [commit], [delete] of a record whose canonical path is
    absent or a directory raises ([FileNotFoundError], [IsADirectoryError])
    and leaves the state as it is. *)
Theorem delete_commit_fails (self : ConflictFile) (args : Args) (w : World) :
  commit args = true →
  is_file w (path_name w self) = false →
  ConflictFile_delete self args w
  = (Raise (match fs w !! path_name w self with
            | None => FileNotFoundError
            | Some _ => IsADirectoryError
            end), w).
Proof.
  intros Hc Hf. rewrite (delete_commit_run _ _ _ Hc). unfold os_remove, is_file in *.
  destruct (fs w !! path_name w self) as [[c|]|]; try discriminate Hf; reflexivity.
Qed.

Lemma delete_commit_fails_witness :
  ConflictFile_delete record_2 commit_args world_D = (Raise FileNotFoundError, world_D).
Proof. apply (delete_commit_fails record_2 commit_args world_D); reflexivity. Defined.

Lemma backup_commit_run (self : ConflictFile) (args : Args) (w : World)
    (c : list Byte.byte) :
  commit args = true →
  fs w !! path_name w self = Some (File c) →
  (∀ c', fs w !! ConflictFile_backup_directory self args ≠ Some (File c')) →
  ConflictFile_canonical_backup self args ≠ ConflictFile_backup_directory self args →
  fs w !! ConflictFile_canonical_backup self args ≠ Some Dir →
  ConflictFile_backup self args w
  = (Ok tt,
     set_fs (<[ConflictFile_canonical_backup self args := File c]>
               (delete (path_name w self)
                  (with_dir (ConflictFile_backup_directory self args) (fs w)))) w).
Proof.
  intros Hc Hsrc Hdir Hne Hdst. unfold ConflictFile_backup. rewrite Hc.
  set (d := ConflictFile_backup_directory self args) in *.
  set (t := ConflictFile_canonical_backup self args) in *.
  assert (Hkd : path_name w self ≠ d).
  { intros E. rewrite E in Hsrc. now apply (Hdir c). }
  unfold path_name in *. set (k := os_path.join _ _) in *.
  unfold with_dir, mbind, M_bind, os_path_isdir, gets, os_mkdir, mret, M_ret,
    ConflictFile_canonical_name, os_rename.
  destruct (fs w !! d) as [[c'|]|] eqn:Ed.
  - now destruct (Hdir c').
  - cbn. unfold mbind, M_bind, gets, mret, M_ret. cbn. fold k. rewrite Hsrc.
    destruct (fs w !! t) as [[ct|]|] eqn:Et; [reflexivity|now destruct Hdst|reflexivity].
  - cbn. rewrite Ed. cbn. unfold mbind, M_bind, gets, mret, M_ret. cbn. fold k.
    rewrite lookup_insert_ne by (intros E; now apply Hkd). rewrite Hsrc.
    rewrite lookup_insert_ne by (intros E; now apply Hne).
    destruct (fs w !! t) as [[ct|]|] eqn:Et; [reflexivity|now destruct Hdst|reflexivity].
Qed.

Lemma backup_fs_lookup (f : gmap string node) (d t k : string) (c : list Byte.byte)
    (p : string) :
  (∀ c', f !! d ≠ Some (File c')) →
  <[t := File c]> (delete k (with_dir d f)) !! p
  = if decide (p = t) then Some (File c)
    else if decide (p = k) then None
    else if decide (p = d) then Some Dir
    else f !! p.
Proof.
  intros Hd. destruct (decide (p = t)) as [->|Ht]; [apply lookup_insert_eq|].
  rewrite lookup_insert_ne by congruence.
  destruct (decide (p = k)) as [->|Hk]; [apply lookup_delete_eq|].
  rewrite lookup_delete_ne by congruence. unfold with_dir.
  destruct (decide (p = d)) as [->|Hpd].
  - destruct (f !! d) as [[c'|]|] eqn:E; [now destruct (Hd c')|exact E|].
    apply lookup_insert_eq.
  - destruct (f !! d) as [[c'|]|] eqn:E; [|reflexivity|];
      now rewrite lookup_insert_ne by congruence.
Qed.

(** X15: with [commit], [backup] of a record whose canonical path is a
    regular file moves that file into the backup directory of the folder,
    under its own name: the directory is made unless it is there, the
    content is found at the canonical backup path and no longer at the
    canonical path, every other path resolves as before, and nothing is
    printed and no object changed. *)
Theorem backup_commit (self : ConflictFile) (args : Args) (w : World)
    (c : list Byte.byte) :
  commit args = true →
  fs w !! path_name w self = Some (File c) →
  (∀ c', fs w !! ConflictFile_backup_directory self args ≠ Some (File c')) →
  ConflictFile_canonical_backup self args ≠ ConflictFile_backup_directory self args →
  ConflictFile_canonical_backup self args ≠ path_name w self →
  fs w !! ConflictFile_canonical_backup self args ≠ Some Dir →
  ∃ w', ConflictFile_backup self args w = (Ok tt, w')
        ∧ fs w' !! ConflictFile_canonical_backup self args = Some (File c)
        ∧ fs w' !! path_name w self = None
        ∧ fs w' !! ConflictFile_backup_directory self args = Some Dir
        ∧ (∀ p, p ≠ ConflictFile_canonical_backup self args →
                p ≠ path_name w self →
                p ≠ ConflictFile_backup_directory self args →
                fs w' !! p = fs w !! p)
        ∧ same_but_fs w w'.
Proof.
  intros Hc Hsrc Hdir Hne Hnk Hdst.
  assert (Hkd : path_name w self ≠ ConflictFile_backup_directory self args).
  { intros E. rewrite E in Hsrc. now apply (Hdir c). }
  eexists. split; [now apply (backup_commit_run self args w c)|]. cbn [fs set_fs].
  repeat split.
  - rewrite (backup_fs_lookup _ _ _ _ _ _ Hdir). now rewrite decide_True.
  - rewrite (backup_fs_lookup _ _ _ _ _ _ Hdir).
    rewrite decide_False by congruence. now rewrite decide_True.
  - rewrite (backup_fs_lookup _ _ _ _ _ _ Hdir).
    rewrite !decide_False by congruence. now rewrite decide_True.
  - intros p H1 H2 H3. rewrite (backup_fs_lookup _ _ _ _ _ _ Hdir).
    now rewrite !decide_False by congruence.
Qed.

Lemma backup_commit_witness :
  ∃ w', ConflictFile_backup record_1 commit_args world_D = (Ok tt, w')
        ∧ fs w' !! ("/data/.stbackups/" +:+ name_1) = Some (File (bytes_of "conflict"))
        ∧ fs w' !! ("/data/" +:+ name_1) = None
        ∧ fs w' !! "/data/.stbackups" = Some Dir
        ∧ (∀ p, p ≠ "/data/.stbackups/" +:+ name_1 →
                p ≠ "/data/" +:+ name_1 →
                p ≠ "/data/.stbackups" →
                fs w' !! p = fs world_D !! p)
        ∧ same_but_fs world_D w'.
Proof.
  apply (backup_commit record_1 commit_args world_D (bytes_of "conflict"));
    try reflexivity; try (intros H; discriminate H).
  intros c' H; discriminate H.
Defined.

(** X16: the canonical backup path of a record is made of the folder, the
    backup directory and the name, not of the directory the file is in.
    With [commit], the backups of two records of one folder that carry the
    same name in two directories succeed both, and the second replaces the
    first: the backup path holds the content of the second file, and both
    files are gone from where they were. *)
Theorem backup_same_name (self other : ConflictFile) (args : Args) (w : World)
    (c1 c2 : list Byte.byte) :
  commit args = true →
  cf_path other = cf_path self → cf_name other = cf_name self →
  path_name w other ≠ path_name w self →
  fs w !! path_name w self = Some (File c1) →
  fs w !! path_name w other = Some (File c2) →
  (∀ c', fs w !! ConflictFile_backup_directory self args ≠ Some (File c')) →
  ConflictFile_canonical_backup self args ≠ ConflictFile_backup_directory self args →
  ConflictFile_canonical_backup self args ≠ path_name w self →
  ConflictFile_canonical_backup self args ≠ path_name w other →
  fs w !! ConflictFile_canonical_backup self args ≠ Some Dir →
  ConflictFile_canonical_backup other args = ConflictFile_canonical_backup self args
  ∧ ∃ w1 w2, ConflictFile_backup self args w = (Ok tt, w1)
             ∧ ConflictFile_backup other args w1 = (Ok tt, w2)
             ∧ fs w2 !! ConflictFile_canonical_backup self args = Some (File c2)
             ∧ fs w2 !! path_name w self = None
             ∧ fs w2 !! path_name w other = None
             ∧ (∀ p, p ≠ ConflictFile_canonical_backup self args →
                     p ≠ path_name w self → p ≠ path_name w other →
                     p ≠ ConflictFile_backup_directory self args →
                     fs w2 !! p = fs w !! p).
Proof.
  intros Hc Hpath Hname Hk H1 H2 Hdir Hne Hn1 Hn2 Hdst.
  assert (Ed : ConflictFile_backup_directory other args
               = ConflictFile_backup_directory self args).
  { unfold ConflictFile_backup_directory. now rewrite Hpath. }
  assert (Et : ConflictFile_canonical_backup other args
               = ConflictFile_canonical_backup self args).
  { unfold ConflictFile_canonical_backup. now rewrite Ed, Hname. }
  split; [exact Et|].
  set (d := ConflictFile_backup_directory self args) in *.
  set (t := ConflictFile_canonical_backup self args) in *.
  assert (Hd1 : path_name w self ≠ d).
  { intros E. rewrite E in H1. now apply (Hdir c1). }
  assert (Hd2 : path_name w other ≠ d).
  { intros E. rewrite E in H2. now apply (Hdir c2). }
  pose proof (backup_commit_run self args w c1 Hc H1 Hdir Hne Hdst) as Hrun1.
  fold d t in Hrun1.
  set (w1 := set_fs (<[t := File c1]> (delete (path_name w self) (with_dir d (fs w)))) w)
    in *.
  assert (Hlook : ∀ p, fs w1 !! p
                       = if decide (p = t) then Some (File c1)
                         else if decide (p = path_name w self) then None
                         else if decide (p = d) then Some Dir
                         else fs w !! p).
  { intros p. apply (backup_fs_lookup _ _ _ _ _ _ Hdir). }
  assert (Hdir1 : ∀ c', fs w1 !! ConflictFile_backup_directory other args
                        ≠ Some (File c')).
  { intros c'. rewrite Ed, Hlook.
    rewrite !decide_False by congruence. rewrite decide_True by reflexivity.
    intros H; discriminate H. }
  assert (Hsrc2 : fs w1 !! path_name w1 other = Some (File c2)).
  { change (path_name w1 other) with (path_name w other). rewrite Hlook.
    now rewrite !decide_False by congruence. }
  assert (Hdst2 : fs w1 !! ConflictFile_canonical_backup other args ≠ Some Dir).
  { rewrite Et, Hlook. rewrite decide_True by reflexivity. intros H; discriminate H. }
  assert (Hne2 : ConflictFile_canonical_backup other args
                 ≠ ConflictFile_backup_directory other args) by congruence.
  pose proof (backup_commit_run other args w1 c2 Hc Hsrc2 Hdir1 Hne2 Hdst2) as Hrun2.
  rewrite Et, Ed in Hrun2. fold d t in Hrun2.
  change (path_name w1 other) with (path_name w other) in Hrun2.
  eexists. eexists. split; [exact Hrun1|]. split; [exact Hrun2|]. cbn [fs set_fs].
  assert (Hdir1' : ∀ c', fs w1 !! d ≠ Some (File c')).
  { intros c'. rewrite <- Ed. apply Hdir1. }
  repeat split.
  - rewrite (backup_fs_lookup _ _ _ _ _ _ Hdir1'). now rewrite decide_True.
  - rewrite (backup_fs_lookup _ _ _ _ _ _ Hdir1').
    rewrite !decide_False by congruence.
    rewrite Hlook. rewrite !decide_False by congruence. now rewrite decide_True.
  - rewrite (backup_fs_lookup _ _ _ _ _ _ Hdir1').
    rewrite decide_False by congruence. now rewrite decide_True.
  - intros p P1 P2 P3 P4. rewrite (backup_fs_lookup _ _ _ _ _ _ Hdir1').
    rewrite !decide_False by congruence. rewrite Hlook.
    now rewrite !decide_False by congruence.
Qed.

Lemma backup_same_name_witness :
  ConflictFile_canonical_backup record_b commit_args
  = ConflictFile_canonical_backup record_a commit_args
  ∧ ∃ w1 w2, ConflictFile_backup record_a commit_args world_ab = (Ok tt, w1)
             ∧ ConflictFile_backup record_b commit_args w1 = (Ok tt, w2)
             ∧ fs w2 !! ("/data/.stbackups/" +:+ name_1) = Some (File (bytes_of "from b"))
             ∧ fs w2 !! ("/data/a/" +:+ name_1) = None
             ∧ fs w2 !! ("/data/b/" +:+ name_1) = None
             ∧ (∀ p, p ≠ "/data/.stbackups/" +:+ name_1 →
                     p ≠ "/data/a/" +:+ name_1 → p ≠ "/data/b/" +:+ name_1 →
                     p ≠ "/data/.stbackups" →
                     fs w2 !! p = fs world_ab !! p).
Proof.
  apply (backup_same_name record_a record_b commit_args world_ab
           (bytes_of "from a") (bytes_of "from b"));
    try reflexivity; try (intros H; discriminate H).
  intros c' H; discriminate H.
Defined.

(** ** The run *)

(** What the scan, the index, the forest and the classification leave
    alone: every part of the state that does not depend on the objects and
    on the memoized clock. *)
Section Frame.

Context {B : Type} (proj : World → B).
Hypothesis proj_heap : ∀ h w, proj (set_heap h w) = proj w.
Hypothesis proj_NOW : ∀ t w, proj (set_NOW t w) = proj w.
Hypothesis proj_ticks : ∀ n w, proj (set_ticks n w) = proj w.

Lemma keeps_bind {A C} (m : M A) (f : A → M C) :
  keeps proj m → (∀ a, keeps proj (f a)) → keeps proj (m ≫= f).
Proof.
  intros Hm Hf w. unfold mbind, M_bind. specialize (Hm w).
  destruct (m w) as [[a|e] w1]; cbn in Hm; [|exact Hm].
  now rewrite Hf.
Qed.

Lemma keeps_pure {A} (f : World → result A) : keeps proj (λ w, (f w, w)).
Proof. intros w. reflexivity. Qed.

Lemma keeps_alloc (cf : ConflictFile) : keeps proj (alloc cf).
Proof. intros w. apply proj_heap. Qed.

Lemma keeps_store (r : ref) (cf : ConflictFile) : keeps proj (store r cf).
Proof. intros w. apply proj_heap. Qed.

Lemma keeps_now : keeps proj Timestamp_now.
Proof.
  intros w. unfold Timestamp_now, mbind, M_bind, gets. cbn.
  destruct (NOW w); [reflexivity|]. unfold datetime_now, lift.
  destruct (Timestamp_from_dt _); cbn; [|apply proj_ticks].
  unfold modify. cbn. now rewrite proj_NOW, proj_ticks.
Qed.

Lemma keeps_open (p : string) : keeps proj (open_r p).
Proof. intros w. unfold open_r. destruct (fs w !! p) as [[|]|]; reflexivity. Qed.

Lemma keeps_isfile (p : string) : keeps proj (os_path_isfile p).
Proof. intros w. reflexivity. Qed.

Lemma keeps_scan_files (files : list (string * string * string)) :
  keeps proj (Cli_scan_files files).
Proof.
  induction files as [|[[path base] name] files IH]; cbn [Cli_scan_files].
  - apply (keeps_pure (λ _, Ok [])).
  - apply keeps_bind; [apply keeps_pure|]. intros [cf|]; [|exact IH].
    apply keeps_bind; [apply keeps_alloc|]. intros r.
    apply keeps_bind; [exact IH|]. intros scan. apply (keeps_pure (λ _, Ok _)).
Qed.

Lemma keeps_scan (walk : string → list (string * list string)) (paths : list string) :
  keeps proj (Cli_scan_for_conflicts_loop walk paths).
Proof.
  induction paths as [|path paths IH]; cbn [Cli_scan_for_conflicts_loop].
  - apply (keeps_pure (λ _, Ok [])).
  - apply keeps_bind; [apply keeps_pure|]. intros d.
    apply keeps_bind; [apply keeps_pure|]. intros _.
    apply keeps_bind; [apply keeps_scan_files|]. intros scan.
    apply keeps_bind; [exact IH|]. intros scan'. apply (keeps_pure (λ _, Ok _)).
Qed.

Lemma keeps_canonical_name (cf : ConflictFile) :
  keeps proj (ConflictFile_canonical_name cf).
Proof.
  unfold ConflictFile_canonical_name.
  apply keeps_bind; [apply keeps_pure|]. intros rp. apply (keeps_pure (λ _, Ok _)).
Qed.

Lemma keeps_canonical_original (cf : ConflictFile) :
  keeps proj (ConflictFile_canonical_original cf).
Proof.
  unfold ConflictFile_canonical_original.
  apply keeps_bind; [apply keeps_pure|]. intros rp. apply (keeps_pure (λ _, Ok _)).
Qed.

Lemma keeps_canonical_selected (cf : ConflictFile) :
  keeps proj (ConflictFile_canonical_selected cf).
Proof.
  unfold ConflictFile_canonical_selected.
  apply keeps_bind; [apply keeps_pure|]. intros rp. apply (keeps_pure (λ _, Ok _)).
Qed.

Lemma keeps_conflict_map (scan : list ref) (acc : list (string * ref)) :
  keeps proj (Cli_conflict_map_loop scan acc).
Proof.
  revert acc. induction scan as [|r scan IH]; intros acc; cbn [Cli_conflict_map_loop].
  - apply (keeps_pure (λ _, Ok _)).
  - apply keeps_bind; [apply keeps_pure|]. intros cf.
    apply keeps_bind; [apply keeps_canonical_name|]. intros k. apply IH.
Qed.

Lemma keeps_set_parent (self parent : ref) :
  keeps proj (ConflictFile_set_parent self parent).
Proof.
  unfold ConflictFile_set_parent.
  apply keeps_bind; [apply keeps_pure|]. intros me.
  apply keeps_bind; [apply keeps_pure|]. intros _.
  apply keeps_bind; [apply keeps_store|]. intros _.
  apply keeps_bind; [apply keeps_pure|]. intros p.
  apply keeps_bind; [apply keeps_pure|]. intros _.
  apply keeps_store.
Qed.

Lemma keeps_conflict_tree (m items : list (string * ref)) (tree : list ref) :
  keeps proj (Cli_conflict_tree_loop m items tree).
Proof.
  revert tree. induction items as [|[k r] items IH]; intros tree;
    cbn [Cli_conflict_tree_loop].
  - apply (keeps_pure (λ _, Ok _)).
  - apply keeps_bind; [apply keeps_pure|]. intros cf.
    destruct (cf_root cf).
    + apply keeps_bind; [apply keeps_pure|]. intros _. apply IH.
    + apply keeps_bind; [apply keeps_canonical_original|]. intros k'.
      apply keeps_bind; [apply keeps_pure|]. intros o.
      apply keeps_bind; [apply keeps_set_parent|]. intros _. apply IH.
Qed.

Lemma keeps_age (cf : ConflictFile) : keeps proj (ConflictFile_age_in_seconds cf).
Proof.
  unfold ConflictFile_age_in_seconds, Timestamp_file_age.
  apply keeps_bind; [apply keeps_now|]. intros now.
  apply keeps_bind; [apply keeps_pure|]. intros top. apply (keeps_pure (λ _, Ok _)).
Qed.

Lemma keeps_check (cf : ConflictFile) (args : Args) : keeps proj (Heuristic_check cf args).
Proof.
  unfold Heuristic_check.
  assert (Hall : Forall (λ item, keeps proj (item.2 cf args)) Heuristic_check_mapping).
  { unfold Heuristic_check_mapping.
    repeat (apply Forall_cons; split); try apply Forall_nil_2; cbn [snd].
    - unfold Heuristic_is_old.
      apply keeps_bind; [apply keeps_age|]. intros a. apply (keeps_pure (λ _, Ok _)).
    - unfold Heuristic_is_obsolete.
      apply keeps_bind; [apply keeps_canonical_selected|]. intros p.
      apply keeps_bind; [apply (keeps_isfile p)|]. intros b.
      apply (keeps_pure (λ _, Ok _)).
    - unfold Heuristic_is_same.
      apply keeps_bind; [apply keeps_canonical_selected|]. intros s.
      apply keeps_bind; [apply keeps_canonical_original|]. intros o.
      apply keeps_bind; [apply keeps_open|]. intros fsel.
      apply keeps_bind; [apply keeps_open|]. intros fori.
      apply keeps_bind.
      { apply keeps_bind; [apply keeps_pure|]. intros lines. apply keeps_pure. }
      intros ds. apply keeps_bind.
      { apply keeps_bind; [apply keeps_pure|]. intros lines. apply keeps_pure. }
      intros do. apply (keeps_pure (λ _, Ok _)).
    - unfold Heuristic_is_orphan.
      apply keeps_bind; [apply keeps_canonical_original|]. intros p.
      apply keeps_bind; [apply (keeps_isfile p)|]. intros b.
      apply (keeps_pure (λ _, Ok _)).
    - unfold Heuristic_is_nested. apply (keeps_pure (λ _, Ok _)).
    - unfold Heuristic_is_young.
      apply keeps_bind; [apply keeps_age|]. intros a. apply (keeps_pure (λ _, Ok _)). }
  induction Hall as [|[i h] rest Hh _ IH]; cbn [Heuristic_check_loop].
  - apply (keeps_pure (λ _, Ok _)).
  - apply keeps_bind; [exact Hh|]. intros [|]; [apply (keeps_pure (λ _, Ok _))|exact IH].
Qed.

Lemma keeps_actions (args : Args) (items : list (string * ref))
    (actions : list (list ref)) :
  keeps proj (Cli_actions_loop args items actions).
Proof.
  revert actions. induction items as [|[k r] items IH]; intros actions;
    cbn [Cli_actions_loop].
  - apply (keeps_pure (λ _, Ok _)).
  - apply keeps_bind; [apply keeps_pure|]. intros cf.
    apply keeps_bind; [apply keeps_check|]. intros h.
    apply keeps_bind; [apply keeps_pure|]. intros a.
    apply keeps_bind; [apply keeps_pure|]. intros acts. apply IH.
Qed.

(** [Cli.run] in front of the report. *)
Lemma keeps_classified (args : Args) (walk : string → list (string * list string)) :
  keeps proj (scan ← Cli_scan_for_conflicts args walk;
              conflict_map ← Cli_conflict_map scan;
              _ ← Cli_conflict_tree conflict_map;
              Cli_actions args conflict_map).
Proof.
  apply keeps_bind; [apply keeps_scan|]. intros scan.
  apply keeps_bind; [apply keeps_conflict_map|]. intros m.
  apply keeps_bind; [apply keeps_conflict_tree|]. intros tree.
  apply keeps_actions.
Qed.

End Frame.

Lemma keeps_fs_print (line : string) : keeps fs (print line).
Proof. intros w. reflexivity. Qed.

Lemma keeps_fs_print_files (files : list ref) : keeps fs (print_files files).
Proof.
  induction files as [|f files IH]; cbn [print_files].
  - apply (keeps_pure fs (λ _, Ok _)).
  - apply keeps_bind; [apply keeps_pure|]. intros cf.
    apply keeps_bind; [apply keeps_fs_print|]. intros _. exact IH.
Qed.

Lemma keeps_fs_report (index : nat) (order : list Z) (actions : list (list ref)) :
  keeps fs (Cli_report_loop index order actions).
Proof.
  revert index. induction order as [|a order IH]; intros index; cbn [Cli_report_loop].
  - apply (keeps_pure fs (λ _, Ok _)).
  - apply keeps_bind.
    { destruct (0 <? index)%nat; [apply keeps_fs_print|apply (keeps_pure fs (λ _, Ok _))]. }
    intros _. apply keeps_bind; [apply keeps_pure|]. intros name.
    apply keeps_bind; [apply keeps_pure|]. intros files.
    apply keeps_bind; [apply keeps_fs_print|]. intros _.
    apply keeps_bind; [apply keeps_fs_print_files|]. intros _. apply IH.
Qed.

Lemma Cli_run_eq (prompt : ConflictFile → Args → M unit) (args : Args)
    (walk : string → list (string * list string)) (w : World) :
  Cli_run prompt args walk w = (Cli_run_report args walk ≫= λ _, mret tt) w.
Proof.
  unfold Cli_run, Cli_run_report, mbind, M_bind.
  destruct (Cli_scan_for_conflicts args walk w) as [[scan|e] w1]; [|reflexivity].
  destruct (Cli_conflict_map scan w1) as [[m|e] w2]; [|reflexivity].
  destruct (Cli_conflict_tree m w2) as [[tree|e] w3]; [|reflexivity].
  destruct (Cli_actions args m w3) as [[acts|e] w4] eqn:Hact; [|reflexivity].
  apply Cli_actions_loop_DELETE in Hact. subst acts.
  destruct (Cli_report _ w4) as [[[]|e] w5]; reflexivity.
Qed.

Lemma keeps_fs_run_report (args : Args) (walk : string → list (string * list string)) :
  keeps fs (Cli_run_report args walk).
Proof.
  unfold Cli_run_report.
  apply keeps_bind; [now apply keeps_scan|]. intros scan.
  apply keeps_bind; [now apply keeps_conflict_map|]. intros m.
  apply keeps_bind; [now apply keeps_conflict_tree|]. intros tree.
  apply keeps_bind; [now apply keeps_actions|]. intros acts.
  apply keeps_bind; [apply keeps_fs_report|]. intros _.
  apply (keeps_pure fs (λ _, Ok _)).
Qed.

(** X17: [Cli.run] reports and does nothing else.  No record is ever filed
    under PROMPT, so [prompt] is not called: the result of the run and the
    state it ends in are the same whatever [prompt] does.  [Action.run] is
    not called either, and the file system after the run is the file system
    before it, with [commit] as without, however the run ends. *)
Theorem run_never_acts (prompt prompt' : ConflictFile → Args → M unit) (args : Args)
    (walk : string → list (string * list string)) (w : World) :
  Cli_run prompt args walk w = Cli_run prompt' args walk w
  ∧ fs (Cli_run prompt args walk w).2 = fs w.
Proof.
  rewrite !Cli_run_eq. split; [reflexivity|].
  apply (keeps_bind fs); [apply keeps_fs_run_report|].
  intros acts. apply (keeps_pure fs (λ _, Ok _)).
Qed.

(** ** [Cli.scan_for_conflicts] *)

Lemma set_heap_id (w : World) : set_heap (heap w) w = w.
Proof. now destruct w. Qed.

Lemma to_int_raises (s : string) (e : exn) : Str.to_int s = Raise e → e = ValueError.
Proof.
  unfold Str.to_int. destruct (NilZero.uint_of_string s); intros H;
    [discriminate H|now injection H as <-].
Qed.

Lemma Conflict_init_raises (date time : string * string * string) (uid : string)
    (e : exn) :
  Conflict_init date time uid = Raise e → e = ValueError.
Proof.
  destruct date as [[dy dm] dd], time as [[th tm] ts].
  unfold Conflict_init, Date_init_str, Time_init_str, Timestamp_init, datetime.new.
  destruct (Str.to_int dy) eqn:E1; [|intros [= <-]; exact (to_int_raises _ _ E1)].
  destruct (Str.to_int dm) eqn:E2; [|intros [= <-]; exact (to_int_raises _ _ E2)].
  destruct (Str.to_int dd) eqn:E3; [|intros [= <-]; exact (to_int_raises _ _ E3)].
  destruct (Str.to_int th) eqn:E4; [|intros [= <-]; exact (to_int_raises _ _ E4)].
  destruct (Str.to_int tm) eqn:E5; [|intros [= <-]; exact (to_int_raises _ _ E5)].
  destruct (Str.to_int ts) eqn:E6; [|intros [= <-]; exact (to_int_raises _ _ E6)].
  cbn. destruct (datetime.valid _ _ _ _ _ _); cbn; intros H;
    [discriminate H|now injection H as <-].
Qed.

Lemma Conflict_parse_raises (ms : list groups) (e : exn) :
  Conflict_parse_matches ms = Raise e → e = ValueError.
Proof.
  induction ms as [|g ms IH]; cbn [Conflict_parse_matches]; [intros H; discriminate H|].
  destruct (Conflict_init _ _ _) as [c|e'] eqn:E.
  - cbn [mbind result_bind]. destruct (Conflict_parse_matches ms) as [cs|e''].
    + intros H; discriminate H.
    + cbn. intros [= <-]. now apply IH.
  - cbn. intros [= <-]. now apply Conflict_init_raises in E.
Qed.

Lemma scan_file_cases (path base name : string) :
  match scan_file path base name with
  | Ok None => has_marker name = false
  | Ok (Some cf) => has_marker name = true ∧ origin cf = (path, base, name)
  | Raise e => has_marker name = true ∧ (e = ValueError ∨ e = AssertionError)
  end.
Proof.
  unfold scan_file, Conflict_parse, has_marker.
  destruct (Conflict_parse_matches (Conflict_REGEX_finditer name)) as [cs|e] eqn:Hp.
  - pose proof (Conflict_parse_matches_length _ _ Hp) as Hlen. cbn [mbind result_bind].
    destruct cs as [|c cs].
    + destruct (Conflict_REGEX_finditer name); [reflexivity|discriminate Hlen].
    + destruct (Conflict_REGEX_finditer name) as [|g gs]; [discriminate Hlen|].
      destruct (ConflictFile_init path base name (c :: cs)) as [cf|e] eqn:Hinit.
      * cbn. split; [reflexivity|]. apply ConflictFile_init_inv in Hinit.
        destruct Hinit as (H1 & H2 & H3 & _). unfold origin. now rewrite H1, H2, H3.
      * cbn. split; [reflexivity|right].
        unfold ConflictFile_init in Hinit.
        destruct (os_path.splitext _) as [sel ext]. unfold assert in Hinit.
        destruct (Str.eqb name _); [discriminate Hinit|].
        cbn in Hinit. now injection Hinit as <-.
  - cbn [mbind result_bind]. pose proof (Conflict_parse_raises _ _ Hp) as ->.
    destruct (Conflict_REGEX_finditer name); [discriminate Hp|]. split; [reflexivity|now left].
Qed.

Lemma scan_files_cons (path base name : string)
    (files : list (string * string * string)) (w : World) :
  Cli_scan_files ((path, base, name) :: files) w
  = match scan_file path base name with
    | Ok (Some cf) =>
        match Cli_scan_files files (set_heap (heap w ++ [cf]) w) with
        | (Ok scan, w') => (Ok (length (heap w) :: scan), w')
        | (Raise e, w') => (Raise e, w')
        end
    | Ok None => Cli_scan_files files w
    | Raise e => (Raise e, w)
    end.
Proof.
  cbn [Cli_scan_files]. unfold mbind, M_bind, lift, alloc.
  destruct (scan_file path base name) as [[cf|]|e]; reflexivity.
Qed.

Lemma scan_files_run (files : list (string * string * string)) (w : World) :
  ∃ news, (Cli_scan_files files w).2 = set_heap (heap w ++ news) w
          ∧ Forall scanned news
          ∧ match (Cli_scan_files files w).1 with
            | Ok scan =>
                scan = seq (length (heap w)) (length news)
                ∧ origin <$> news = filter (λ f, has_marker f.2 = true) files
            | Raise e => e = ValueError ∨ e = AssertionError
            end.
Proof.
  revert w. induction files as [|[[path base] name] files IH]; intros w.
  - exists []. cbn. rewrite app_nil_r, set_heap_id. repeat split. constructor.
  - rewrite scan_files_cons.
    pose proof (scan_file_cases path base name) as Hcases.
    destruct (scan_file path base name) as [[cf|]|e] eqn:Hscan.
    + destruct Hcases as [Hm Ho].
      assert (Hcf : scanned cf).
      { unfold scanned. unfold origin in Ho. injection Ho as -> -> ->. exact Hscan. }
      destruct (IH (set_heap (heap w ++ [cf]) w)) as (news & Hst & Hall & Hres).
      destruct (Cli_scan_files files (set_heap (heap w ++ [cf]) w)) as [[scan|e] w2];
        cbn [fst snd] in *; exists (cf :: news); subst w2; cbn [heap set_heap] in *;
        rewrite <- app_assoc; cbn [app].
      * split; [reflexivity|]. split; [now constructor|].
        destruct Hres as [-> Hres]. split.
        { rewrite length_app. cbn [length seq].
          now replace (length (heap w) + 1)%nat with (S (length (heap w))) by lia. }
        rewrite filter_cons_True by exact Hm. cbn [fmap list_fmap]. f_equal; [|exact Hres].
        exact Ho.
      * split; [reflexivity|]. split; [now constructor|exact Hres].
    + destruct (IH w) as (news & Hst & Hall & Hres). exists news.
      split; [exact Hst|]. split; [exact Hall|].
      destruct (Cli_scan_files files w) as [[scan|e] w2]; cbn [fst snd] in *;
        [|exact Hres].
      destruct Hres as [-> Hres]. split; [reflexivity|].
      rewrite filter_cons_False; [exact Hres|]. cbn. rewrite Hcases. discriminate.
    + exists []. cbn [fst snd]. rewrite app_nil_r, set_heap_id.
      split; [reflexivity|]. split; [constructor|]. now destruct Hcases.
Qed.

Lemma scan_loop_cons (walk : string → list (string * list string)) (path : string)
    (paths : list string) (w : World) :
  Cli_scan_for_conflicts_loop walk (path :: paths) w
  = if is_dir w (os_path.join path ".stfolder") then
      match Cli_scan_files (walk_files path (walk path)) w with
      | (Ok scan, w1) =>
          match Cli_scan_for_conflicts_loop walk paths w1 with
          | (Ok scan', w2) => (Ok (scan ++ scan')%list, w2)
          | (Raise e, w2) => (Raise e, w2)
          end
      | (Raise e, w1) => (Raise e, w1)
      end
    else (Raise AssertionError, w).
Proof.
  cbn [Cli_scan_for_conflicts_loop].
  unfold mbind, M_bind, os_path_isdir, gets, lift, assert, is_dir.
  destruct (fs w !! os_path.join path ".stfolder") as [[c|]|]; reflexivity.
Qed.

Lemma scan_loop_run (walk : string → list (string * list string)) (paths : list string)
    (w : World) :
  ∃ news, (Cli_scan_for_conflicts_loop walk paths w).2 = set_heap (heap w ++ news) w
          ∧ Forall scanned news
          ∧ match (Cli_scan_for_conflicts_loop walk paths w).1 with
            | Ok scan =>
                Forall (λ path, is_dir w (os_path.join path ".stfolder") = true) paths
                ∧ scan = seq (length (heap w)) (length news)
                ∧ origin <$> news
                  = filter (λ f, has_marker f.2 = true) (all_files walk paths)
            | Raise e => e = ValueError ∨ e = AssertionError
            end.
Proof.
  revert w. induction paths as [|path paths IH]; intros w.
  - exists []. cbn. rewrite app_nil_r, set_heap_id. repeat split; constructor.
  - rewrite scan_loop_cons.
    destruct (is_dir w (os_path.join path ".stfolder")) eqn:Hdir.
    2:{ exists []. cbn. rewrite app_nil_r, set_heap_id.
        split; [reflexivity|]. split; [constructor|now right]. }
    destruct (scan_files_run (walk_files path (walk path)) w) as (n1 & Hst1 & Hall1 & Hres1).
    destruct (Cli_scan_files (walk_files path (walk path)) w) as [[scan1|e] w1];
      cbn [fst snd] in *.
    2:{ exists n1. split; [exact Hst1|]. split; [exact Hall1|exact Hres1]. }
    destruct (IH w1) as (n2 & Hst2 & Hall2 & Hres2).
    destruct (Cli_scan_for_conflicts_loop walk paths w1) as [[scan2|e] w2];
      cbn [fst snd] in *; exists (n1 ++ n2)%list; subst w2 w1;
      cbn [heap set_heap] in *; rewrite <- app_assoc.
    + split; [reflexivity|]. split; [now apply Forall_app|].
      destruct Hres1 as [-> Hf1]. destruct Hres2 as (Hd & -> & Hf2).
      split; [constructor; [exact Hdir|exact Hd]|]. split.
      * rewrite !length_app. symmetry. apply seq_app.
      * unfold all_files. cbn [mbind list_bind]. fold (all_files walk paths).
        rewrite filter_app, fmap_app. now rewrite Hf1, Hf2.
    + split; [reflexivity|]. split; [now apply Forall_app|exact Hres2].
Qed.

(** X18: a scan that returns has found the directory [.stfolder] in every
    path.  It has built one object for every listed file whose name holds a
    marker, in the order of the walks, and none for any other file; each is
    the record that the constructor builds from the path, the directory and
    the name of the file.  The objects are new, the references returned are
    theirs in that order, and nothing else of the state has changed. *)
Theorem scan_builds_records (args : Args) (walk : string → list (string * list string))
    (w w' : World) (scan : list ref) :
  Cli_scan_for_conflicts args walk w = (Ok scan, w') →
  Forall (λ path, is_dir w (os_path.join path ".stfolder") = true) (PATH args)
  ∧ ∃ news, w' = set_heap (heap w ++ news) w
            ∧ scan = seq (length (heap w)) (length news)
            ∧ origin <$> news
              = filter (λ f, has_marker f.2 = true) (all_files walk (PATH args))
            ∧ Forall scanned news.
Proof.
  intros Hrun. unfold Cli_scan_for_conflicts in Hrun.
  destruct (scan_loop_run walk (PATH args) w) as (news & Hst & Hall & Hres).
  rewrite Hrun in Hst, Hres. cbn [fst snd] in *.
  destruct Hres as (Hd & Hs & Hf). split; [exact Hd|].
  exists news. repeat split; assumption.
Qed.

Lemma scan_builds_records_witness :
  Forall (λ path, is_dir world_O (os_path.join path ".stfolder") = true) (PATH commit_args)
  ∧ ∃ news, set_heap [record_1; record_1] world_O = set_heap (heap world_O ++ news) world_O
            ∧ [1%nat] = seq (length (heap world_O)) (length news)
            ∧ origin <$> news
              = filter (λ f, has_marker f.2 = true) (all_files walk_O (PATH commit_args))
            ∧ Forall scanned news.
Proof.
  apply (scan_builds_records commit_args walk_O world_O
           (set_heap [record_1; record_1] world_O) [1%nat]).
  vm_compute. reflexivity.
Defined.

(** X19: a path without a directory [.stfolder] ends the scan, and with it
    the run, in an exception: [AssertionError], unless a file listed before
    has raised [ValueError] or [AssertionError] itself.  Nothing has been
    printed by then and the file system is as it was; the objects built
    before stay behind. *)
Theorem scan_needs_stfolder (prompt : ConflictFile → Args → M unit) (args : Args)
    (walk : string → list (string * list string)) (w : World) (path : string) :
  path ∈ PATH args →
  is_dir w (os_path.join path ".stfolder") = false →
  ∃ e news, (e = ValueError ∨ e = AssertionError)
            ∧ Cli_scan_for_conflicts args walk w
              = (Raise e, set_heap (heap w ++ news) w)
            ∧ Cli_run prompt args walk w = (Raise e, set_heap (heap w ++ news) w).
Proof.
  intros Hin Hdir.
  destruct (scan_loop_run walk (PATH args) w) as (news & Hst & Hall & Hres).
  unfold Cli_run, Cli_scan_for_conflicts, mbind, M_bind.
  destruct (Cli_scan_for_conflicts_loop walk (PATH args) w) as [[scan|e] w1];
    cbn [fst snd] in *.
  - destruct Hres as (Hd & _). rewrite Forall_forall in Hd.
    rewrite (Hd path Hin) in Hdir. discriminate Hdir.
  - exists e, news. subst w1. repeat split; [exact Hres].
Qed.

Lemma scan_needs_stfolder_witness :
  ∃ e news, (e = ValueError ∨ e = AssertionError)
            ∧ Cli_scan_for_conflicts commit_args walk_O world_D
              = (Raise e, set_heap (heap world_D ++ news) world_D)
            ∧ Cli_run (λ _ _, mret tt) commit_args walk_O world_D
              = (Raise e, set_heap (heap world_D ++ news) world_D).
Proof.
  apply (scan_needs_stfolder (λ _ _, mret tt) commit_args walk_O world_D "/data").
  - apply list_elem_of_here.
  - reflexivity.
Defined.

(** ** From the scan to the index *)

Lemma dict_set_values {V} (d : list (string * V)) (k : string) (v : V) :
  NoDup d.*2 → v ∉ d.*2 →
  NoDup (dict_set d k v).*2 ∧ ∀ x, x ∈ (dict_set d k v).*2 → x = v ∨ x ∈ d.*2.
Proof.
  induction d as [|[k' v'] d IH]; cbn [dict_set fmap list_fmap snd].
  - intros _ _. split; [apply NoDup_singleton|].
    intros x Hx. apply list_elem_of_singleton in Hx. now left.
  - intros Hnd Hv. apply NoDup_cons in Hnd as [Hv' Hnd].
    apply not_elem_of_cons in Hv as [Hne Hv].
    destruct (Str.eqb k k'); cbn [fmap list_fmap snd].
    + split; [now apply NoDup_cons|].
      intros x Hx. apply elem_of_cons in Hx as [->|Hx]; [now left|].
      right. now apply list_elem_of_further.
    + destruct (IH Hnd Hv) as [IH1 IH2]. split.
      * apply NoDup_cons. split; [|exact IH1]. intros Hin.
        apply IH2 in Hin as [->|Hin]; [now apply Hne|now apply Hv'].
      * intros x Hx. apply elem_of_cons in Hx as [->|Hx].
        { right. apply list_elem_of_here. }
        apply IH2 in Hx as [->|Hx]; [now left|right; now apply list_elem_of_further].
Qed.

Lemma conflict_map_loop_values (scan : list ref) (acc m : list (string * ref))
    (w w' : World) :
  Cli_conflict_map_loop scan acc w = (Ok m, w') →
  NoDup scan → NoDup acc.*2 → (∀ r, r ∈ scan → r ∉ acc.*2) →
  w' = w ∧ NoDup m.*2 ∧ ∀ x, x ∈ m.*2 → x ∈ scan ∨ x ∈ acc.*2.
Proof.
  revert acc. induction scan as [|r scan IH]; intros acc; cbn [Cli_conflict_map_loop].
  - intros [= <- <-] _ Hacc _. split; [reflexivity|]. split; [exact Hacc|]. now right.
  - unfold mbind at 1, M_bind at 1, deref.
    destruct (heap w !! r) as [cf|]; cbn [of_option]; [|intros H; discriminate H].
    unfold mbind at 1, M_bind at 1, ConflictFile_canonical_name.
    unfold mbind at 1, M_bind at 1, gets, mret, M_ret.
    intros Hrun Hnd Hacc Hdis. apply NoDup_cons in Hnd as [Hr Hnd].
    destruct (dict_set_values acc (os_path.join (realpath w (cf_base cf)) (cf_name cf)) r
                Hacc) as [Hnd' Hsub].
    { apply Hdis, list_elem_of_here. }
    destruct (IH _ Hrun Hnd Hnd') as (Hw & Hm & Hin).
    { intros r' Hr' Hin. apply Hsub in Hin as [->|Hin]; [now apply Hr|].
      apply (Hdis r'); [now apply list_elem_of_further|exact Hin]. }
    split; [exact Hw|]. split; [exact Hm|]. intros x Hx.
    apply Hin in Hx as [Hx|Hx]; [left; now apply list_elem_of_further|].
    apply Hsub in Hx as [->|Hx]; [left; apply list_elem_of_here|now right].
Qed.

Lemma scanned_unlinked (cf : ConflictFile) :
  scanned cf → cf_parent cf = None ∧ cf_children cf = [].
Proof.
  unfold scanned, scan_file. destruct (Conflict_parse (cf_name cf)) as [[|c cs]|e];
    cbn [mbind result_bind]; try (intros H; discriminate H).
  destruct (ConflictFile_init _ _ _ _) as [cf'|e] eqn:Hinit; cbn;
    [|intros H; discriminate H].
  intros [= ->]. apply ConflictFile_init_inv in Hinit.
  destruct Hinit as (_ & _ & _ & _ & _ & _ & _ & Hp & Hc & _). now split.
Qed.

(** X20: the scan and the index give [Cli.conflict_tree] what it takes for
    granted.  When no object is linked before the scan, the index built
    from the scan leaves the state as it is, holds no object twice, every
    object it holds exists, and no object has a parent or a child yet. *)
Theorem scan_index_fresh (args : Args) (walk : string → list (string * list string))
    (w w1 w2 : World) (scan : list ref) (m : list (string * ref)) :
  (∀ x cf, heap w !! x = Some cf → cf_parent cf = None ∧ cf_children cf = []) →
  Cli_scan_for_conflicts args walk w = (Ok scan, w1) →
  Cli_conflict_map scan w1 = (Ok m, w2) →
  w2 = w1 ∧ index_fresh w1 m ∧ ∀ r, r ∈ m.*2 → r ∈ scan.
Proof.
  intros Hold Hscan Hmap. unfold Cli_scan_for_conflicts in Hscan.
  destruct (scan_loop_run walk (PATH args) w) as (news & Hst & Hall & Hres).
  rewrite Hscan in Hst, Hres. cbn [fst snd] in *. destruct Hres as (_ & Hs & _).
  unfold Cli_conflict_map in Hmap.
  destruct (conflict_map_loop_values scan [] m w1 w2 Hmap) as (Hw & Hnd & Hin).
  { rewrite Hs. apply NoDup_seq. }
  { constructor. }
  { intros r _ H. now apply elem_of_nil in H. }
  assert (Hin' : ∀ r, r ∈ m.*2 → r ∈ scan).
  { intros r Hr. apply Hin in Hr as [Hr|Hr]; [exact Hr|now apply elem_of_nil in Hr]. }
  split; [exact Hw|]. split; [|exact Hin']. split; [exact Hnd|]. split.
  - intros x cf Hx. rewrite Hst in Hx. cbn [heap set_heap] in Hx.
    apply lookup_app_Some in Hx as [Hx|[_ Hx]]; [now apply (Hold x)|].
    apply scanned_unlinked. rewrite Forall_forall in Hall. apply Hall.
    now apply list_elem_of_lookup_2 in Hx.
  - intros r Hr. apply Hin' in Hr. rewrite Hs in Hr. apply elem_of_seq in Hr.
    apply lookup_lt_is_Some. rewrite Hst. cbn [heap set_heap]. rewrite length_app. lia.
Qed.

Lemma scan_index_fresh_witness :
  set_heap [record_1; record_1] world_O = set_heap [record_1; record_1] world_O
  ∧ index_fresh (set_heap [record_1; record_1] world_O) [("/data/" +:+ name_1, 1%nat)]
  ∧ ∀ r, r ∈ [("/data/" +:+ name_1, 1%nat)].*2 → r ∈ [1%nat].
Proof.
  apply (scan_index_fresh commit_args walk_O world_O
           (set_heap [record_1; record_1] world_O)
           (set_heap [record_1; record_1] world_O) [1%nat]
           [("/data/" +:+ name_1, 1%nat)]).
  - intros [|[|x]] cf H; [|discriminate H|discriminate H].
    injection H as <-. split; reflexivity.
  - vm_compute. reflexivity.
  - vm_compute. reflexivity.
Defined.

(** ** The order metrics *)

Lemma uint_value (s : string) (u : Decimal.uint) :
  NilEmpty.uint_of_string s = Some u →
  Z.of_N (Pos.of_uint u) = digits_value 0 s
  ∧ ∀ acc, Z.pos (Pos.of_uint_acc u acc) = digits_value (Z.pos acc) s.
Proof.
  revert u. induction s as [|c s IH]; intros u H; cbn [NilEmpty.uint_of_string] in H.
  - injection H as <-. split; reflexivity.
  - destruct (NilEmpty.uint_of_string s) as [u'|]; [|discriminate H].
    destruct (IH u' eq_refl) as [IH0 IHacc].
    apply uint_of_char_spec in H.
    repeat (destruct H as [[-> ->]|H]); try destruct H as [-> ->];
      cbn [Pos.of_uint Pos.of_uint_acc digits_value]; (split; [|intros acc]);
      try (change (Z.of_N (N.pos ?p)) with (Z.pos p)); rewrite ?IHacc, ?IH0;
      f_equal; unfold digit_of;
      repeat match goal with
             | |- context [nat_of_ascii ?c] =>
                 let v := eval vm_compute in (nat_of_ascii c) in
                 change (nat_of_ascii c) with v
             end; lia.
Qed.

Lemma to_int_digits (s : string) :
  s ≠ "" → all_chars is_digit s = true → Str.to_int s = Ok (digits_value 0 s).
Proof.
  intros Hs Hd. destruct (digits_uint s Hd) as [u Hu].
  unfold Str.to_int, NilZero.uint_of_string. destruct s; [contradiction|].
  rewrite Hu. f_equal. unfold Z.of_uint. now apply uint_value.
Qed.

Lemma digits_value_app (acc : Z) (a b : string) :
  digits_value acc (a +:+ b) = digits_value (digits_value acc a) b.
Proof.
  revert acc. induction a as [|c a IH]; intros acc; [reflexivity|].
  rewrite str_app_cons. cbn [digits_value]. apply IH.
Qed.

Lemma digits_value_acc (acc : Z) (s : string) :
  digits_value acc s = acc * 10 ^ Z.of_nat (String.length s) + digits_value 0 s.
Proof.
  revert acc. induction s as [|c s IH]; intros acc.
  - cbn. lia.
  - cbn [digits_value String.length]. rewrite (IH (10 * acc + digit_of c)).
    rewrite (IH (10 * 0 + digit_of c)).
    rewrite Nat2Z.inj_succ, Z.pow_succ_r by lia. lia.
Qed.

Lemma all_chars_app (p : ascii → bool) (a b : string) :
  all_chars p (a +:+ b) = all_chars p a && all_chars p b.
Proof.
  induction a as [|c a IH]; [reflexivity|].
  rewrite str_app_cons. cbn [all_chars]. now rewrite IH, andb_assoc.
Qed.

Lemma zfill_width_2 (z : Z) :
  0 ≤ z < 100 →
  String.length (Str.zfill 2 z) = 2%nat
  ∧ all_chars is_digit (Str.zfill 2 z) = true
  ∧ digits_value 0 (Str.zfill 2 z) = z.
Proof.
  intros Hz.
  assert (H : forallb (λ n, let s := Str.zfill 2 (Z.of_nat n) in
                            (String.length s =? 2)%nat && all_chars is_digit s
                            && (digits_value 0 s =? Z.of_nat n))
                (List.seq 0 (Z.to_nat 100)) = true) by (vm_compute; reflexivity).
  rewrite forallb_forall in H.
  assert (Hin : In (Z.to_nat z) (List.seq 0 (Z.to_nat 100))) by (apply in_seq; lia).
  specialize (H _ Hin). rewrite Z2Nat.id in H by lia. cbv zeta in H.
  apply andb_true_iff in H as [H3 H4].
  apply andb_true_iff in H3 as [H1 H2].
  apply Nat.eqb_eq in H1. apply Z.eqb_eq in H4. now repeat split.
Qed.

Lemma zfill_width_4 (z : Z) :
  0 ≤ z < 10000 →
  String.length (Str.zfill 4 z) = 4%nat
  ∧ all_chars is_digit (Str.zfill 4 z) = true
  ∧ digits_value 0 (Str.zfill 4 z) = z.
Proof.
  intros Hz.
  assert (H : forallb (λ n, let s := Str.zfill 4 (Z.of_nat n) in
                            (String.length s =? 4)%nat && all_chars is_digit s
                            && (digits_value 0 s =? Z.of_nat n))
                (List.seq 0 (Z.to_nat 10000)) = true) by (vm_compute; reflexivity).
  rewrite forallb_forall in H.
  assert (Hin : In (Z.to_nat z) (List.seq 0 (Z.to_nat 10000))) by (apply in_seq; lia).
  specialize (H _ Hin). rewrite Z2Nat.id in H by lia. cbv zeta in H.
  apply andb_true_iff in H as [H3 H4].
  apply andb_true_iff in H3 as [H1 H2].
  apply Nat.eqb_eq in H1. apply Z.eqb_eq in H4. now repeat split.
Qed.

Lemma days_in_month_bounds (y m : Z) : 28 ≤ datetime.days_in_month y m ≤ 31.
Proof.
  unfold datetime.days_in_month.
  destruct (m =? 2); [destruct (datetime.is_leap y); lia|].
  destruct (_ || _); lia.
Qed.

Lemma Timestamp_init_inv (date : Date) (time : Time) (t : Timestamp) :
  Timestamp_init date time = Ok t →
  ts_date t = date ∧ ts_time t = time
  ∧ ts_dt t = datetime.mk (date_yy date) (date_mm date) (date_dd date)
                (time_hh time) (time_mm time) (time_ss time)
  ∧ 1 ≤ date_yy date ≤ 9999 ∧ 1 ≤ date_mm date ≤ 12
  ∧ 1 ≤ date_dd date ≤ datetime.days_in_month (date_yy date) (date_mm date)
  ∧ 0 ≤ time_hh time ≤ 23 ∧ 0 ≤ time_mm time ≤ 59 ∧ 0 ≤ time_ss time ≤ 59.
Proof.
  unfold Timestamp_init, datetime.new.
  destruct (datetime.valid _ _ _ _ _ _) eqn:Hv; cbn; [|intros H; discriminate H].
  intros [= <-]. cbn. unfold datetime.valid in Hv.
  repeat (apply andb_true_iff in Hv as [Hv ?]).
  repeat match goal with
         | H : (_ <=? _) = true |- _ => apply Z.leb_le in H
         end.
  repeat split; assumption.
Qed.

Lemma Timestamp_order_value (date : Date) (time : Time) (t : Timestamp) :
  Timestamp_init date time = Ok t →
  Timestamp_order t = Ok (stamp_number t)
  ∧ String.length (Timestamp_repr t) = 14%nat.
Proof.
  intros Hinit. apply Timestamp_init_inv in Hinit.
  destruct Hinit as (Edate & Etime & _ & Hy & Hm & Hd & HH & HM & HS).
  pose proof (days_in_month_bounds (date_yy date) (date_mm date)) as Hdim.
  destruct (zfill_width_4 (date_yy date)) as (Ly & Dy & Vy); [lia|].
  destruct (zfill_width_2 (date_mm date)) as (Lm & Dm & Vm); [lia|].
  destruct (zfill_width_2 (date_dd date)) as (Ld & Dd & Vd); [lia|].
  destruct (zfill_width_2 (time_hh time)) as (Lh & Dh & Vh); [lia|].
  destruct (zfill_width_2 (time_mm time)) as (Lmi & Dmi & Vmi); [lia|].
  destruct (zfill_width_2 (time_ss time)) as (Ls & Ds & Vs); [lia|].
  unfold Timestamp_order, stamp_number, Timestamp_repr, Date_repr, Time_repr.
  rewrite Edate, Etime.
  set (sy := Str.zfill 4 (date_yy date)) in *.
  set (sm := Str.zfill 2 (date_mm date)) in *.
  set (sd := Str.zfill 2 (date_dd date)) in *.
  set (sH := Str.zfill 2 (time_hh time)) in *.
  set (sM := Str.zfill 2 (time_mm time)) in *.
  set (sS := Str.zfill 2 (time_ss time)) in *.
  assert (Hlen : String.length ((sy +:+ sm +:+ sd) +:+ (sH +:+ sM +:+ sS)) = 14%nat).
  { rewrite !str_app_length, Ly, Lm, Ld, Lh, Lmi, Ls. reflexivity. }
  split; [|exact Hlen]. rewrite to_int_digits.
  - f_equal. rewrite !digits_value_app.
    rewrite (digits_value_acc (digits_value _ _) sS), Ls, Vs.
    rewrite (digits_value_acc (digits_value _ _) sM), Lmi, Vmi.
    rewrite (digits_value_acc (digits_value _ _) sH), Lh, Vh.
    rewrite (digits_value_acc (digits_value _ _) sd), Ld, Vd.
    rewrite (digits_value_acc (digits_value _ _) sm), Lm, Vm, Vy.
    change (10 ^ Z.of_nat 2) with 100. reflexivity.
  - intros E. rewrite E in Hlen. discriminate Hlen.
  - rewrite !all_chars_app, Dy, Dm, Dd, Dh, Dmi, Ds. reflexivity.
Qed.

(** *** The calendar *)

Lemma days_before_month_step (y m : Z) :
  1 ≤ m →
  datetime.days_before_month y (m + 1)
  = datetime.days_before_month y m + datetime.days_in_month y m.
Proof.
  intros Hm. unfold datetime.days_before_month.
  replace (Z.to_nat (m + 1 - 1)) with (S (Z.to_nat (m - 1))) by lia.
  cbn [datetime.days_before_month_go]. f_equal. f_equal. lia.
Qed.

Lemma days_before_month_mono (y m m' : Z) :
  1 ≤ m → m < m' →
  datetime.days_before_month y m + datetime.days_in_month y m
  ≤ datetime.days_before_month y m'.
Proof.
  intros Hm Hlt. replace m' with (m + 1 + (m' - m - 1)) by lia.
  assert (Hk : 0 ≤ m' - m - 1) by lia. revert Hk. generalize (m' - m - 1) as k.
  intros k Hk. pattern k. apply natlike_ind; [| |exact Hk].
  - rewrite Z.add_0_r, days_before_month_step by lia. lia.
  - intros x Hx IH. replace (m + 1 + Z.succ x) with (m + 1 + x + 1) by lia.
    rewrite days_before_month_step by lia.
    pose proof (days_in_month_bounds y (m + 1 + x)). lia.
Qed.

Lemma days_before_month_nonneg (y m : Z) : 1 ≤ m → 0 ≤ datetime.days_before_month y m.
Proof.
  intros Hm. destruct (Z.eq_dec m 1) as [->|Hne]; [reflexivity|].
  pose proof (days_before_month_mono y 1 m ltac:(lia) ltac:(lia)) as H.
  pose proof (days_in_month_bounds y 1). change (datetime.days_before_month y 1) with 0 in H.
  lia.
Qed.

Lemma days_before_year_step (y : Z) :
  datetime.days_before_year (y + 1)
  = datetime.days_before_year y + 365 + (if datetime.is_leap y then 1 else 0).
Proof.
  unfold datetime.days_before_year, datetime.is_leap. cbv zeta.
  replace (y + 1 - 1) with y by lia.
  destruct (y mod 4 =? 0) eqn:E4; destruct (y mod 100 =? 0) eqn:E100;
    destruct (y mod 400 =? 0) eqn:E400; cbn [andb orb negb];
    rewrite ?Z.eqb_eq, ?Z.eqb_neq in *; Z.div_mod_to_equations; lia.
Qed.

Lemma days_before_year_mono (y y' : Z) :
  y < y' →
  datetime.days_before_year y + 365 + (if datetime.is_leap y then 1 else 0)
  ≤ datetime.days_before_year y'.
Proof.
  intros Hlt. replace y' with (y + 1 + (y' - y - 1)) by lia.
  assert (Hk : 0 ≤ y' - y - 1) by lia. revert Hk. generalize (y' - y - 1) as k.
  intros k Hk. pattern k. apply natlike_ind; [| |exact Hk].
  - rewrite Z.add_0_r, days_before_year_step. lia.
  - intros x Hx IH. replace (y + 1 + Z.succ x) with (y + 1 + x + 1) by lia.
    rewrite days_before_year_step. destruct (datetime.is_leap (y + 1 + x)); lia.
Qed.

Lemma year_length (y m : Z) :
  1 ≤ m ≤ 12 →
  datetime.days_before_month y m + datetime.days_in_month y m
  ≤ 365 + (if datetime.is_leap y then 1 else 0).
Proof.
  intros Hm.
  assert (H12 : datetime.days_before_month y 12 + datetime.days_in_month y 12
                = 365 + (if datetime.is_leap y then 1 else 0)).
  { unfold datetime.days_before_month. change (Z.to_nat (12 - 1)) with 11%nat.
    cbn [datetime.days_before_month_go]. unfold datetime.days_in_month.
    cbn -[datetime.is_leap]. destruct (datetime.is_leap y); reflexivity. }
  destruct (Z.eq_dec m 12) as [->|Hne]; [lia|].
  pose proof (days_before_month_mono y m 12 ltac:(lia) ltac:(lia)).
  pose proof (days_in_month_bounds y 12). lia.
Qed.

Lemma toordinal_mono (y m d y' m' d' H M S H' M' S' : Z) :
  1 ≤ m ≤ 12 → 1 ≤ d ≤ datetime.days_in_month y m →
  1 ≤ m' ≤ 12 → 1 ≤ d' ≤ datetime.days_in_month y' m' →
  y < y' ∨ (y = y' ∧ (m < m' ∨ (m = m' ∧ d < d'))) →
  datetime.toordinal (datetime.mk y m d H M S)
  < datetime.toordinal (datetime.mk y' m' d' H' M' S').
Proof.
  intros Hm Hd Hm' Hd' Hlt. unfold datetime.toordinal.
  cbn [datetime.year datetime.month datetime.day].
  pose proof (days_before_month_nonneg y' m' ltac:(lia)).
  destruct Hlt as [Hy|[-> [Hmm|[-> Hdd]]]].
  - pose proof (days_before_year_mono y y' Hy). pose proof (year_length y m Hm). lia.
  - pose proof (days_before_month_mono y' m m' ltac:(lia) Hmm). lia.
  - lia.
Qed.

Lemma Timestamp_order_delta (d1 d2 : Date) (t1 t2 : Time) (a b : Timestamp) :
  Timestamp_init d1 t1 = Ok a → Timestamp_init d2 t2 = Ok b →
  (stamp_number a < stamp_number b ↔ 0 < Timestamp_delta b a)
  ∧ (stamp_number a = stamp_number b ↔ Timestamp_delta b a = 0).
Proof.
  intros Ha Hb. apply Timestamp_init_inv in Ha, Hb.
  destruct Ha as (Ea1 & Ea2 & Ea3 & Hy & Hm & Hd & HH & HM & HS).
  destruct Hb as (Eb1 & Eb2 & Eb3 & Hy' & Hm' & Hd' & HH' & HM' & HS').
  unfold stamp_number, Timestamp_delta, datetime.sub_total_seconds,
    datetime.seconds_of_day.
  rewrite Ea1, Ea2, Ea3, Eb1, Eb2, Eb3.
  cbn [datetime.hour datetime.minute datetime.second].
  destruct d1 as [y m d], d2 as [y' m' d'], t1 as [H M S], t2 as [H' M' S'].
  cbn [date_yy date_mm date_dd time_hh time_mm time_ss] in *.
  pose proof (days_in_month_bounds y m). pose proof (days_in_month_bounds y' m').
  pose proof (toordinal_mono y m d y' m' d' H M S H' M' S' Hm Hd Hm' Hd') as Hlt.
  pose proof (toordinal_mono y' m' d' y m d H' M' S' H M S Hm' Hd' Hm Hd) as Hgt.
  assert (Heq : y = y' ∧ m = m' ∧ d = d' →
                datetime.toordinal (datetime.mk y m d H M S)
                = datetime.toordinal (datetime.mk y' m' d' H' M' S')).
  { intros (-> & -> & ->). reflexivity. }
  set (oa := datetime.toordinal (datetime.mk y m d H M S)) in *.
  set (ob := datetime.toordinal (datetime.mk y' m' d' H' M' S')) in *.
  clearbody oa ob.
  assert (Hcases : (y < y' ∨ (y = y' ∧ (m < m' ∨ (m = m' ∧ d < d'))))
                   ∨ (y' < y ∨ (y' = y ∧ (m' < m ∨ (m' = m ∧ d' < d))))
                   ∨ (y = y' ∧ m = m' ∧ d = d')) by lia.
  destruct Hcases as [Hc|[Hc|Hc]].
  - specialize (Hlt Hc). clear Hgt Heq. split; lia.
  - specialize (Hgt Hc). clear Hlt Heq. split; lia.
  - specialize (Heq Hc). clear Hlt Hgt. destruct Hc as (-> & -> & ->). split; lia.
Qed.

(** X21: for a timestamp that the constructor accepts (a calendar date of
    the years 1 to 9999 and a clock time), [Timestamp.order] returns and
    the number is the fourteen digits [yyyymmddHHMMSS] of its text. *)
Theorem Timestamp_order_number (date : Date) (time : Time) (t : Timestamp) :
  Timestamp_init date time = Ok t →
  Timestamp_order t = Ok (stamp_number t)
  ∧ String.length (Timestamp_repr t) = 14%nat.
Proof. apply Timestamp_order_value. Qed.

Lemma Timestamp_order_number_witness :
  Timestamp_order (stamp 2023 1 5 9 0 0) = Ok (stamp_number (stamp 2023 1 5 9 0 0))
  ∧ String.length (Timestamp_repr (stamp 2023 1 5 9 0 0)) = 14%nat.
Proof.
  apply (Timestamp_order_number (mkDate 2023 1 5) (mkTime 9 0 0)).
  vm_compute. reflexivity.
Defined.

(** X22: [Timestamp.order] is chronological.  For two timestamps that the
    constructor accepts, the order of the first is below the order of the
    second exactly when the second is later on the clock, that is when
    [delta] from the first to the second is positive; the orders are equal
    exactly when [delta] is zero. *)
Theorem Timestamp_order_chronological (d1 d2 : Date) (t1 t2 : Time) (a b : Timestamp) :
  Timestamp_init d1 t1 = Ok a → Timestamp_init d2 t2 = Ok b →
  ∃ oa ob, Timestamp_order a = Ok oa ∧ Timestamp_order b = Ok ob
           ∧ (oa < ob ↔ 0 < Timestamp_delta b a)
           ∧ (oa = ob ↔ Timestamp_delta b a = 0).
Proof.
  intros Ha Hb. exists (stamp_number a), (stamp_number b).
  split; [now apply (Timestamp_order_value d1 t1)|].
  split; [now apply (Timestamp_order_value d2 t2)|].
  now apply (Timestamp_order_delta d1 d2 t1 t2).
Qed.

Lemma Timestamp_order_chronological_witness :
  ∃ oa ob, Timestamp_order (stamp 2023 1 1 12 0 0) = Ok oa
           ∧ Timestamp_order (stamp 2023 1 5 9 0 0) = Ok ob
           ∧ (oa < ob ↔ 0 < Timestamp_delta (stamp 2023 1 5 9 0 0) (stamp 2023 1 1 12 0 0))
           ∧ (oa = ob ↔ Timestamp_delta (stamp 2023 1 5 9 0 0) (stamp 2023 1 1 12 0 0) = 0).
Proof.
  apply (Timestamp_order_chronological (mkDate 2023 1 1) (mkDate 2023 1 5)
           (mkTime 12 0 0) (mkTime 9 0 0)); vm_compute; reflexivity.
Defined.

(** X23: [Time.order] counts the seconds since midnight.  For two
    timestamps of one date that the constructor accepts, [delta] is the
    difference of the [Time.order] of their times, and the order of a time
    lies between 0 and 86399. *)
Theorem Time_order_seconds (date : Date) (t1 t2 : Time) (a b : Timestamp) :
  Timestamp_init date t1 = Ok a → Timestamp_init date t2 = Ok b →
  Timestamp_delta b a = Time_order t2 - Time_order t1
  ∧ 0 ≤ Time_order t1 < 86400.
Proof.
  intros Ha Hb. apply Timestamp_init_inv in Ha, Hb.
  destruct Ha as (_ & _ & Ea & _ & _ & _ & HH & HM & HS).
  destruct Hb as (_ & _ & Eb & _).
  unfold Timestamp_delta, datetime.sub_total_seconds, datetime.seconds_of_day,
    datetime.toordinal, Time_order.
  rewrite Ea, Eb. cbn. split; lia.
Qed.

Lemma Time_order_seconds_witness :
  Timestamp_delta (stamp 2023 1 1 12 30 0) (stamp 2023 1 1 12 0 0)
  = Time_order (mkTime 12 30 0) - Time_order (mkTime 12 0 0)
  ∧ 0 ≤ Time_order (mkTime 12 0 0) < 86400.
Proof.
  apply (Time_order_seconds (mkDate 2023 1 1) (mkTime 12 0 0) (mkTime 12 30 0));
    vm_compute; reflexivity.
Defined.

(** X24: [Date.order] is not chronological.  It multiplies the year by the
    month, so every day of a December is ordered above every day of the
    January that follows it, although the January timestamp is the later
    one by [delta]. *)
Theorem Date_order_december (y d d' : Z) (t1 t2 : Time) (a b : Timestamp) :
  Timestamp_init (mkDate y 12 d) t1 = Ok a →
  Timestamp_init (mkDate (y + 1) 1 d') t2 = Ok b →
  0 < Timestamp_delta b a
  ∧ Date_order (ts_date b) < Date_order (ts_date a).
Proof.
  intros Ha Hb. apply Timestamp_init_inv in Ha, Hb.
  destruct Ha as (Ea1 & _ & Ea3 & Hy & Hm & Hd & HH & HM & HS).
  destruct Hb as (Eb1 & _ & Eb3 & Hy' & Hm' & Hd' & HH' & HM' & HS').
  cbn [date_yy date_mm date_dd] in *.
  pose proof (days_in_month_bounds y 12). pose proof (days_in_month_bounds (y + 1) 1).
  pose proof (toordinal_mono y 12 d (y + 1) 1 d'
                (time_hh t1) (time_mm t1) (time_ss t1)
                (time_hh t2) (time_mm t2) (time_ss t2) Hm Hd Hm' Hd' ltac:(lia)) as Hlt.
  unfold Timestamp_delta, datetime.sub_total_seconds, datetime.seconds_of_day, Date_order.
  rewrite Ea1, Ea3, Eb1, Eb3.
  cbn [datetime.hour datetime.minute datetime.second date_yy date_mm date_dd].
  split; [lia|nia].
Qed.

Lemma Date_order_december_witness :
  0 < Timestamp_delta (stamp 2023 1 1 12 0 0) (stamp 2022 12 31 12 0 0)
  ∧ Date_order (ts_date (stamp 2023 1 1 12 0 0))
    < Date_order (ts_date (stamp 2022 12 31 12 0 0)).
Proof.
  apply (Date_order_december 2022 31 1 (mkTime 12 0 0) (mkTime 12 0 0));
    vm_compute; reflexivity.
Defined.

(** ** [Cli.report] *)

Lemma set_stdout_id (w : World) : set_stdout (stdout w) w = w.
Proof. now destruct w. Qed.

Lemma print_files_Ok (files : list ref) (w w' : World) :
  print_files files w = (Ok tt, w') →
  ∃ lines, Forall2 (text_of w) files lines ∧ w' = set_stdout (stdout w ++ lines) w.
Proof.
  revert w. induction files as [|r files IH]; intros w; cbn [print_files].
  - intros [= <-]. exists []. split; [constructor|].
    now rewrite app_nil_r, set_stdout_id.
  - unfold mbind at 1, M_bind at 1, deref.
    destruct (heap w !! r) as [cf|] eqn:Hcf; cbn [of_option]; [|intros H; discriminate H].
    unfold mbind at 1, M_bind at 1, print, modify.
    intros Hrun. apply IH in Hrun as (lines & Hall & ->).
    exists (ConflictFile_repr cf :: lines). split.
    + constructor; [exists cf; now split|exact Hall].
    + cbn [stdout set_stdout]. rewrite <- app_assoc. reflexivity.
Qed.

Lemma report_step (index : nat) (action : Z) (rest : list Z) (actions : list (list ref))
    (name : string) (files : list ref) (w : World) :
  zdict_get Action_NAMES action = Ok name →
  actions_get actions action = Ok files →
  Cli_report_loop index (action :: rest) actions w
  = match print_files files
            (set_stdout (stdout w ++ (if (0 <? index)%nat then [""] else [])
                         ++ [report_header name files]) w) with
    | (Ok _, w1) => Cli_report_loop (S index) rest actions w1
    | (Raise e, w1) => (Raise e, w1)
    end.
Proof.
  intros Hname Hfiles. cbn [Cli_report_loop].
  unfold mbind, M_bind, lift, print, modify, mret, M_ret. rewrite Hname, Hfiles.
  fold (report_header name files).
  destruct (0 <? index)%nat; cbn [stdout set_stdout app].
  - now rewrite <- app_assoc.
  - reflexivity.
Qed.

Lemma report_Ok (dels backs prompts : list ref) (w w' : World) :
  Cli_report [dels; backs; prompts] w = (Ok tt, w') →
  ∃ ld lb lp,
    Forall2 (text_of w) dels ld ∧ Forall2 (text_of w) backs lb
    ∧ Forall2 (text_of w) prompts lp
    ∧ w' = set_stdout
             (stdout w ++ report_header "DELETE" dels :: ld
                ++ "" :: report_header "BACKUP" backs :: lb
                ++ "" :: report_header "PROMPT" prompts :: lp) w.
Proof.
  unfold Cli_report.
  rewrite (report_step 0 Action_DELETE _ _ "DELETE" dels) by reflexivity.
  destruct (print_files dels _) as [[[]|e] w1] eqn:H1; [|intros H; discriminate H].
  apply print_files_Ok in H1 as (ld & Hd & ->).
  rewrite (report_step 1 Action_BACKUP _ _ "BACKUP" backs) by reflexivity.
  destruct (print_files backs _) as [[[]|e] w2] eqn:H2; [|intros H; discriminate H].
  apply print_files_Ok in H2 as (lb & Hb & ->).
  rewrite (report_step 2 Action_PROMPT _ _ "PROMPT" prompts) by reflexivity.
  destruct (print_files prompts _) as [[[]|e] w3] eqn:H3; [|intros H; discriminate H].
  apply print_files_Ok in H3 as (lp & Hp & ->).
  cbn [Cli_report_loop]. intros [= <-]. exists ld, lb, lp.
  split; [exact Hd|]. split; [exact Hb|]. split; [exact Hp|].
  unfold set_stdout. cbn [fs realpath clock ticks NOW heap stdout Nat.ltb Nat.leb app].
  f_equal. repeat (rewrite <- ?app_assoc; cbn [app]). reflexivity.
Qed.

(** X25: a report that returns has printed three blocks, DELETE, BACKUP
    and PROMPT in this order, with an empty line in front of the second and
    of the third: each block is a header that names the action and counts
    its files, followed by one line for each of them, the text of the
    object.  Nothing else of the state has changed. *)
Theorem report_blocks (dels backs prompts : list ref) (w w' : World) :
  Cli_report [dels; backs; prompts] w = (Ok tt, w') →
  ∃ ld lb lp,
    Forall2 (text_of w) dels ld ∧ Forall2 (text_of w) backs lb
    ∧ Forall2 (text_of w) prompts lp
    ∧ w' = set_stdout
             (stdout w ++ report_header "DELETE" dels :: ld
                ++ "" :: report_header "BACKUP" backs :: lb
                ++ "" :: report_header "PROMPT" prompts :: lp) w.
Proof. apply report_Ok. Qed.

Lemma report_blocks_witness :
  ∃ ld lb lp,
    Forall2 (text_of world_O) [0%nat] ld ∧ Forall2 (text_of world_O) [] lb
    ∧ Forall2 (text_of world_O) [] lp
    ∧ set_stdout [ "[DELETE] 1 files total"; name_1; "";
                   "[BACKUP] 0 files total"; ""; "[PROMPT] 0 files total" ] world_O
      = set_stdout
          (stdout world_O ++ report_header "DELETE" [0%nat] :: ld
             ++ "" :: report_header "BACKUP" [] :: lb
             ++ "" :: report_header "PROMPT" [] :: lp) world_O.
Proof.
  apply (report_blocks [0%nat] [] [] world_O). vm_compute. reflexivity.
Defined.

Lemma conflict_map_state (scan : list ref) (w : World) :
  snd (Cli_conflict_map scan w) = w.
Proof.
  unfold Cli_conflict_map. generalize (@nil (string * ref)) as acc.
  induction scan as [|r scan IH]; intros acc; cbn [Cli_conflict_map_loop];
    [reflexivity|].
  apply bind_keeps; [unfold deref; reflexivity|]. intros cf.
  apply bind_keeps; [reflexivity|]. intros k. apply IH.
Qed.

(** X26: what a run that returns has printed.  The scan of the run and the
    index built from it have returned, and every record of that index
    stands under DELETE, in the order of the index, with the text of its
    object; the blocks of BACKUP and PROMPT are empty.  The lines printed
    are the DELETE header with the size of the index, one line for each
    record of the index, and the four closing lines. *)
Theorem run_output (prompt : ConflictFile → Args → M unit) (args : Args)
    (walk : string → list (string * list string)) (w w' : World) :
  Cli_run prompt args walk w = (Ok tt, w') →
  ∃ (scan : list ref) (w1 : World) (conflict_map : list (string * ref))
    (lines : list string),
    Cli_scan_for_conflicts args walk w = (Ok scan, w1)
    ∧ Cli_conflict_map scan w1 = (Ok conflict_map, w1)
    ∧ Forall2 (text_of w') conflict_map.*2 lines
    ∧ stdout w'
      = (stdout w ++ report_header "DELETE" conflict_map.*2 :: lines
           ++ [""; "[BACKUP] 0 files total"; ""; "[PROMPT] 0 files total"])%list.
Proof.
  rewrite Cli_run_eq. unfold Cli_run_report.
  pose proof (keeps_classified stdout (λ _ _, eq_refl) (λ _ _, eq_refl) (λ _ _, eq_refl)
                args walk w) as Hout.
  unfold mbind, M_bind in *.
  destruct (Cli_scan_for_conflicts args walk w) as [[scan|e] w1] eqn:Hscan;
    [|intros H; discriminate H].
  pose proof (conflict_map_state scan w1) as Hstate.
  destruct (Cli_conflict_map scan w1) as [[m|e] w2] eqn:Hmap;
    [|intros H; discriminate H].
  cbn [snd] in Hstate. subst w2.
  destruct (Cli_conflict_tree m w1) as [[tree|e] w3]; [|intros H; discriminate H].
  destruct (Cli_actions args m w3) as [[acts|e] w4] eqn:Hact; [|intros H; discriminate H].
  apply Cli_actions_loop_DELETE in Hact. subst acts. cbn [app snd] in Hout.
  destruct (Cli_report _ w4) as [[[]|e] w5] eqn:Hrep; [|intros H; discriminate H].
  cbn. intros [= <-].
  apply report_Ok in Hrep as (ld & lb & lp & Hd & Hb & Hp & ->).
  inversion Hb; subst. inversion Hp; subst.
  exists scan, w1, m, ld. split; [reflexivity|]. split; [exact Hmap|].
  split; [exact Hd|].
  cbn [stdout set_stdout]. rewrite Hout. reflexivity.
Qed.

Lemma run_output_witness :
  Cli_scan_for_conflicts commit_args walk_O world_O
  = (Ok [1%nat], set_heap [record_1; record_1] world_O)
  ∧ Cli_conflict_map [1%nat] (set_heap [record_1; record_1] world_O)
    = (Ok [("/data/" +:+ name_1, 1%nat)], set_heap [record_1; record_1] world_O)
  ∧ ∃ lines,
      Forall2 (text_of (set_stdout [ "[DELETE] 1 files total"; name_1; "";
                                     "[BACKUP] 0 files total"; "";
                                     "[PROMPT] 0 files total" ]
                          (set_NOW (Some (stamp 2024 6 1 0 0 0))
                             (set_ticks 1 (set_heap [record_1; record_1] world_O)))))
        [1%nat] lines
      ∧ [ "[DELETE] 1 files total"; name_1; "";
          "[BACKUP] 0 files total"; ""; "[PROMPT] 0 files total" ]
        = (stdout world_O ++ report_header "DELETE" [1%nat] :: lines
             ++ [""; "[BACKUP] 0 files total"; ""; "[PROMPT] 0 files total"])%list.
Proof.
  destruct (run_output (λ _ _, mret tt) commit_args walk_O world_O
              (set_stdout [ "[DELETE] 1 files total"; name_1; "";
                            "[BACKUP] 0 files total"; ""; "[PROMPT] 0 files total" ]
                 (set_NOW (Some (stamp 2024 6 1 0 0 0))
                    (set_ticks 1 (set_heap [record_1; record_1] world_O)))))
    as (scan & w1 & m & lines & Hscan & Hmap & Hlines & Hout);
    [vm_compute; reflexivity|].
  assert (E1 : Cli_scan_for_conflicts commit_args walk_O world_O
               = (Ok [1%nat], set_heap [record_1; record_1] world_O))
    by (vm_compute; reflexivity).
  rewrite E1 in Hscan. injection Hscan as <- <-.
  assert (E2 : Cli_conflict_map [1%nat] (set_heap [record_1; record_1] world_O)
               = (Ok [("/data/" +:+ name_1, 1%nat)],
                  set_heap [record_1; record_1] world_O))
    by (vm_compute; reflexivity).
  rewrite E2 in Hmap. injection Hmap as <-.
  split; [exact E1|]. split; [exact E2|]. exists lines. split; [exact Hlines|exact Hout].
Defined.

(** ** [Action.run] *)

(** X27: [Action.run] on the action that [Action.mapping] gives for a
    classification never misses [ACTION_MAP]: it is [prompt] for YOUNG,
    [backup] for NONE and [delete] for the five others. *)
Theorem Action_run_mapped (prompt : ConflictFile → Args → M unit)
    (conflict_file : ConflictFile) (args : Args) (h a : Z) (w : World) :
  Action_mapping h = Ok a →
  Action_run prompt conflict_file a args w
  = if bool_decide (h = Heuristic_YOUNG) then prompt conflict_file args w
    else if bool_decide (h = Heuristic_NONE) then ConflictFile_backup conflict_file args w
    else ConflictFile_delete conflict_file args w.
Proof.
  intros Hmap. apply Action_mapping_Ok_inv in Hmap. unfold Action_mapping_dict in Hmap.
  repeat (apply elem_of_cons in Hmap as [[= -> ->]|Hmap]; [reflexivity|]).
  now apply elem_of_nil in Hmap.
Qed.

Lemma Action_run_mapped_witness :
  Action_run (λ _ _, mret tt) record_1 Action_BACKUP dry_args world_D
  = if bool_decide (Heuristic_NONE = Heuristic_YOUNG) then (Ok tt, world_D)
    else if bool_decide (Heuristic_NONE = Heuristic_NONE)
         then ConflictFile_backup record_1 dry_args world_D
         else ConflictFile_delete record_1 dry_args world_D.
Proof.
  apply (Action_run_mapped (λ _ _, mret tt) record_1 dry_args Heuristic_NONE Action_BACKUP
           world_D).
  reflexivity.
Defined.

(** ** The relevant marker of a record *)

Lemma Conflict_parse_stamps (ms : list groups) (cs : list Conflict) :
  Conflict_parse_matches ms = Ok cs →
  Forall (λ c, Timestamp_init (c_date c) (c_time c) = Ok (c_timestamp c)) cs.
Proof.
  revert cs. induction ms as [|g ms IH]; intros cs; cbn [Conflict_parse_matches].
  - intros [= <-]. constructor.
  - unfold Conflict_init.
    destruct (Date_init_str _ _ _) as [d|e]; [|intros H; discriminate H].
    destruct (Time_init_str _ _ _) as [t|e]; cbn [mbind result_bind];
      [|intros H; discriminate H].
    destruct (Timestamp_init d t) as [stamp|e] eqn:Hst; cbn [mbind result_bind];
      [|intros H; discriminate H].
    destruct (Conflict_parse_matches ms) as [cs'|e]; cbn; [|intros H; discriminate H].
    intros [= <-]. constructor; [exact Hst|now apply IH].
Qed.

Lemma scanned_inv (cf : ConflictFile) :
  scanned cf →
  cf_conflicts cf ≠ []
  ∧ Conflict_parse (cf_name cf) = Ok (cf_conflicts cf)
  ∧ ConflictFile_repr cf = cf_name cf.
Proof.
  unfold scanned, scan_file.
  destruct (Conflict_parse (cf_name cf)) as [[|c cs]|e];
    cbn [mbind result_bind]; try (intros H; discriminate H).
  destruct (ConflictFile_init _ _ _ _) as [cf'|e] eqn:Hinit; cbn;
    [|intros H; discriminate H].
  intros [= ->]. pose proof Hinit as Hinv. apply ConflictFile_init_inv in Hinv.
  destruct Hinv as (_ & _ & _ & Hcs & _).
  split; [rewrite Hcs; discriminate|]. split; [now rewrite Hcs|].
  unfold ConflictFile_init in Hinit.
  destruct (os_path.splitext _) as [sel ext]. unfold assert in Hinit.
  destruct (Str.eqb (cf_name cf) _) eqn:E; [|discriminate Hinit].
  cbn in Hinit. injection Hinit as Hcf. apply Str_eqb_eq in E.
  rewrite <- Hcf at 1. symmetry. exact E.
Qed.

(** X28: a record that the scan has built has a relevant marker, the last
    in its name: [top] returns it, [order] returns the fourteen digits of
    its timestamp as a number, and once the clock is memoized
    [age_in_seconds] returns the seconds from that timestamp to the
    memoized one and leaves the state as it is.  None of the three
    raises. *)
Theorem scanned_top (cf : ConflictFile) :
  scanned cf →
  ∃ c, last (cf_conflicts cf) = Some c
       ∧ ConflictFile_top cf = Ok c
       ∧ ConflictFile_order cf = Ok (stamp_number (c_timestamp c))
       ∧ ∀ w t, NOW w = Some t →
                ConflictFile_age_in_seconds cf w
                = (Ok (Timestamp_delta t (c_timestamp c)), w).
Proof.
  intros Hs. apply scanned_inv in Hs as (Hne & Hparse & _).
  destruct (last (cf_conflicts cf)) as [c|] eqn:Hlast.
  2:{ apply last_None in Hlast. contradiction. }
  exists c. split; [reflexivity|].
  assert (Htop : ConflictFile_top cf = Ok c).
  { unfold ConflictFile_top. now rewrite Hlast. }
  split; [exact Htop|]. split.
  - unfold ConflictFile_order, Conflict_order. rewrite Htop. cbn [mbind result_bind].
    unfold Conflict_parse in Hparse. apply Conflict_parse_stamps in Hparse.
    rewrite Forall_forall in Hparse.
    apply (Timestamp_order_value (c_date c) (c_time c)).
    apply Hparse. apply last_Some in Hlast as (l' & ->).
    apply elem_of_app. right. apply list_elem_of_here.
  - intros w t Hnow. rewrite (file_age_memo t cf w Hnow), Htop. reflexivity.
Qed.

Lemma scanned_top_witness :
  ∃ c, last (cf_conflicts record_2) = Some c
       ∧ ConflictFile_top record_2 = Ok c
       ∧ ConflictFile_order record_2 = Ok (stamp_number (c_timestamp c))
       ∧ ∀ w t, NOW w = Some t →
                ConflictFile_age_in_seconds record_2 w
                = (Ok (Timestamp_delta t (c_timestamp c)), w).
Proof. apply (scanned_top record_2). vm_compute. reflexivity. Defined.
